(** * Plate optimizer: greedy seeder, constraint model, best-solution tracker

    A shallow embedding of [optimizer_logic.py].  Python integers are [Z],
    list indices are [nat], Python lists are [list] read with [!!] and
    updated with [alter] and [<[_:=_]>], exceptions are the [Raise] outcome
    of the [Result] monad, and [while] loops are iterated on a fuel argument
    whose exhaustion is the separate outcome [OutOfFuel].

    The CP-SAT solver is an external collaborator.  The model that
    [solve_plate_optimization] hands to it is built as a value ([CpModel]),
    the meaning of its constraints is given by [feasible], and the search
    itself is a parameter: the sequence of assignments with which the solver
    invokes the solution callback.  The solver's interface takes 64-bit
    integers: a Python integer outside that range is refused with
    [TypeError] where it is handed over ([int64_arg]). *)

From stdpp Require Import list numbers strings.

Local Open Scope Z_scope.

(** ** Python outcomes *)

Inductive PyExn : Type :=
  | ValueError
  | ZeroDivisionError
  | IndexError
  | TypeError.

Inductive Result (A : Type) : Type :=
  | Ok (a : A)
  | Raise (e : PyExn)
  | OutOfFuel.

Arguments Ok {A} a.
Arguments Raise {A} e.
Arguments OutOfFuel {A}.

Global Instance Result_ret : MRet Result := λ A a, Ok a.
Global Instance Result_bind : MBind Result := λ A B f m,
  match m with
  | Ok a => f a
  | Raise e => Raise e
  | OutOfFuel => OutOfFuel
  end.
Global Instance Result_fmap : FMap Result := λ A B f m,
  match m with
  | Ok a => Ok (f a)
  | Raise e => Raise e
  | OutOfFuel => OutOfFuel
  end.

(** A [for] loop whose body may raise: the state is threaded left to right. *)
Fixpoint foldM {A S : Type} (body : S → A → Result S) (s : S) (l : list A)
  : Result S :=
  match l with
  | [] => Ok s
  | x :: l' => s' ← body s x; foldM body s' l'
  end.

(** ** Python built-ins on lists of integers *)

(** [sum(l)]. *)
Definition py_sum (l : list Z) : Z := foldr Z.add 0 l.

Fixpoint min_from (x : Z) (l : list Z) : Z :=
  match l with
  | [] => x
  | y :: l' => min_from (Z.min x y) l'
  end.

Fixpoint max_from (x : Z) (l : list Z) : Z :=
  match l with
  | [] => x
  | y :: l' => max_from (Z.max x y) l'
  end.

(** [min(l)] and [max(l)]: [ValueError] on the empty list. *)
Definition py_min (l : list Z) : Result Z :=
  match l with
  | [] => Raise ValueError
  | x :: l' => Ok (min_from x l')
  end.

Definition py_max (l : list Z) : Result Z :=
  match l with
  | [] => Raise ValueError
  | x :: l' => Ok (max_from x l')
  end.

(** [l.index(x)]: the first position holding [x], [ValueError] if none. *)
Fixpoint py_index (x : Z) (l : list Z) : Result nat :=
  match l with
  | [] => Raise ValueError
  | y :: l' => if decide (y = x) then Ok O else S <$> py_index x l'
  end.

(** [l.index(min(l))] and [l.index(max(l))]. *)
Definition index_of_min (l : list Z) : Result nat :=
  m ← py_min l; py_index m l.

Definition index_of_max (l : list Z) : Result nat :=
  m ← py_max l; py_index m l.

(** ** Tags *)

(** A tag dictionary: the three keys the optimizer reads, and the remaining
    keys as an association list. *)
Record Tag : Type := mkTag {
  COLOR : string;
  SIZE : string;
  QTY : Z;
  other_fields : list (string * string)
}.

(** [sorted(tags, key=lambda t: t['QTY'], reverse=True)]: descending by
    quantity, tags of equal quantity keeping their input order. *)
Fixpoint insert_desc (t : Tag) (l : list Tag) : list Tag :=
  match l with
  | [] => [t]
  | u :: l' => if decide (QTY t < QTY u) then u :: insert_desc t l' else t :: l
  end.

Definition sorted_desc (tags : list Tag) : list Tag := foldr insert_desc [] tags.

(** ** The greedy seeder *)

(** How a loop body leaves its iteration. *)
Inductive LoopCtl (A : Type) : Type :=
  | Continue (a : A)
  | Break (a : A).

Arguments Continue {A} a.
Arguments Break {A} a.

Section Seeder.

(** [round_share q total u] is the integer that the floating-point expression
    [round((q / total) * u)] evaluates to, for [total <> 0]. *)
Variable round_share : Z → Z → Z → Z.

(** The list comprehension of [assign_ups_proportional]: one division per
    item, so an empty group divides nothing. *)
Definition raw_ups_of (group : list Tag) (ups_per_plate : Z) : Result (list Z) :=
  let total_qty := py_sum (QTY <$> group) in
  mapM (λ item,
          if decide (total_qty = 0) then Raise ZeroDivisionError
          else Ok (Z.max 1 (round_share (QTY item) total_qty ups_per_plate)))
       group.

(** Body of the first loop: [raw_ups[raw_ups.index(min(raw_ups))] += 1]. *)
Definition inc_step (raw_ups : list Z) : Result (list Z) :=
  min_index ← index_of_min raw_ups;
  Ok (alter (λ x, x + 1) min_index raw_ups).

(** [while sum(raw_ups) < ups_per_plate: ...]. *)
Fixpoint inc_loop (fuel : nat) (ups_per_plate : Z) (raw_ups : list Z)
  : Result (list Z) :=
  if decide (py_sum raw_ups < ups_per_plate) then
    match fuel with
    | O => OutOfFuel
    | S fuel' => raw_ups' ← inc_step raw_ups; inc_loop fuel' ups_per_plate raw_ups'
    end
  else Ok raw_ups.

(** Body of the second loop: decrement the first largest value when it
    exceeds 1, otherwise [break]. *)
Definition dec_step (raw_ups : list Z) : Result (LoopCtl (list Z)) :=
  max_index ← index_of_max raw_ups;
  match raw_ups !! max_index with
  | None => Raise IndexError
  | Some x =>
      if decide (x > 1) then Ok (Continue (alter (λ x, x - 1) max_index raw_ups))
      else Ok (Break raw_ups)
  end.

(** [while sum(raw_ups) > ups_per_plate: ...]. *)
Fixpoint dec_loop (fuel : nat) (ups_per_plate : Z) (raw_ups : list Z)
  : Result (list Z) :=
  if decide (py_sum raw_ups > ups_per_plate) then
    match fuel with
    | O => OutOfFuel
    | S fuel' =>
        c ← dec_step raw_ups;
        match c with
        | Continue raw_ups' => dec_loop fuel' ups_per_plate raw_ups'
        | Break raw_ups' => Ok raw_ups'
        end
    end
  else Ok raw_ups.

Definition assign_ups_proportional (fuel : nat) (group : list Tag)
    (ups_per_plate : Z) : Result (list Z) :=
  raw_ups ← raw_ups_of group ups_per_plate;
  raw_ups ← inc_loop fuel ups_per_plate raw_ups;
  dec_loop fuel ups_per_plate raw_ups.

(** The two parallel lists [plates] and [plate_loads]. *)
Definition Partition : Type := list (list Tag) * list Z.

(** [[[] for _ in range(plate_count)]] and [[0] * plate_count]: both are
    empty for a plate count of zero or less. *)
Definition empty_partition (plate_count : Z) : Partition :=
  (replicate (Z.to_nat plate_count) [], replicate (Z.to_nat plate_count) 0).

(** The three statements that put [tag] on the plate of least load.  The two
    lists have the same length throughout, so an index found in
    [plate_loads] is an index of [plates]. *)
Definition place (st : Partition) (tag : Tag) : Result Partition :=
  min_index ← index_of_min st.2;
  Ok (alter (λ g, g ++ [tag]) min_index st.1,
      alter (λ load, load + QTY tag) min_index st.2).

Definition initial_balanced_partition (tags : list Tag) (plate_count : Z)
  : Result (list (list Tag)) :=
  st ← foldM place (empty_partition plate_count) (sorted_desc tags);
  Ok st.1.

(** Body of the second pass of [initial_balanced_partition_no_singles]. *)
Definition repair_step (st : Partition) (i : nat) : Result Partition :=
  match st.1 !! i with
  | None => Raise IndexError
  | Some [single_tag] =>
      let plates := <[i := []]> st.1 in
      let plate_loads := <[i := 0]> st.2 in
      place (plates, plate_loads) single_tag
  | Some _ => Ok st
  end.

Definition initial_balanced_partition_no_singles (tags : list Tag)
    (plate_count : Z) : Result (list (list Tag)) :=
  st ← foldM place (empty_partition plate_count) (sorted_desc tags);
  st ← foldM repair_step st (seq 0 (length st.1));
  Ok st.1.

(** One entry of the seed: [(tag, plate_index, ups)]. *)
Definition SeedEntry : Type := Tag * nat * Z.

(** Body of the loop over [enumerate(partitions)]. *)
Definition seed_group (fuel : nat) (ups_per_plate : Z)
    (initial_assignment : list SeedEntry) (entry : nat * list Tag)
  : Result (list SeedEntry) :=
  let '(plate_index, group) := entry in
  match group with
  | [] => Ok initial_assignment
  | _ =>
      ups_list ← assign_ups_proportional fuel group ups_per_plate;
      Ok (initial_assignment
            ++ zip_with (λ tag ups, (tag, plate_index, ups)) group ups_list)
  end.

Definition seed_partition (tags : list Tag) (plate_count : Z)
  : Result (list (list Tag)) :=
  if decide (100 < length tags)%nat
  then initial_balanced_partition_no_singles tags plate_count
  else initial_balanced_partition tags plate_count.

Definition greedy_initialize (fuel : nat) (tags : list Tag) (ups_per_plate : Z)
    (plate_count : Z) : Result (list SeedEntry) :=
  partitions ← seed_partition tags plate_count;
  foldM (seed_group fuel ups_per_plate) [] (imap (λ i g, (i, g)) partitions).

End Seeder.

(** ** The constraint model *)

(** The decision variables, named as in [solve_plate_optimization]; [i] is a
    tag index and [j] a plate index.  [active_ups] is the variable the code
    calls [term]. *)
Inductive Var : Type :=
  | tag_to_plate (i : nat)
  | ups_vars (i : nat)
  | plate_sheets (j : nat)
  | plate_used (j : nat)
  | tag_on_plate (i j : nat)
  | product_var (i j : nat)
  | active_ups (i j : nat)
  | total_ups_on_plate (j : nat)
  | tag_count (j : nat)
  | single_tag_indicator (j : nat)
  | only_one_tag (j : nat)
  | under_utilized (j : nat)
  | forbidden_combo (j : nat).

(** A Boolean variable or its negation [x.Not()]. *)
Inductive Literal : Type :=
  | Lit (x : Var)
  | Not (x : Var).

(** The linear expressions the model uses: a constant, a variable, or
    [sum(xs)] of a list of variables. *)
Inductive LinExpr : Type :=
  | LConst (c : Z)
  | LVar (x : Var)
  | LSum (xs : list Var).

Inductive Rel : Type := REq | RNe | RGe.

Inductive Constraint : Type :=
  | Linear (lhs : LinExpr) (r : Rel) (rhs : LinExpr)
  | MultiplicationEquality (target : Var) (factors : list Var)
  | BoolOr (literals : list Literal)
  | BoolAnd (literals : list Literal)
  | Implication (a b : Literal).

(** The calls made on [model], in program order.  [Add c enforce] is a
    constraint followed by [.OnlyEnforceIf] for each literal of [enforce]. *)
Inductive Stmt : Type :=
  | NewIntVar (x : Var) (lb ub : Z)
  | NewBoolVar (x : Var)
  | Add (c : Constraint) (enforce : list Literal)
  | AddHint (x : Var) (value : Z)
  | Minimize (xs : list Var).

Definition CpModel : Type := list Stmt.

(** The statements of the first loop over plates, for plate [j]. *)
Definition link_tag (j i : nat) (tag : Tag) : list Stmt :=
  [ Add (Linear (LVar (tag_to_plate i)) REq (LConst (Z.of_nat j))) [Lit (tag_on_plate i j)];
    Add (Linear (LVar (tag_to_plate i)) RNe (LConst (Z.of_nat j))) [Not (tag_on_plate i j)];
    NewIntVar (product_var i j) 1 1000000;
    Add (MultiplicationEquality (product_var i j) [plate_sheets j; ups_vars i]) [];
    Add (Linear (LVar (product_var i j)) RGe (LConst (QTY tag))) [Lit (tag_on_plate i j)] ].

Definition link_plate (tags : list Tag) (j : nat) : list Stmt :=
  let used_bools := imap (λ i _, tag_on_plate i j) tags in
  mjoin (imap (link_tag j) tags)
  ++ [ Add (BoolOr (Lit <$> used_bools)) [Lit (plate_used j)];
       Add (BoolAnd (Not <$> used_bools)) [Not (plate_used j)] ].

(** The statements of the second loop over plates, for plate [j]. *)
Definition active_term (ups_per_plate : Z) (j i : nat) : list Stmt :=
  [ NewIntVar (active_ups i j) 0 ups_per_plate;
    Add (MultiplicationEquality (active_ups i j) [ups_vars i; tag_on_plate i j]) [] ].

Definition min_occupancy (enforce_min_tags : bool) (num_tags : nat)
    (ups_per_plate : Z) (j : nat) : list Stmt :=
  let on_plate := (λ i, tag_on_plate i j) <$> seq 0 num_tags in
  if enforce_min_tags then
    [ NewIntVar (tag_count j) 0 (Z.of_nat num_tags);
      Add (Linear (LVar (tag_count j)) REq (LSum on_plate)) [];
      Add (Linear (LVar (tag_count j)) RGe (LConst 2)) [Lit (plate_used j)];
      NewBoolVar (single_tag_indicator j);
      Add (Linear (LVar (tag_count j)) REq (LConst 1)) [Lit (single_tag_indicator j)];
      Add (Linear (LVar (tag_count j)) RNe (LConst 1)) [Not (single_tag_indicator j)];
      Add (Implication (Lit (single_tag_indicator j)) (Not (plate_used j))) [] ]
  else
    [ NewIntVar (tag_count j) 0 (Z.of_nat num_tags);
      Add (Linear (LVar (tag_count j)) REq (LSum on_plate)) [];
      NewBoolVar (only_one_tag j);
      Add (Linear (LVar (tag_count j)) REq (LConst 1)) [Lit (only_one_tag j)];
      Add (Linear (LVar (tag_count j)) RNe (LConst 1)) [Not (only_one_tag j)];
      NewBoolVar (under_utilized j);
      Add (Linear (LVar (total_ups_on_plate j)) REq (LConst ups_per_plate))
          [Lit (under_utilized j)];
      Add (Linear (LVar (total_ups_on_plate j)) RNe (LConst ups_per_plate))
          [Not (under_utilized j)];
      NewBoolVar (forbidden_combo j);
      Add (BoolAnd [Lit (only_one_tag j); Lit (under_utilized j)])
          [Lit (forbidden_combo j)];
      Add (Linear (LVar (forbidden_combo j)) REq (LConst 0)) [] ].

Definition occupancy_plate (enforce_min_tags : bool) (num_tags : nat)
    (ups_per_plate : Z) (j : nat) : list Stmt :=
  let ups_sum := (λ i, active_ups i j) <$> seq 0 num_tags in
  mjoin (active_term ups_per_plate j <$> seq 0 num_tags)
  ++ [ NewIntVar (total_ups_on_plate j) 0 ups_per_plate;
       Add (Linear (LVar (total_ups_on_plate j)) REq (LSum ups_sum)) [];
       Add (Linear (LVar (total_ups_on_plate j)) REq (LConst ups_per_plate))
           [Lit (plate_used j)];
       Add (Linear (LVar (total_ups_on_plate j)) REq (LConst 0))
           [Not (plate_used j)] ]
  ++ min_occupancy enforce_min_tags num_tags ups_per_plate j.

(** The range of the integers the solver's interface takes. *)
Definition fits_int64 (x : Z) : Prop := - 2 ^ 63 <= x < 2 ^ 63.

Global Instance fits_int64_dec x : Decision (fits_int64 x).
Proof. unfold fits_int64; apply _. Defined.

(** An integer handed to the solver's interface, as a bound of a variable,
    the constant of a constraint or the value of a hint. *)
Definition int64_arg (x : Z) : Result Z :=
  if decide (fits_int64 x) then Ok x else Raise TypeError.

(** The hints of one seed entry; [tag_to_plate[i]] raises [IndexError] when
    the seed is longer than the tag list. *)
Definition hint_entry (num_tags : nat) (i : nat) (entry : SeedEntry)
  : Result (list Stmt) :=
  let '(_, plate_index, ups) := entry in
  if decide (i < num_tags)%nat
  then
    plate_index ← int64_arg (Z.of_nat plate_index);
    ups ← int64_arg ups;
    Ok [AddHint (tag_to_plate i) plate_index; AddHint (ups_vars i) ups]
  else Raise IndexError.

(** Everything [solve_plate_optimization] does to [model] before it creates
    the solver.  The statements are collected at the end; before that come,
    in the order in which the code reaches them, the integers it hands to the
    solver's interface: the bounds [plate_count - 1] and [ups_per_plate] of
    the two variables of each tag, the hints, each tag's quantity in the
    first loop over the plates, and the bound [ups_per_plate] in the second
    loop over the plates. *)
Definition build_model (tags : list Tag) (ups_per_plate plate_count : Z)
    (seed_solution : list SeedEntry) : Result CpModel :=
  let num_tags := length tags in
  let all_plates := seq 0 (Z.to_nat plate_count) in
  let enforce_min_tags := bool_decide (100 < length tags)%nat in
  _ ← mapM (λ _, int64_arg (plate_count - 1)) (seq 0 num_tags);
  _ ← mapM (λ _, int64_arg ups_per_plate) (seq 0 num_tags);
  hint_stmts ← mapM (λ e, hint_entry num_tags e.1 e.2)
                     (imap (λ i e, (i, e)) seed_solution);
  _ ← mapM (λ _, mapM (λ tag, int64_arg (QTY tag)) tags) all_plates;
  _ ← mapM (λ _, int64_arg ups_per_plate) all_plates;
  Ok (((λ i, NewIntVar (tag_to_plate i) 0 (plate_count - 1)) <$> seq 0 num_tags)
      ++ ((λ i, NewIntVar (ups_vars i) 1 ups_per_plate) <$> seq 0 num_tags)
      ++ ((λ j, NewIntVar (plate_sheets j) 1 10000) <$> all_plates)
      ++ mjoin hint_stmts
      ++ ((λ j, NewBoolVar (plate_used j)) <$> all_plates)
      ++ mjoin ((λ i, (λ j, NewBoolVar (tag_on_plate i j)) <$> all_plates)
                  <$> seq 0 num_tags)
      ++ mjoin (link_plate tags <$> all_plates)
      ++ mjoin (occupancy_plate enforce_min_tags num_tags ups_per_plate <$> all_plates)
      ++ [Minimize (plate_sheets <$> all_plates)]).

(** ** Meaning of a model *)

(** An assignment of a value to every variable; [v x] is [Value(x)]. *)
Definition Valuation : Type := Var → Z.

Definition lit_true (v : Valuation) (l : Literal) : Prop :=
  match l with
  | Lit x => v x = 1
  | Not x => v x = 0
  end.

Definition eval (v : Valuation) (e : LinExpr) : Z :=
  match e with
  | LConst c => c
  | LVar x => v x
  | LSum xs => py_sum (v <$> xs)
  end.

Definition rel_holds (r : Rel) (a b : Z) : Prop :=
  match r with
  | REq => a = b
  | RNe => a ≠ b
  | RGe => a >= b
  end.

Definition holds (v : Valuation) (c : Constraint) : Prop :=
  match c with
  | Linear lhs r rhs => rel_holds r (eval v lhs) (eval v rhs)
  | MultiplicationEquality target factors =>
      v target = foldr Z.mul 1 (v <$> factors)
  | BoolOr literals => Exists (lit_true v) literals
  | BoolAnd literals => Forall (lit_true v) literals
  | Implication a b => lit_true v a → lit_true v b
  end.

(** What a statement demands of an assignment: a variable lies in its domain,
    a constraint holds whenever all its enforcement literals are true; hints
    and the objective demand nothing. *)
Definition stmt_ok (v : Valuation) (s : Stmt) : Prop :=
  match s with
  | NewIntVar x lb ub => lb <= v x <= ub
  | NewBoolVar x => 0 <= v x <= 1
  | Add c enforce => Forall (lit_true v) enforce → holds v c
  | AddHint _ _ => True
  | Minimize _ => True
  end.

Definition feasible (v : Valuation) (model : CpModel) : Prop :=
  Forall (stmt_ok v) model.

(** The value of the minimised expression. *)
Definition objective_value (v : Valuation) (model : CpModel) : Z :=
  py_sum ((λ s, match s with Minimize xs => py_sum (v <$> xs) | _ => 0 end) <$> model).

Global Instance lit_true_dec v l : Decision (lit_true v l).
Proof. destruct l; simpl; apply _. Defined.

Global Instance rel_holds_dec r a b : Decision (rel_holds r a b).
Proof. destruct r; simpl; apply _. Defined.

Global Instance holds_dec v c : Decision (holds v c).
Proof. destruct c; simpl; apply _. Defined.

Global Instance stmt_ok_dec v s : Decision (stmt_ok v s).
Proof. destruct s; simpl; apply _. Defined.

Global Instance feasible_dec v model : Decision (feasible v model).
Proof. unfold feasible; apply _. Defined.

(** ** The best-solution tracker *)

(** The value of [best_obj]: [float('inf')] until a solution is recorded. *)
Inductive Objective : Type :=
  | inf
  | finite (obj : Z).

(** [obj < best_obj]. *)
Definition improves (obj : Z) (best : Objective) : Prop :=
  match best with
  | inf => True
  | finite b => obj < b
  end.

Global Instance improves_dec obj best : Decision (improves obj best).
Proof. destruct best; simpl; apply _. Defined.

(** The optional fields copied into a result when the tag has them. *)
Definition optional_fields : list string :=
  ["ITEM_DESCRIPTION"; "ITEM_CODE"; "PRICE"; "EP_NO"; "RUN"; "SHEET"]%string.

(** [item[field]] on the keys of [other_fields]. *)
Definition get_field (field : string) (item : Tag) : option string :=
  (λ found, found.2.2) <$> list_find (λ kv, kv.1 = field) (other_fields item).

(** One entry of [results].  [PLATE] is the code point of the one-character
    label [chr(65 + j)]; code points above 0x10FFFF, for which [chr] raises,
    need more than a million plates and are not modelled. *)
Record ResultRow : Type := mkRow {
  row_COLOR : string;
  row_SIZE : string;
  row_QTY : Z;
  PLATE : Z;
  OPTIMAL_UPS : Z;
  SHEETS_NEEDED : Z;
  QTY_PRODUCED : Z;
  EXCESS : Z;
  row_optional : list (string * string)
}.

Section Tracker.

(** Python floats are not modelled.  [Float] stands for them, [float_zero] for
    the literal [0.0], and [round_waste excess produced] for the value of
    [round((excess / produced) * 100, 2)] when [produced] is not zero. *)
Variable Float : Type.
Variable float_zero : Float.
Variable round_waste : Z → Z → Float.

Record Summary : Type := mkSummary {
  totalSheets : Z;
  totalProduced : Z;
  totalExcess : Z;
  wastePercentage : Float;
  totalPlates : Z;
  totalItems : Z;
  upsCapacity : Z
}.

Record Solution : Type := mkSolution {
  results : list ResultRow;
  summary : Summary
}.

(** The state of a [PlateOptimizationCallback].  Its variable lists are the
    model's own [tag_to_plate], [ups_vars] and [plate_sheets], so
    [self.Value(self.ups_vars[i])] is [v (ups_vars i)].  The wall-clock fields
    only decide when the solver is asked to stop, which is covered by letting
    the sequence of callback invocations be arbitrary. *)
Record PlateOptimizationCallback : Type := mkCallback {
  best_solution : option Solution;
  best_obj : Objective;
  cb_tags : list Tag;
  cb_plate_count : Z;
  cb_ups_per_plate : Z;
  solution_count : nat
}.

(** [__init__]. *)
Definition new_callback (tags : list Tag) (plate_count ups_per_plate : Z)
  : PlateOptimizationCallback :=
  {| best_solution := None; best_obj := inf; cb_tags := tags;
     cb_plate_count := plate_count; cb_ups_per_plate := ups_per_plate;
     solution_count := 0 |}.

(** The dictionary built for tag [i] on plate [j]. *)
Definition result_row (v : Valuation) (j i : nat) (item : Tag) : ResultRow :=
  let ups := v (ups_vars i) in
  let sheets := v (plate_sheets j) in
  let produced := ups * sheets in
  {| row_COLOR := COLOR item; row_SIZE := SIZE item; row_QTY := QTY item;
     PLATE := 65 + Z.of_nat j;
     OPTIMAL_UPS := ups; SHEETS_NEEDED := sheets; QTY_PRODUCED := produced;
     EXCESS := produced - QTY item;
     row_optional :=
       omap (λ field, (λ x, (field, x)) <$> get_field field item) optional_fields |}.

(** The inner loop over tags, for plate [j]. *)
Definition plate_rows (v : Valuation) (tags : list Tag) (j : nat) : list ResultRow :=
  mjoin (imap (λ i item,
                 if decide (v (tag_to_plate i) = Z.of_nat j)
                 then [result_row v j i item] else [])
              tags).

(** [sum(self.Value(s) for s in self.plate_sheets)]. *)
Definition sheets_total (v : Valuation) (plate_count : Z) : Z :=
  py_sum ((λ j, v (plate_sheets j)) <$> seq 0 (Z.to_nat plate_count)).

(** The solution recorded for an improving assignment. *)
Definition materialize (v : Valuation) (tags : list Tag)
    (plate_count ups_per_plate : Z) : Solution :=
  let totalItems := py_sum (QTY <$> tags) in
  let results := mjoin (plate_rows v tags <$> seq 0 (Z.to_nat plate_count)) in
  let totalProduced := py_sum (QTY_PRODUCED <$> results) in
  let totalSheets := sheets_total v plate_count in
  let totalExcess := totalProduced - totalItems in
  let waste :=
    if decide (totalProduced = 0) then float_zero
    else round_waste totalExcess totalProduced in
  {| results := results;
     summary := {| totalSheets := totalSheets; totalProduced := totalProduced;
                   totalExcess := totalExcess; wastePercentage := waste;
                   totalPlates := plate_count; totalItems := totalItems;
                   upsCapacity := ups_per_plate |} |}.

Definition on_solution_callback (self : PlateOptimizationCallback)
    (v : Valuation) : PlateOptimizationCallback :=
  let obj := sheets_total v (cb_plate_count self) in
  if decide (improves obj (best_obj self)) then
    {| best_solution :=
         Some (materialize v (cb_tags self) (cb_plate_count self)
                 (cb_ups_per_plate self));
       best_obj := finite obj;
       cb_tags := cb_tags self; cb_plate_count := cb_plate_count self;
       cb_ups_per_plate := cb_ups_per_plate self;
       solution_count := S (solution_count self) |}
  else
    {| best_solution := best_solution self; best_obj := best_obj self;
       cb_tags := cb_tags self; cb_plate_count := cb_plate_count self;
       cb_ups_per_plate := cb_ups_per_plate self;
       solution_count := S (solution_count self) |}.

(** ** Post-solve validation and the result *)

(** [plate_tag_counts[plate] += 1], the key being created at 0 when absent;
    a dictionary in insertion order. *)
Fixpoint count_plate (plate : Z) (plate_tag_counts : list (Z * Z)) : list (Z * Z) :=
  match plate_tag_counts with
  | [] => [(plate, 0 + 1)]
  | (p, count) :: rest =>
      if decide (p = plate) then (p, count + 1) :: rest
      else (p, count) :: count_plate plate rest
  end.

Definition plate_tag_counts (rows : list ResultRow) : list (Z * Z) :=
  foldl (λ counts result, count_plate (PLATE result) counts) [] rows.

Definition single_tag_plates (rows : list ResultRow) : list Z :=
  fst <$> filter (λ pc, pc.2 = 1) (plate_tag_counts rows).

(** What [solve_plate_optimization] returns: the best solution, or the
    dictionary [{"error": msg}]. *)
Inductive Response : Type :=
  | Solved (s : Solution)
  | ErrorObject (msg : string).

(** What [solve_plate_optimization] does besides returning: the call of the
    solver with the model, and which of the closing messages it prints.  The
    solver statistics printed in between are not modelled. *)
Inductive Output : Type :=
  | SolveWithSolutionCallback (model : CpModel)
  | WarnSingleTagPlates (plates : list Z)
  | NoSingleTagPlates
  | NoSolutionWasFound.

(** The state of the callback once the solver has invoked it on each
    assignment of [found], in order. *)
Definition run_callbacks (cb : PlateOptimizationCallback) (found : list Valuation)
  : PlateOptimizationCallback :=
  foldl on_solution_callback cb found.

(** [solver model] is the sequence of assignments with which the solver
    invokes the callback before it returns.  A dictionary with the two keys
    of a solution is truthy, so [if cb.best_solution] tests for [None]. *)
Definition solve_plate_optimization (solver : CpModel → list Valuation)
    (tags : list Tag) (ups_per_plate plate_count : Z)
    (seed_solution : list SeedEntry) : Result (list Output * Response) :=
  let enforce_min_tags := bool_decide (100 < length tags)%nat in
  model ← build_model tags ups_per_plate plate_count seed_solution;
  let cb :=
    run_callbacks (new_callback tags plate_count ups_per_plate) (solver model) in
  match best_solution cb with
  | Some best =>
      let validation :=
        if enforce_min_tags then
          match single_tag_plates (results best) with
          | [] => [NoSingleTagPlates]
          | plates => [WarnSingleTagPlates plates]
          end
        else [] in
      Ok (SolveWithSolutionCallback model :: validation, Solved best)
  | None =>
      Ok ([SolveWithSolutionCallback model; NoSolutionWasFound],
          ErrorObject "No solution found")
  end.

End Tracker.

Arguments totalSheets {Float} s.
Arguments totalProduced {Float} s.
Arguments totalExcess {Float} s.
Arguments wastePercentage {Float} s.
Arguments totalPlates {Float} s.
Arguments totalItems {Float} s.
Arguments upsCapacity {Float} s.
Arguments results {Float} s.
Arguments summary {Float} s.
Arguments best_solution {Float} p.
Arguments best_obj {Float} p.
Arguments cb_tags {Float} p.
Arguments cb_plate_count {Float} p.
Arguments cb_ups_per_plate {Float} p.
Arguments solution_count {Float} p.
Arguments new_callback {Float} tags plate_count ups_per_plate.
Arguments materialize {Float} float_zero round_waste v tags plate_count ups_per_plate.
Arguments on_solution_callback {Float} float_zero round_waste self v.
Arguments run_callbacks {Float} float_zero round_waste cb found.
Arguments Solved {Float} s.
Arguments ErrorObject {Float} msg.
Arguments solve_plate_optimization {Float} float_zero round_waste solver tags
  ups_per_plate plate_count seed_solution.

(** ** Reading an assignment *)

(** The tags whose indicator for plate [j] is true, by index. *)
Definition tags_on_plate (v : Valuation) (num_tags j : nat) : list nat :=
  filter (λ i, v (tag_on_plate i j) = 1) (seq 0 num_tags).

(** The sum of [ups] over the tags assigned to plate [j]. *)
Definition ups_on_plate (v : Valuation) (num_tags j : nat) : Z :=
  py_sum ((λ i, v (ups_vars i)) <$> tags_on_plate v num_tags j).

(** The plates marked used and those marked unused. *)
Definition used_plates (v : Valuation) (plate_count : Z) : list nat :=
  filter (λ j, v (plate_used j) = 1) (seq 0 (Z.to_nat plate_count)).

Definition unused_plates (v : Valuation) (plate_count : Z) : list nat :=
  filter (λ j, v (plate_used j) ≠ 1) (seq 0 (Z.to_nat plate_count)).

(** The sheets printed on a list of plates. *)
Definition sheets_on (v : Valuation) (plates : list nat) : Z :=
  py_sum ((λ j, v (plate_sheets j)) <$> plates).

(** How many entries of [rows] carry the plate label [plate]. *)
Definition rows_on_plate (plate : Z) (rows : list ResultRow) : nat :=
  length (filter (λ r, PLATE r = plate) rows).

(** A statement other than [Minimize]. *)
Definition adds_no_objective (s : Stmt) : Prop :=
  match s with Minimize _ => False | _ => True end.

(** ** Instances used to run the definitions

    The seeder and the tracker are parametric in the floating-point
    roundings.  These instances round in exact arithmetic, half to even. *)

Definition exact_round (n d : Z) : Z :=
  let q := n `div` d in
  let r := n `mod` d in
  match Z.compare (2 * Z.abs r) (Z.abs d) with
  | Lt => q
  | Gt => q + 1
  | Eq => if Z.even q then q else q + 1
  end.

(** [round((q / total) * u)] without floating-point error. *)
Definition exact_round_share (q total u : Z) : Z := exact_round (q * u) total.

(** [round((excess / produced) * 100, 2)] in hundredths of a percent. *)
Definition exact_round_waste (excess produced : Z) : Z :=
  exact_round (excess * 10000) produced.

(** A tag with the given quantity and no optional field. *)
Definition plain_tag (qty : Z) : Tag :=
  {| COLOR := "Black"; SIZE := "M"; QTY := qty; other_fields := [] |}.

(** Among the assignments the solver reported, in order, there is an
    improving one: one whose total of sheets is below that of every
    assignment reported before it. *)
Definition reported_improving (plate_count : Z) (found : list Valuation) : Prop :=
  ∃ before w after,
    found = before ++ w :: after
    ∧ ∀ w', w' ∈ before → sheets_total w plate_count < sheets_total w' plate_count.

(** Every integer of an instance and of a seed that the model construction
    hands to the solver's interface fits. *)
Definition instance_fits (tags : list Tag) (ups_per_plate plate_count : Z) : Prop :=
  fits_int64 (plate_count - 1) ∧ fits_int64 ups_per_plate
  ∧ Forall (λ tag, fits_int64 (QTY tag)) tags.

Definition seed_fits (seed_solution : list SeedEntry) : Prop :=
  Forall (λ e : SeedEntry, fits_int64 (Z.of_nat e.1.2) ∧ fits_int64 e.2) seed_solution.

(** A solver is sound when it only reports assignments that satisfy the
    model it was given. *)
Definition sound_solver (solver : CpModel → list Valuation) : Prop :=
  ∀ model w, w ∈ solver model → feasible w model.

(** ** Assignments given by their decisions

    The assignment in which tag [i] is on plate [plate_of i] with
    [ups_of i] ups and plate [j] prints [sheets_of j] sheets; every other
    variable takes the value these decisions determine, and
    [forbidden_combo] is false. *)
Definition assignment_of (num_tags : nat) (ups_per_plate : Z)
    (plate_of : nat → nat) (ups_of : nat → Z) (sheets_of : nat → Z) : Valuation :=
  let on i j := if decide (plate_of i = j) then 1 else 0 in
  let count j := py_sum ((λ i, on i j) <$> seq 0 num_tags) in
  let total j := py_sum ((λ i, ups_of i * on i j) <$> seq 0 num_tags) in
  λ x,
    match x with
    | tag_to_plate i => Z.of_nat (plate_of i)
    | ups_vars i => ups_of i
    | plate_sheets j => sheets_of j
    | plate_used j => if decide (count j = 0) then 0 else 1
    | tag_on_plate i j => on i j
    | product_var i j => sheets_of j * ups_of i
    | active_ups i j => ups_of i * on i j
    | total_ups_on_plate j => total j
    | tag_count j => count j
    | single_tag_indicator j => if decide (count j = 1) then 1 else 0
    | only_one_tag j => if decide (count j = 1) then 1 else 0
    | under_utilized j => if decide (total j = ups_per_plate) then 1 else 0
    | forbidden_combo j => 0
    end.

(** ** Example instances *)

(** Three tags of 100, 50 and 30 pieces on two plates of four ups. *)
Definition three_tags : list Tag := [plain_tag 100; plain_tag 50; plain_tag 30].

(** The first tag alone on plate A with all four ups, the other two on
    plate B with two ups each, 25 sheets per plate. *)
Definition split_assignment : Valuation :=
  assignment_of 3 4 (λ i, match i with O => O | _ => 1%nat end)
    (λ i, match i with O => 4 | _ => 2 end) (λ _, 25).

(** All three tags on plate A with 2, 1 and 1 ups and 50 sheets; plate B
    carries nothing and prints one sheet. *)
Definition one_plate_assignment : Valuation :=
  assignment_of 3 4 (λ _, O) (λ i, match i with O => 2 | _ => 1 end)
    (λ j, match j with O => 50 | _ => 1 end).



(** One tag of 1000 pieces and a hundred tags of one piece. *)
Definition skewed_tags : list Tag := plain_tag 1000 :: replicate 100 (plain_tag 1).

(** Three tags of 90, 5 and 5 pieces: for ten ups the rounded shares 9, 1 and
    1 sum to eleven. *)
Definition uneven_tags : list Tag := [plain_tag 90; plain_tag 5; plain_tag 5].

(** ** Reading a partition and a seed *)

(** The total quantity of a group of tags. *)
Definition group_load (group : list Tag) : Z := py_sum (QTY <$> group).

(** The seed entries that name plate [p]. *)
Definition seed_on_plate (p : nat) (seed : list SeedEntry) : list SeedEntry :=
  filter (λ e : SeedEntry, e.1.2 = p) seed.

(** ** The task *)

(** The request handed to the task: [data['tags']], [data['upsPerPlate']] and
    [data['plateCount']].  A request that lacks one of the keys is not
    modelled. *)
Record Request : Type := mkRequest {
  data_tags : list Tag;
  data_upsPerPlate : Z;
  data_plateCount : Z
}.

(** The calls of [self.update_state]: [state='PROGRESS'] with its status and
    [state='FAILURE'] with the exception whose text it records. *)
Inductive TaskState : Type :=
  | PROGRESS (status : string)
  | FAILURE (error : PyExn).

Section Task.

Variable round_share : Z → Z → Z → Z.
Variable Float : Type.
Variable float_zero : Float.
Variable round_waste : Z → Z → Float.

(** [run_plate_optimization]: the states it reports, and what it returns or
    raises again.  The log lines are not modelled. *)
Definition run_plate_optimization (fuel : nat) (solver : CpModel → list Valuation)
    (data : Request) : list TaskState * Result (list Output * Response Float) :=
  let tags := data_tags data in
  let ups_per_plate := data_upsPerPlate data in
  let plate_count := data_plateCount data in
  let initializing := [PROGRESS "Initializing..."] in
  match greedy_initialize round_share fuel tags ups_per_plate plate_count with
  | Ok seed =>
      let optimizing := initializing ++ [PROGRESS "Optimizing..."] in
      match solve_plate_optimization float_zero round_waste solver tags
              ups_per_plate plate_count seed with
      | Ok result => (optimizing, Ok result)
      | Raise e => (optimizing ++ [FAILURE e], Raise e)
      | OutOfFuel => (optimizing, OutOfFuel)
      end
  | Raise e => (initializing ++ [FAILURE e], Raise e)
  | OutOfFuel => (initializing, OutOfFuel)
  end.

End Task.

Arguments run_plate_optimization round_share {Float} float_zero round_waste
  fuel solver data.

(** * Facts about the model *)

(** ** What the model contains *)

Lemma build_model_Ok tags upp pc seed M :
  build_model tags upp pc seed = Ok M →
  ∃ hint_stmts,
    mapM (λ e, hint_entry (length tags) e.1 e.2) (imap (λ i e, (i, e)) seed)
      = Ok hint_stmts
    ∧ M = ((λ i, NewIntVar (tag_to_plate i) 0 (pc - 1)) <$> seq 0 (length tags))
      ++ ((λ i, NewIntVar (ups_vars i) 1 upp) <$> seq 0 (length tags))
      ++ ((λ j, NewIntVar (plate_sheets j) 1 10000) <$> seq 0 (Z.to_nat pc))
      ++ mjoin hint_stmts
      ++ ((λ j, NewBoolVar (plate_used j)) <$> seq 0 (Z.to_nat pc))
      ++ mjoin ((λ i, (λ j, NewBoolVar (tag_on_plate i j)) <$> seq 0 (Z.to_nat pc))
                  <$> seq 0 (length tags))
      ++ mjoin (link_plate tags <$> seq 0 (Z.to_nat pc))
      ++ mjoin (occupancy_plate (bool_decide (100 < length tags)%nat) (length tags) upp
                  <$> seq 0 (Z.to_nat pc))
      ++ [Minimize (plate_sheets <$> seq 0 (Z.to_nat pc))].
Proof.
  unfold build_model.
  destruct (mapM (λ _, int64_arg (pc - 1)) (seq 0 (length tags))) as [?| |]; simpl; try discriminate.
  destruct (mapM (λ _, int64_arg upp) (seq 0 (length tags))) as [?| |]; simpl;
    try discriminate.
  destruct (mapM (λ e, hint_entry _ _ _) _) as [hs| |]; simpl; try discriminate.
  destruct (mapM (λ _, mapM _ tags) (seq 0 (Z.to_nat pc))) as [?| |]; simpl; try discriminate.
  destruct (mapM (λ _, int64_arg upp) (seq 0 (Z.to_nat pc))) as [?| |]; simpl; try discriminate.
  intros [= <-]. by exists hs.
Qed.

Section ModelMembership.
Context (tags : list Tag) (upp pc : Z) (seed : list SeedEntry) (M : CpModel).
Hypothesis Hbuild : build_model tags upp pc seed = Ok M.

Lemma in_seq0 (i n : nat) : (i < n)%nat → i ∈ seq 0 n.
Proof. intros. apply elem_of_seq. lia. Qed.

Lemma link_plate_in_model j s :
  (j < Z.to_nat pc)%nat → s ∈ link_plate tags j → s ∈ M.
Proof.
  intros Hj Hs. destruct (build_model_Ok _ _ _ _ _ Hbuild) as (hs & _ & ->).
  rewrite !elem_of_app. do 6 right. left.
  apply list_elem_of_join. eexists; split; [done|].
  apply list_elem_of_fmap_2. by apply in_seq0.
Qed.

Lemma occupancy_plate_in_model j s :
  (j < Z.to_nat pc)%nat →
  s ∈ occupancy_plate (bool_decide (100 < length tags)%nat) (length tags) upp j →
  s ∈ M.
Proof.
  intros Hj Hs. destruct (build_model_Ok _ _ _ _ _ Hbuild) as (hs & _ & ->).
  rewrite !elem_of_app. do 7 right. left.
  apply list_elem_of_join. eexists; split; [done|].
  apply list_elem_of_fmap_2. by apply in_seq0.
Qed.

Lemma tag_to_plate_in_model i :
  (i < length tags)%nat → NewIntVar (tag_to_plate i) 0 (pc - 1) ∈ M.
Proof.
  intros Hi. destruct (build_model_Ok _ _ _ _ _ Hbuild) as (hs & _ & ->).
  rewrite !elem_of_app. left.
  apply (list_elem_of_fmap_2 (λ i, NewIntVar (tag_to_plate i) 0 (pc - 1))). by apply in_seq0.
Qed.

Lemma ups_vars_in_model i :
  (i < length tags)%nat → NewIntVar (ups_vars i) 1 upp ∈ M.
Proof.
  intros Hi. destruct (build_model_Ok _ _ _ _ _ Hbuild) as (hs & _ & ->).
  rewrite !elem_of_app. right; left.
  apply (list_elem_of_fmap_2 (λ i, NewIntVar (ups_vars i) 1 upp)). by apply in_seq0.
Qed.

Lemma plate_sheets_in_model j :
  (j < Z.to_nat pc)%nat → NewIntVar (plate_sheets j) 1 10000 ∈ M.
Proof.
  intros Hi. destruct (build_model_Ok _ _ _ _ _ Hbuild) as (hs & _ & ->).
  rewrite !elem_of_app. do 2 right; left.
  apply (list_elem_of_fmap_2 (λ j, NewIntVar (plate_sheets j) 1 10000)). by apply in_seq0.
Qed.

Lemma plate_used_in_model j :
  (j < Z.to_nat pc)%nat → NewBoolVar (plate_used j) ∈ M.
Proof.
  intros Hi. destruct (build_model_Ok _ _ _ _ _ Hbuild) as (hs & _ & ->).
  rewrite !elem_of_app. do 4 right; left.
  apply (list_elem_of_fmap_2 (λ j, NewBoolVar (plate_used j))). by apply in_seq0.
Qed.

Lemma tag_on_plate_in_model i j :
  (i < length tags)%nat → (j < Z.to_nat pc)%nat → NewBoolVar (tag_on_plate i j) ∈ M.
Proof.
  intros Hi Hj. destruct (build_model_Ok _ _ _ _ _ Hbuild) as (hs & _ & ->).
  rewrite !elem_of_app. do 5 right; left.
  apply list_elem_of_join. eexists; split; last first.
  { apply list_elem_of_fmap_2. by apply in_seq0. }
  simpl. apply (list_elem_of_fmap_2 (λ j, NewBoolVar (tag_on_plate i j))). by apply in_seq0.
Qed.

Lemma minimize_in_model : Minimize (plate_sheets <$> seq 0 (Z.to_nat pc)) ∈ M.
Proof.
  destruct (build_model_Ok _ _ _ _ _ Hbuild) as (hs & _ & ->).
  rewrite !elem_of_app. do 8 right. apply list_elem_of_singleton; done.
Qed.
End ModelMembership.

Lemma py_sum_cons x l : py_sum (x :: l) = x + py_sum l.
Proof. reflexivity. Qed.

Lemma py_sum_app l k : py_sum (l ++ k) = py_sum l + py_sum k.
Proof. unfold py_sum. induction l as [|x l IH]; simpl; lia. Qed.

Lemma py_sum_filter {A} (P : A → Prop) `{!∀ x, Decision (P x)} (f g : A → Z) l :
  (∀ x, x ∈ l → f x = if decide (P x) then g x else 0) →
  py_sum (f <$> l) = py_sum (g <$> filter P l).
Proof.
  induction l as [|x l IH]; intros Hf; [done|].
  rewrite fmap_cons, py_sum_cons, filter_cons, Hf by left.
  rewrite IH by (intros; apply Hf; by right).
  destruct (decide (P x)); [by rewrite fmap_cons, py_sum_cons | lia].
Qed.


Lemma filter_none {A} (P : A → Prop) `{!∀ x, Decision (P x)} l :
  (∀ x, x ∈ l → ¬ P x) → filter P l = [].
Proof.
  induction l as [|x l IH]; intros Hno; [done|].
  rewrite filter_cons_False by (apply Hno; left). apply IH. intros; apply Hno; by right.
Qed.

Section Feasible.
Context (tags : list Tag) (upp pc : Z) (seed : list SeedEntry) (M : CpModel)
        (v : Valuation).
Hypothesis Hbuild : build_model tags upp pc seed = Ok M.
Hypothesis Hfeas : feasible v M.

Lemma feasible_stmt s : s ∈ M → stmt_ok v s.
Proof. revert s. by apply Forall_forall. Qed.

Lemma link_tag_ok i j tag s :
  tags !! i = Some tag → (j < Z.to_nat pc)%nat → s ∈ link_tag j i tag → stmt_ok v s.
Proof.
  intros Hi Hj Hs. apply feasible_stmt, (link_plate_in_model _ _ _ _ _ Hbuild j); [done|].
  unfold link_plate. apply elem_of_app; left.
  apply list_elem_of_join. eexists; split; [exact Hs|].
  by apply elem_of_lookup_imap_2.
Qed.

Lemma tag_on_plate_bool i j :
  (i < length tags)%nat → (j < Z.to_nat pc)%nat →
  v (tag_on_plate i j) = 0 ∨ v (tag_on_plate i j) = 1.
Proof.
  intros Hi Hj.
  pose proof (feasible_stmt _ (tag_on_plate_in_model _ _ _ _ _ Hbuild i j Hi Hj)) as H.
  simpl in H. lia.
Qed.

Lemma plate_used_bool j :
  (j < Z.to_nat pc)%nat → v (plate_used j) = 0 ∨ v (plate_used j) = 1.
Proof.
  intros Hj.
  pose proof (feasible_stmt _ (plate_used_in_model _ _ _ _ _ Hbuild j Hj)) as H.
  simpl in H. lia.
Qed.

(** The indicator is true exactly when the tag's plate variable is [j]. *)
Lemma tag_on_plate_iff i j :
  (i < length tags)%nat → (j < Z.to_nat pc)%nat →
  v (tag_on_plate i j) = 1 ↔ v (tag_to_plate i) = Z.of_nat j.
Proof.
  intros Hi Hj. destruct (lookup_lt_is_Some_2 tags i Hi) as [tag Htag].
  pose proof (link_tag_ok i j tag _ Htag Hj
    ltac:(unfold link_tag; apply list_elem_of_here)) as H1.
  pose proof (link_tag_ok i j tag _ Htag Hj
    ltac:(unfold link_tag; apply list_elem_of_further, list_elem_of_here)) as H2.
  simpl in H1, H2. rewrite Forall_singleton in H1, H2. simpl in H1, H2.
  destruct (tag_on_plate_bool i j Hi Hj) as [H0|H0]; split; intros H; auto; try lia.
Qed.

Lemma capacity i j tag :
  tags !! i = Some tag → (j < Z.to_nat pc)%nat →
  v (tag_on_plate i j) = 1 → v (ups_vars i) * v (plate_sheets j) >= QTY tag.
Proof.
  intros Htag Hj Hon.
  pose proof (link_tag_ok i j tag _ Htag Hj
    ltac:(unfold link_tag; do 3 apply list_elem_of_further; apply list_elem_of_here)) as H1.
  pose proof (link_tag_ok i j tag _ Htag Hj
    ltac:(unfold link_tag; do 4 apply list_elem_of_further; apply list_elem_of_here)) as H2.
  simpl in H1, H2. rewrite Forall_singleton in H2. simpl in H2.
  specialize (H1 (Forall_nil_2 _)). specialize (H2 Hon). lia.
Qed.

Lemma plate_used_or j :
  (j < Z.to_nat pc)%nat → v (plate_used j) = 1 →
  ∃ i, (i < length tags)%nat ∧ v (tag_on_plate i j) = 1.
Proof.
  intros Hj Hused.
  assert (Add (BoolOr (Lit <$> imap (λ i _, tag_on_plate i j) tags)) [Lit (plate_used j)]
            ∈ link_plate tags j) as Hin.
  { unfold link_plate. apply elem_of_app; right. apply list_elem_of_here. }
  apply (link_plate_in_model _ _ _ _ _ Hbuild j _ Hj), feasible_stmt in Hin.
  simpl in Hin. rewrite Forall_singleton in Hin. specialize (Hin Hused).
  apply Exists_exists in Hin as (l & Hl & Htrue).
  apply list_elem_of_fmap in Hl as (x & -> & Hx).
  apply elem_of_lookup_imap in Hx as (i & tag & -> & Htag).
  exists i. split; [by eapply lookup_lt_Some | done].
Qed.

Lemma plate_unused_and j i :
  (j < Z.to_nat pc)%nat → v (plate_used j) = 0 → (i < length tags)%nat →
  v (tag_on_plate i j) = 0.
Proof.
  intros Hj Hused Hi.
  assert (Add (BoolAnd (Not <$> imap (λ i _, tag_on_plate i j) tags)) [Not (plate_used j)]
            ∈ link_plate tags j) as Hin.
  { unfold link_plate. apply elem_of_app; right.
    apply list_elem_of_further, list_elem_of_here. }
  apply (link_plate_in_model _ _ _ _ _ Hbuild j _ Hj), feasible_stmt in Hin.
  simpl in Hin. rewrite Forall_singleton in Hin. specialize (Hin Hused).
  rewrite Forall_forall in Hin.
  destruct (lookup_lt_is_Some_2 tags i Hi) as [tag Htag].
  apply (Hin (Not (tag_on_plate i j))).
  apply list_elem_of_fmap_2.
  by apply (elem_of_lookup_imap_2 (λ i _, tag_on_plate i j) tags tag i).
Qed.

Lemma occupancy_ok j s :
  (j < Z.to_nat pc)%nat →
  s ∈ occupancy_plate (bool_decide (100 < length tags)%nat) (length tags) upp j →
  stmt_ok v s.
Proof. intros Hj Hs. by eapply feasible_stmt, occupancy_plate_in_model. Qed.

Lemma active_ups_eq i j :
  (i < length tags)%nat → (j < Z.to_nat pc)%nat →
  v (active_ups i j) = if decide (v (tag_on_plate i j) = 1) then v (ups_vars i) else 0.
Proof.
  intros Hi Hj.
  assert (stmt_ok v (Add (MultiplicationEquality (active_ups i j)
                            [ups_vars i; tag_on_plate i j]) [])) as H.
  { apply (occupancy_ok j); [done|]. unfold occupancy_plate.
    apply elem_of_app; left. apply list_elem_of_join.
    exists (active_term upp j i). split.
    - unfold active_term. apply list_elem_of_further, list_elem_of_here.
    - apply list_elem_of_fmap_2. by apply in_seq0. }
  simpl in H. specialize (H (Forall_nil_2 _)).
  destruct (tag_on_plate_bool i j Hi Hj); case_decide; lia.
Qed.

Lemma total_ups_eq j :
  (j < Z.to_nat pc)%nat →
  v (total_ups_on_plate j) = ups_on_plate v (length tags) j.
Proof.
  intros Hj.
  assert (stmt_ok v (Add (Linear (LVar (total_ups_on_plate j)) REq
            (LSum ((λ i, active_ups i j) <$> seq 0 (length tags)))) [])) as H.
  { apply (occupancy_ok j); [done|]. unfold occupancy_plate.
    apply elem_of_app; right. apply elem_of_app; left.
    apply list_elem_of_further, list_elem_of_here. }
  simpl in H. specialize (H (Forall_nil_2 _)). rewrite H.
  rewrite <-list_fmap_compose. unfold ups_on_plate, tags_on_plate.
  apply py_sum_filter. intros i Hi%elem_of_seq. simpl. apply active_ups_eq; [lia|done].
Qed.

Lemma total_ups_used j :
  (j < Z.to_nat pc)%nat → v (plate_used j) = 1 → v (total_ups_on_plate j) = upp.
Proof.
  intros Hj Hused.
  assert (stmt_ok v (Add (Linear (LVar (total_ups_on_plate j)) REq (LConst upp))
                       [Lit (plate_used j)])) as H.
  { apply (occupancy_ok j); [done|]. unfold occupancy_plate.
    apply elem_of_app; right. apply elem_of_app; left.
    do 2 apply list_elem_of_further. apply list_elem_of_here. }
  simpl in H. rewrite Forall_singleton in H. by apply H.
Qed.

Lemma total_ups_unused j :
  (j < Z.to_nat pc)%nat → v (plate_used j) = 0 → v (total_ups_on_plate j) = 0.
Proof.
  intros Hj Hused.
  assert (stmt_ok v (Add (Linear (LVar (total_ups_on_plate j)) REq (LConst 0))
                       [Not (plate_used j)])) as H.
  { apply (occupancy_ok j); [done|]. unfold occupancy_plate.
    apply elem_of_app; right. apply elem_of_app; left.
    do 3 apply list_elem_of_further. apply list_elem_of_here. }
  simpl in H. rewrite Forall_singleton in H. by apply H.
Qed.




Lemma tags_on_plate_unused j :
  (j < Z.to_nat pc)%nat → v (plate_used j) = 0 →
  tags_on_plate v (length tags) j = [].
Proof.
  intros Hj Hused. unfold tags_on_plate.
  apply filter_none. intros i Hi%elem_of_seq.
  rewrite (plate_unused_and j i) by (done || lia). lia.
Qed.
End Feasible.

(** ** What the tracker materialises *)

Lemma filter_ext_elem {A} (P Q : A → Prop) `{!∀ x, Decision (P x)}
    `{!∀ x, Decision (Q x)} (l : list A) :
  (∀ x, x ∈ l → P x ↔ Q x) → filter P l = filter Q l.
Proof.
  induction l as [|x l IH]; intros Hpq; [done|].
  rewrite !filter_cons, IH by (intros; apply Hpq; by right).
  destruct (decide (P x)) as [HP|HP], (decide (Q x)) as [HQ|HQ]; try done;
    exfalso; apply (Hpq x) in HP || apply (Hpq x) in HQ; done || left.
Qed.


Lemma elem_of_plate_rows v tags j r :
  r ∈ plate_rows v tags j ↔
  ∃ i item, tags !! i = Some item ∧ v (tag_to_plate i) = Z.of_nat j
            ∧ r = result_row v j i item.
Proof.
  unfold plate_rows. rewrite list_elem_of_join. split.
  - intros (l & Hr & Hl). apply elem_of_lookup_imap in Hl as (i & item & -> & Hi).
    case_decide; [|by apply not_elem_of_nil in Hr].
    apply list_elem_of_singleton in Hr. by exists i, item.
  - intros (i & item & Hi & Hj & ->). eexists. split; last first.
    { by apply (elem_of_lookup_imap_2 _ tags item i). }
    simpl. rewrite decide_True by done. apply list_elem_of_here.
Qed.


Lemma rows_on_plate_app p l k :
  rows_on_plate p (l ++ k) = (rows_on_plate p l + rows_on_plate p k)%nat.
Proof. unfold rows_on_plate. by rewrite filter_app, length_app. Qed.




(** ** The validator's dictionary *)

Lemma count_plate_keys p cs q :
  q ∈ (count_plate p cs).*1 ↔ q = p ∨ q ∈ cs.*1.
Proof.
  induction cs as [|[p' c'] cs IH]; simpl.
  - rewrite list_elem_of_singleton. split; [auto|].
    intros [?|[]%not_elem_of_nil]; done.
  - case_decide as Hp; simpl; rewrite !elem_of_cons; [subst|rewrite IH]; tauto.
Qed.

Lemma count_plate_NoDup p cs : NoDup cs.*1 → NoDup (count_plate p cs).*1.
Proof.
  induction cs as [|[p' c'] cs IH]; simpl; intros Hnd.
  - apply NoDup_singleton.
  - apply NoDup_cons in Hnd as [Hp' Hnd]. case_decide; simpl.
    + by apply NoDup_cons.
    + apply NoDup_cons. split; [|by apply IH].
      rewrite count_plate_keys. intros [?|?]; done.
Qed.

Lemma count_plate_entry p cs q c :
  NoDup cs.*1 → (q, c) ∈ count_plate p cs →
  (q ≠ p ∧ (q, c) ∈ cs)
  ∨ (q = p ∧ ((p, c - 1) ∈ cs ∨ ((p ∉ cs.*1) ∧ c = 1))).
Proof.
  induction cs as [|[p' c'] cs IH]; simpl; intros Hnd Hin.
  - apply list_elem_of_singleton in Hin as [= -> ->]. right. split; [done|].
    right. split; [apply not_elem_of_nil|done].
  - apply NoDup_cons in Hnd as [Hp' Hnd]. case_decide as Hp; subst.
    + apply elem_of_cons in Hin as [[= -> ->]|Hin].
      * right. split; [done|]. left. replace (c' + 1 - 1) with c' by lia. left.
      * left. split; [|by right]. intros ->. apply Hp'.
        by apply (list_elem_of_fmap_2 fst) in Hin.
    + apply elem_of_cons in Hin as [[= -> ->]|Hin].
      * left. split; [done|left].
      * destruct (IH Hnd Hin) as [[? ?]|[-> [?|[? ->]]]].
        -- left. split; [done|by right].
        -- right. split; [done|]. left. by right.
        -- right. split; [done|]. right. split; [|done].
           simpl. rewrite elem_of_cons. intros [?|?]; done.
Qed.

(** Every entry of the dictionary holds the number of rows on its plate. *)
Lemma plate_tag_counts_spec rows :
  NoDup (plate_tag_counts rows).*1
  ∧ (∀ q c, (q, c) ∈ plate_tag_counts rows → c = Z.of_nat (rows_on_plate q rows))
  ∧ (∀ q, q ∉ (plate_tag_counts rows).*1 → rows_on_plate q rows = 0%nat).
Proof.
  unfold plate_tag_counts.
  induction rows as [|r rows (Hnd & Hcount & Hnone)] using rev_ind.
  { split; [constructor|]. split; [|done]. intros q c []%not_elem_of_nil. }
  rewrite foldl_snoc. set (cs := foldl _ _ rows) in *.
  assert (∀ q, rows_on_plate q (rows ++ [r])
               = (rows_on_plate q rows + if decide (PLATE r = q) then 1 else 0)%nat)
    as Hsnoc.
  { intros q. rewrite rows_on_plate_app. f_equal. unfold rows_on_plate.
    rewrite filter_cons, filter_nil. by case_decide. }
  split; [by apply count_plate_NoDup|]. split.
  - intros q c Hin. rewrite Hsnoc.
    destruct (count_plate_entry _ _ _ _ Hnd Hin) as [[Hne Hq]|[-> [Hq|[Hq ->]]]].
    + case_decide; [congruence|]. rewrite (Hcount _ _ Hq). lia.
    + case_decide; [|done]. apply Hcount in Hq. lia.
    + case_decide; [|done]. by rewrite (Hnone _ Hq).
  - intros q Hq. rewrite count_plate_keys in Hq. rewrite Hsnoc.
    case_decide as Hp; [exfalso; apply Hq; by left|].
    rewrite Hnone; [done|]. intros ?; apply Hq; by right.
Qed.


Lemma check_feasible v model : bool_decide (feasible v model) = true → feasible v model.
Proof. apply bool_decide_eq_true_1. Qed.

Lemma py_sum_split {A} (P : A → Prop) `{!∀ x, Decision (P x)} (f : A → Z) (l : list A) :
  py_sum (f <$> l) = py_sum (f <$> filter P l) + py_sum (f <$> filter (λ x, ¬ P x) l).
Proof.
  induction l as [|x l IH]; [done|].
  rewrite !filter_cons, fmap_cons, py_sum_cons, IH.
  destruct (decide (P x)), (decide (¬ P x)); try done;
    rewrite fmap_cons, py_sum_cons; lia.
Qed.

Lemma py_sum_lower {A} (f : A → Z) (l : list A) :
  (∀ x, x ∈ l → 1 <= f x) → Z.of_nat (length l) <= py_sum (f <$> l).
Proof.
  induction l as [|x l IH]; intros Hf; [done|].
  rewrite fmap_cons, py_sum_cons. simpl length.
  specialize (Hf x (list_elem_of_here _ _)) as Hx.
  specialize (IH (λ y Hy, Hf y (list_elem_of_further _ _ _ Hy))). lia.
Qed.

Lemma py_sum_zero {A} (f : A → Z) (l : list A) :
  (∀ x, x ∈ l → f x = 0) → py_sum (f <$> l) = 0.
Proof.
  induction l as [|x l IH]; intros Hf; [done|].
  rewrite fmap_cons, py_sum_cons, Hf by left. rewrite IH; [done|].
  intros; apply Hf; by right.
Qed.

(** ** The rows on a plate *)

Section MaterializedRows.
Context {Float : Type} (float_zero : Float) (round_waste : Z → Z → Float).

Lemma results_materialize v tags pc upp :
  results (materialize float_zero round_waste v tags pc upp)
  = mjoin (plate_rows v tags <$> seq 0 (Z.to_nat pc)).
Proof. reflexivity. Qed.


End MaterializedRows.

(** ** The objective *)

Lemma objective_value_app v l k :
  objective_value v (l ++ k) = objective_value v l + objective_value v k.
Proof. unfold objective_value. by rewrite fmap_app, py_sum_app. Qed.

Lemma objective_value_none v l :
  Forall adds_no_objective l → objective_value v l = 0.
Proof.
  intros Hl. unfold objective_value. apply py_sum_zero.
  intros s Hs. rewrite Forall_forall in Hl. specialize (Hl s Hs). by destruct s.
Qed.

Lemma mapM_Ok_Forall2 {A B} (f : A → Result B) l k :
  mapM f l = Ok k → Forall2 (λ x y, f x = Ok y) l k.
Proof.
  revert k. induction l as [|x l IH]; simpl; intros k Hk.
  - injection Hk as <-. constructor.
  - destruct (f x) as [y| |] eqn:Hx; simpl in Hk; try discriminate.
    destruct (mapM f l) as [k'| |]; simpl in Hk; try discriminate.
    injection Hk as <-. constructor; auto.
Qed.

Lemma mapM_Ok_total {A B} (f : A → Result B) l :
  (∀ x, x ∈ l → ∃ y, f x = Ok y) → ∃ k, mapM f l = Ok k.
Proof.
  induction l as [|x l IH]; intros Hf; simpl.
  - by eexists.
  - destruct (Hf x) as [y Hy]; [left|]. rewrite Hy. simpl.
    destruct IH as [k Hk]; [intros; apply Hf; by right|]. rewrite Hk. by eexists.
Qed.

Lemma Forall_fmap_intro {A B} (P : B → Prop) (f : A → B) (l : list A) :
  (∀ x, P (f x)) → Forall P (f <$> l).
Proof. intros Hf. apply Forall_fmap, Forall_forall. intros; apply Hf. Qed.

Lemma Forall_join_intro {A} (P : A → Prop) (ls : list (list A)) :
  (∀ l, l ∈ ls → Forall P l) → Forall P (mjoin ls).
Proof. intros Hls. apply Forall_join, Forall_forall. done. Qed.

Lemma link_plate_no_objective tags j : Forall adds_no_objective (link_plate tags j).
Proof.
  unfold link_plate. apply Forall_app. split; [|by repeat constructor].
  apply Forall_join_intro. intros l (i & tag & -> & _)%elem_of_lookup_imap.
  by repeat constructor.
Qed.

Lemma occupancy_plate_no_objective b n upp j :
  Forall adds_no_objective (occupancy_plate b n upp j).
Proof.
  unfold occupancy_plate. rewrite !Forall_app. split; [|split].
  - apply Forall_join_intro. intros l (i & -> & _)%list_elem_of_fmap.
    by repeat constructor.
  - by repeat constructor.
  - unfold min_occupancy. destruct b; by repeat constructor.
Qed.

Lemma int64_arg_Ok x y : int64_arg x = Ok y → fits_int64 x ∧ y = x.
Proof. unfold int64_arg. case_decide; [|discriminate]. by intros [= <-]. Qed.

Lemma int64_arg_fits x : fits_int64 x → int64_arg x = Ok x.
Proof. intros. unfold int64_arg. by rewrite decide_True. Qed.

Lemma int64_arg_Raise x e : int64_arg x = Raise e → e = TypeError ∧ ¬ fits_int64 x.
Proof. unfold int64_arg. case_decide; [discriminate|]. by intros [= <-]. Qed.

Lemma int64_arg_OutOfFuel x : int64_arg x ≠ OutOfFuel.
Proof. unfold int64_arg. by case_decide. Qed.

Lemma hint_entry_Ok n i (e : SeedEntry) l :
  hint_entry n i e = Ok l →
  (i < n)%nat ∧ fits_int64 (Z.of_nat e.1.2) ∧ fits_int64 e.2
  ∧ l = [AddHint (tag_to_plate i) (Z.of_nat e.1.2); AddHint (ups_vars i) e.2].
Proof.
  destruct e as [[tag p] u]. unfold hint_entry. simpl.
  case_decide; [|discriminate].
  destruct (int64_arg (Z.of_nat p)) as [p'| |] eqn:Hp; simpl; try discriminate.
  destruct (int64_arg u) as [u'| |] eqn:Hu; simpl; try discriminate.
  apply int64_arg_Ok in Hp as [? ->]. apply int64_arg_Ok in Hu as [? ->].
  by intros [= <-].
Qed.

Lemma hint_entry_fits n i (e : SeedEntry) :
  (i < n)%nat → fits_int64 (Z.of_nat e.1.2) → fits_int64 e.2 →
  hint_entry n i e
  = Ok [AddHint (tag_to_plate i) (Z.of_nat e.1.2); AddHint (ups_vars i) e.2].
Proof.
  destruct e as [[tag p] u]. unfold hint_entry. simpl. intros Hi Hp Hu.
  by rewrite decide_True, !int64_arg_fits by done.
Qed.

Lemma hint_entry_Raise n i (e : SeedEntry) x :
  hint_entry n i e = Raise x →
  (x = IndexError ∧ (n ≤ i)%nat)
  ∨ (x = TypeError ∧ ¬ (fits_int64 (Z.of_nat e.1.2) ∧ fits_int64 e.2)).
Proof.
  destruct e as [[tag p] u]. unfold hint_entry. simpl.
  case_decide; [|intros [= <-]; left; split; [done|lia]].
  destruct (int64_arg (Z.of_nat p)) as [p'| |] eqn:Hp; simpl.
  - destruct (int64_arg u) as [u'| |] eqn:Hu; simpl; try discriminate.
    intros [= <-]. apply int64_arg_Raise in Hu as [-> ?]. right. tauto.
  - intros [= <-]. apply int64_arg_Raise in Hp as [-> ?]. right. tauto.
  - by apply int64_arg_OutOfFuel in Hp.
Qed.

Lemma hint_entry_OutOfFuel n i (e : SeedEntry) : hint_entry n i e ≠ OutOfFuel.
Proof.
  destruct e as [[tag p] u]. unfold hint_entry. simpl. case_decide; [|done].
  destruct (int64_arg (Z.of_nat p)) as [p'| |] eqn:Hp; simpl; [|done|].
  - destruct (int64_arg u) as [u'| |] eqn:Hu; simpl; [done..|].
    by apply int64_arg_OutOfFuel in Hu.
  - by apply int64_arg_OutOfFuel in Hp.
Qed.

Lemma hints_no_objective n seed hs :
  mapM (λ e, hint_entry n e.1 e.2) (imap (λ i e, (i, e)) seed) = Ok hs →
  Forall adds_no_objective (mjoin hs).
Proof.
  intros Hhs%mapM_Ok_Forall2. apply Forall_join_intro. intros l Hl.
  apply list_elem_of_lookup in Hl as [k Hk].
  destruct (Forall2_lookup_r _ _ _ _ _ Hhs Hk) as ([i e] & _ & Hentry).
  apply hint_entry_Ok in Hentry as (_ & _ & _ & ->). by repeat constructor.
Qed.

Ltac no_objective :=
  first
    [ by apply Forall_fmap_intro
    | apply Forall_join_intro; intros ? (? & -> & _)%list_elem_of_fmap;
      first [ apply occupancy_plate_no_objective
            | apply link_plate_no_objective
            | by apply Forall_fmap_intro ] ].

Lemma build_model_objective tags upp pc seed M v :
  build_model tags upp pc seed = Ok M →
  objective_value v M = sheets_total v pc.
Proof.
  intros (hs & Hhs%hints_no_objective & ->)%build_model_Ok.
  rewrite !objective_value_app.
  rewrite (objective_value_none v (mjoin hs)) by done.
  repeat (rewrite objective_value_none by no_objective).
  unfold objective_value, sheets_total. simpl.
  rewrite <-list_fmap_compose. unfold py_sum at 1. simpl.
  change (foldr Z.add 0 ?l) with (py_sum l). unfold compose. lia.
Qed.

(** * Facts about the tracker and the result *)

(** ** When the construction of the model raises *)

Lemma mapM_Raise {A B} (f : A → Result B) l e :
  mapM f l = Raise e → ∃ x, x ∈ l ∧ f x = Raise e.
Proof.
  induction l as [|x l IH]; simpl; [discriminate|].
  destruct (f x) as [y| |] eqn:Hx; simpl.
  - destruct (mapM f l) as [k| |]; simpl; try discriminate.
    intros [= <-]. destruct IH as (x' & ? & ?); [done|]. exists x'. split; [by right|done].
  - intros [= <-]. exists x. split; [left|done].
  - discriminate.
Qed.

Lemma mapM_OutOfFuel {A B} (f : A → Result B) l :
  mapM f l = OutOfFuel → ∃ x, x ∈ l ∧ f x = OutOfFuel.
Proof.
  induction l as [|x l IH]; simpl; [discriminate|].
  destruct (f x) as [y| |] eqn:Hx; simpl.
  - destruct (mapM f l) as [k| |]; simpl; try discriminate.
    intros _. destruct IH as (x' & ? & ?); [done|]. exists x'. split; [by right|done].
  - discriminate.
  - intros _. exists x. split; [left|done].
Qed.

Lemma mapM_int64_fits {A} (f : A → Z) (l : list A) :
  Forall (λ x, fits_int64 (f x)) l → ∃ k, mapM (λ x, int64_arg (f x)) l = Ok k.
Proof.
  intros Hl. apply mapM_Ok_total. intros x Hx. rewrite Forall_forall in Hl.
  exists (f x). by apply int64_arg_fits, Hl.
Qed.

Lemma mapM_int64_Ok {A} (f : A → Z) (l : list A) k :
  mapM (λ x, int64_arg (f x)) l = Ok k → Forall (λ x, fits_int64 (f x)) l.
Proof.
  intros Hk%mapM_Ok_Forall2. apply Forall_forall. intros x Hx.
  apply list_elem_of_lookup in Hx as [i Hi].
  destruct (Forall2_lookup_l _ _ _ _ _ Hk Hi) as (y & _ & Hy).
  by apply int64_arg_Ok in Hy as [? _].
Qed.

(** The quantities are handed over once per plate. *)
Lemma quantities_fit (tags : list Tag) (plates : list nat) :
  Forall (λ tag, fits_int64 (QTY tag)) tags →
  ∃ k, mapM (λ _, mapM (λ tag, int64_arg (QTY tag)) tags) plates = Ok k.
Proof.
  intros Hq. destruct (mapM_int64_fits QTY tags Hq) as [k Hk].
  apply mapM_Ok_total. intros j _. by exists k.
Qed.

Lemma hints_fit n (seed : list SeedEntry) :
  (length seed ≤ n)%nat → seed_fits seed →
  ∃ hs, mapM (λ e, hint_entry n e.1 e.2) (imap (λ i e, (i, e)) seed) = Ok hs.
Proof.
  intros Hlen Hfits. apply mapM_Ok_total.
  intros [i e] (k & e' & [= -> ->] & Hk)%elem_of_lookup_imap. simpl.
  unfold seed_fits in Hfits. rewrite Forall_forall in Hfits.
  destruct (Hfits e') as [? ?]; [by eapply list_elem_of_lookup_2|].
  eexists. apply hint_entry_fits; [|done..].
  apply lookup_lt_Some in Hk. lia.
Qed.

(** The model is built when the seed is no longer than the tag list and
    every integer handed to the solver fits. *)
Lemma build_model_succeeds tags upp pc seed :
  (length seed ≤ length tags)%nat → instance_fits tags upp pc → seed_fits seed →
  ∃ M, build_model tags upp pc seed = Ok M.
Proof.
  intros Hlen (Hpc & Hupp & Hq) Hseed. unfold build_model.
  destruct (mapM_int64_fits (λ _ : nat, pc - 1) (seq 0 (length tags))) as [? ->].
  { by apply Forall_forall. }
  simpl.
  destruct (mapM_int64_fits (λ _ : nat, upp) (seq 0 (length tags))) as [? ->].
  { by apply Forall_forall. }
  simpl. destruct (hints_fit (length tags) seed Hlen Hseed) as [hs ->]. simpl.
  destruct (quantities_fit tags (seq 0 (Z.to_nat pc)) Hq) as [? ->]. simpl.
  destruct (mapM_int64_fits (λ _ : nat, upp) (seq 0 (Z.to_nat pc))) as [? ->].
  { by apply Forall_forall. }
  simpl. by eexists.
Qed.

(** What a built model tells about the instance and the seed. *)
Lemma build_model_Ok_fits tags upp pc seed M :
  build_model tags upp pc seed = Ok M →
  (length seed ≤ length tags)%nat ∧ seed_fits seed
  ∧ (tags ≠ [] → fits_int64 (pc - 1) ∧ fits_int64 upp)
  ∧ (1 <= pc → fits_int64 upp ∧ Forall (λ tag, fits_int64 (QTY tag)) tags).
Proof.
  unfold build_model.
  destruct (mapM (λ _, int64_arg (pc - 1)) (seq 0 (length tags))) as [?| |] eqn:H1; simpl; try discriminate.
  destruct (mapM (λ _, int64_arg upp) (seq 0 (length tags))) as [?| |] eqn:H2; simpl;
    try discriminate.
  destruct (mapM (λ e, hint_entry _ _ _) _) as [hs| |] eqn:H3; simpl; try discriminate.
  destruct (mapM (λ _, mapM _ tags) (seq 0 (Z.to_nat pc))) as [?| |] eqn:H4; simpl; try discriminate.
  destruct (mapM (λ _, int64_arg upp) (seq 0 (Z.to_nat pc))) as [?| |] eqn:H5; simpl; try discriminate.
  intros _.
  apply (mapM_int64_Ok (λ _ : nat, pc - 1)) in H1.
  apply (mapM_int64_Ok (λ _ : nat, upp)) in H2.
  apply (mapM_int64_Ok (λ _ : nat, upp)) in H5.
  apply mapM_Ok_Forall2 in H3. apply mapM_Ok_Forall2 in H4.
  rewrite Forall_forall in H1, H2, H5.
  assert (∀ i e, seed !! i = Some e →
                 (i < length tags)%nat ∧ fits_int64 (Z.of_nat e.1.2) ∧ fits_int64 e.2)
    as Hentries.
  { intros i e Hi.
    assert (imap (λ i e, (i, e)) seed !! i = Some (i, e)) as Hie
      by (apply list_lookup_imap_Some; eauto).
    destruct (Forall2_lookup_l _ _ _ _ _ H3 Hie) as (l & _ & Hl).
    simpl in Hl. apply hint_entry_Ok in Hl. tauto. }
  split; [|split; [|split]].
  - destruct (decide (length seed ≤ length tags)%nat) as [|Hgt]; [done|].
    destruct (lookup_lt_is_Some_2 seed (length tags) ltac:(lia)) as [e He].
    apply Hentries in He. lia.
  - apply Forall_forall. intros e [i Hi]%list_elem_of_lookup.
    apply Hentries in Hi. tauto.
  - intros Hne. assert (0%nat ∈ seq 0 (length tags)).
    { apply elem_of_seq. destruct tags; [done|simpl; lia]. }
    split; [by apply (H1 0%nat)|by apply (H2 0%nat)].
  - intros Hpc. assert (0%nat ∈ seq 0 (Z.to_nat pc)) as H0 by (apply elem_of_seq; lia).
    split; [by apply (H5 0%nat)|].
    apply list_elem_of_lookup in H0 as [i Hi].
    destruct (Forall2_lookup_l _ _ _ _ _ H4 Hi) as (k & _ & Hk).
    by apply (mapM_int64_Ok QTY) in Hk.
Qed.

(** The construction raises [IndexError] only for a seed longer than the tag
    list, and otherwise only for an integer that does not fit. *)
Lemma build_model_Raise tags upp pc seed e :
  build_model tags upp pc seed = Raise e →
  (e = IndexError ∧ (length tags < length seed)%nat)
  ∨ (e = TypeError ∧ ¬ (instance_fits tags upp pc ∧ seed_fits seed)).
Proof.
  unfold build_model, instance_fits, seed_fits.
  destruct (mapM (λ _, int64_arg (pc - 1)) (seq 0 (length tags))) as [?| |] eqn:H1; simpl.
  2:{ intros [= <-]. apply mapM_Raise in H1 as (x & _ & [-> ?]%int64_arg_Raise).
      right. tauto. }
  2:{ discriminate. }
  destruct (mapM (λ _, int64_arg upp) (seq 0 (length tags))) as [?| |] eqn:H2; simpl.
  2:{ intros [= <-]. apply mapM_Raise in H2 as (x & _ & [-> ?]%int64_arg_Raise).
      right. tauto. }
  2:{ discriminate. }
  destruct (mapM (λ e, hint_entry _ _ _) _) as [hs| |] eqn:H3; simpl.
  2:{ intros [= <-]. apply mapM_Raise in H3 as ([i x] & Hx & Hraise).
      apply elem_of_lookup_imap in Hx as (k & x' & [= -> ->] & Hk). simpl in Hraise.
      apply hint_entry_Raise in Hraise as [[-> Hi]|[-> Hx]].
      - left. split; [done|]. apply lookup_lt_Some in Hk. lia.
      - right. split; [done|]. intros (_ & Hseed). apply Hx.
        rewrite Forall_forall in Hseed. apply Hseed. by eapply list_elem_of_lookup_2. }
  2:{ discriminate. }
  destruct (mapM (λ _, mapM _ tags) (seq 0 (Z.to_nat pc))) as [?| |] eqn:H4; simpl.
  2:{ intros [= <-]. apply mapM_Raise in H4 as (j & _ & Hraise).
      apply mapM_Raise in Hraise as (tag & Htag & [-> ?]%int64_arg_Raise).
      right. split; [done|]. intros ((_ & _ & Hq) & _).
      rewrite Forall_forall in Hq. by apply Hq in Htag. }
  2:{ discriminate. }
  destruct (mapM (λ _, int64_arg upp) (seq 0 (Z.to_nat pc))) as [?| |] eqn:H5; simpl.
  2:{ intros [= <-]. apply mapM_Raise in H5 as (x & _ & [-> ?]%int64_arg_Raise).
      right. tauto. }
  2:{ discriminate. }
  discriminate.
Qed.

Lemma build_model_OutOfFuel tags upp pc seed :
  build_model tags upp pc seed ≠ OutOfFuel.
Proof.
  unfold build_model.
  destruct (mapM (λ _, int64_arg (pc - 1)) (seq 0 (length tags))) as [?| |] eqn:H1; simpl; [|done|].
  2:{ apply mapM_OutOfFuel in H1 as (x & _ & Hx). by apply int64_arg_OutOfFuel in Hx. }
  destruct (mapM (λ _, int64_arg upp) (seq 0 (length tags))) as [?| |] eqn:H2; simpl;
    [|done|].
  2:{ apply mapM_OutOfFuel in H2 as (x & _ & Hx). by apply int64_arg_OutOfFuel in Hx. }
  destruct (mapM (λ e, hint_entry _ _ _) _) as [hs| |] eqn:H3; simpl; [|done|].
  2:{ apply mapM_OutOfFuel in H3 as (x & _ & Hx). by apply hint_entry_OutOfFuel in Hx. }
  destruct (mapM (λ _, mapM _ tags) (seq 0 (Z.to_nat pc))) as [?| |] eqn:H4; simpl; [|done|].
  2:{ apply mapM_OutOfFuel in H4 as (j & _ & Hx).
      apply mapM_OutOfFuel in Hx as (x & _ & Hx). by apply int64_arg_OutOfFuel in Hx. }
  destruct (mapM (λ _, int64_arg upp) (seq 0 (Z.to_nat pc))) as [?| |] eqn:H5; simpl; [done|done|].
  apply mapM_OutOfFuel in H5 as (x & _ & Hx). by apply int64_arg_OutOfFuel in Hx.
Qed.

(** A seed longer than the tag list makes the hint loop raise, when the
    integers handed over before fit. *)
Lemma build_model_IndexError tags upp pc seed :
  (length tags < length seed)%nat → instance_fits tags upp pc → seed_fits seed →
  build_model tags upp pc seed = Raise IndexError.
Proof.
  intros Hlen Hfits Hseed.
  destruct (build_model tags upp pc seed) as [M|e|] eqn:HM.
  - apply build_model_Ok_fits in HM. lia.
  - apply build_model_Raise in HM as [[-> _]|[_ Hno]]; [done|]. tauto.
  - by apply build_model_OutOfFuel in HM.
Qed.

Section TrackerRuns.
Context {Float : Type} (float_zero : Float) (round_waste : Z → Z → Float).

Lemma run_callbacks_snoc (cb : PlateOptimizationCallback Float) found w :
  run_callbacks float_zero round_waste cb (found ++ [w])
  = on_solution_callback float_zero round_waste
      (run_callbacks float_zero round_waste cb found) w.
Proof. unfold run_callbacks. apply foldl_snoc. Qed.

(** After any sequence of invocations the tracker holds either nothing, and
    then it was never invoked, or the materialisation of a reported
    assignment of least total sheets. *)
Lemma run_callbacks_spec tags pc upp found :
  let cb := run_callbacks float_zero round_waste (new_callback tags pc upp) found in
  cb_tags cb = tags ∧ cb_plate_count cb = pc ∧ cb_ups_per_plate cb = upp
  ∧ solution_count cb = length found
  ∧ ((found = [] ∧ best_solution cb = None ∧ best_obj cb = inf)
     ∨ ∃ w, w ∈ found
            ∧ best_solution cb = Some (materialize float_zero round_waste w tags pc upp)
            ∧ best_obj cb = finite (sheets_total w pc)
            ∧ ∀ w', w' ∈ found → sheets_total w pc <= sheets_total w' pc).
Proof.
  induction found as [|w found IH] using rev_ind; simpl.
  { repeat split; auto. }
  rewrite run_callbacks_snoc.
  destruct IH as (Htags & Hpc & Hupp & Hcount & Hbest).
  set (cb := run_callbacks _ _ _ found) in *.
  unfold on_solution_callback. rewrite Htags, Hpc, Hupp.
  case_decide as Himp; simpl; rewrite Hcount, length_app; simpl;
    (repeat split; [done..|lia|]); right.
  - exists w. split; [apply elem_of_app; right; left|]. split; [done|]. split; [done|].
    intros w' [Hw'|Hw']%elem_of_app.
    + destruct Hbest as [(-> & _)|(b & Hb & _ & Hobj & Hmin)].
      { by apply not_elem_of_nil in Hw'. }
      rewrite Hobj in Himp. simpl in Himp. specialize (Hmin w' Hw'). lia.
    + apply list_elem_of_singleton in Hw' as ->. lia.
  - destruct Hbest as [(-> & _ & Hinf)|(b & Hb & Hsol & Hobj & Hmin)].
    { rewrite Hinf in Himp. by destruct Himp. }
    exists b. split; [apply elem_of_app; by left|]. split; [done|]. split; [done|].
    intros w' [Hw'|Hw']%elem_of_app; [by apply Hmin|].
    apply list_elem_of_singleton in Hw' as ->.
    rewrite Hobj in Himp. simpl in Himp. lia.
Qed.

End TrackerRuns.

(** The first report improves on nothing, so some report is improving as
    soon as there is one. *)
Lemma reported_improving_iff pc found : reported_improving pc found ↔ found ≠ [].
Proof.
  split.
  - intros (before & w & after & -> & _). by destruct before.
  - destruct found as [|w found]; [done|]. intros _.
    exists [], w, found. split; [done|]. intros w' []%not_elem_of_nil.
Qed.

(** ** The tracker keeps the first assignment of least total sheets *)

Section TrackerFirst.
Context {Float : Type} (float_zero : Float) (round_waste : Z → Z → Float).

Lemma run_callbacks_first tags pc upp found :
  found ≠ [] →
  ∃ before w after,
    found = before ++ w :: after
    ∧ best_solution (run_callbacks float_zero round_waste (new_callback tags pc upp) found)
      = Some (materialize float_zero round_waste w tags pc upp)
    ∧ best_obj (run_callbacks float_zero round_waste (new_callback tags pc upp) found)
      = finite (sheets_total w pc)
    ∧ (∀ w', w' ∈ before → sheets_total w pc < sheets_total w' pc)
    ∧ (∀ w', w' ∈ after → sheets_total w pc <= sheets_total w' pc).
Proof.
  induction found as [|x found IH] using rev_ind; [done|]. intros _.
  rewrite run_callbacks_snoc.
  pose proof (run_callbacks_spec float_zero round_waste tags pc upp found)
    as (Htags & Hpc & Hupp & _ & Hbest). simpl in Hbest.
  set (cb := run_callbacks _ _ _ found) in *.
  unfold on_solution_callback. rewrite Htags, Hpc, Hupp.
  case_decide as Himp; simpl.
  - exists found, x, []. split; [done|]. split; [done|]. split; [done|]. split.
    + intros w' Hw'. destruct Hbest as [(-> & _)|(b & Hb & _ & Hobj & Hmin)].
      { by apply not_elem_of_nil in Hw'. }
      rewrite Hobj in Himp. simpl in Himp. specialize (Hmin w' Hw'). lia.
    + intros w' []%not_elem_of_nil.
  - destruct found as [|y found'] eqn:Hfound.
    { destruct Hbest as [(_ & _ & Hinf)|(b & []%not_elem_of_nil & _)].
      rewrite Hinf in Himp. by destruct Himp. }
    rewrite <-Hfound in *.
    destruct IH as (before & w & after & Heq & Hsol & Hobj & Hlt & Hle).
    { by rewrite Hfound. }
    exists before, w, (after ++ [x]). split; [by rewrite Heq, <-app_assoc|].
    split; [done|]. split; [done|]. split; [done|].
    intros w' [Hw'|Hw']%elem_of_app; [by apply Hle|].
    apply list_elem_of_singleton in Hw' as ->.
    rewrite Hobj in Himp. simpl in Himp. lia.
Qed.

End TrackerFirst.

(** ** Large instances *)


(** * Facts about the greedy seeder *)

(** ** Minimum, maximum and first index *)

Lemma min_from_spec x l :
  min_from x l ∈ x :: l ∧ ∀ y, y ∈ x :: l → min_from x l <= y.
Proof.
  revert x. induction l as [|z l IH]; intros x; simpl.
  - split; [left|]. intros y ->%list_elem_of_singleton. lia.
  - destruct (IH (Z.min x z)) as [Hin Hle]. split.
    + apply elem_of_cons in Hin as [Heq|Hin]; [|by do 2 right].
      rewrite Heq. destruct (Z.min_spec x z) as [[_ ->]|[_ ->]]; [left|right; left].
    + intros y Hy. apply elem_of_cons in Hy as [->|Hy].
      * specialize (Hle (Z.min x z) ltac:(left)). lia.
      * apply elem_of_cons in Hy as [->|Hy].
        -- specialize (Hle (Z.min x z) ltac:(left)). lia.
        -- apply Hle. by right.
Qed.

Lemma max_from_spec x l :
  max_from x l ∈ x :: l ∧ ∀ y, y ∈ x :: l → y <= max_from x l.
Proof.
  revert x. induction l as [|z l IH]; intros x; simpl.
  - split; [left|]. intros y ->%list_elem_of_singleton. lia.
  - destruct (IH (Z.max x z)) as [Hin Hle]. split.
    + apply elem_of_cons in Hin as [Heq|Hin]; [|by do 2 right].
      rewrite Heq. destruct (Z.max_spec x z) as [[_ ->]|[_ ->]]; [right; left|left].
    + intros y Hy. apply elem_of_cons in Hy as [->|Hy].
      * specialize (Hle (Z.max x z) ltac:(left)). lia.
      * apply elem_of_cons in Hy as [->|Hy].
        -- specialize (Hle (Z.max x z) ltac:(left)). lia.
        -- apply Hle. by right.
Qed.

Lemma py_index_elem x l :
  x ∈ l → ∃ k, py_index x l = Ok k ∧ l !! k = Some x.
Proof.
  induction l as [|y l IH]; intros Hx; [by apply not_elem_of_nil in Hx|].
  simpl. case_decide as Hy.
  - subst. by exists 0%nat.
  - apply elem_of_cons in Hx as [->|Hx]; [done|].
    destruct (IH Hx) as (k & -> & Hk). by exists (S k).
Qed.

Lemma index_of_min_spec l :
  l ≠ [] →
  ∃ k m, index_of_min l = Ok k ∧ l !! k = Some m ∧ ∀ y, y ∈ l → m <= y.
Proof.
  destruct l as [|x l]; [done|]. intros _. unfold index_of_min. simpl py_min.
  destruct (min_from_spec x l) as [Hin Hle].
  destruct (py_index_elem _ _ Hin) as (k & Hk & Hlook).
  exists k, (min_from x l). split; [exact Hk|]. done.
Qed.

Lemma index_of_max_spec l :
  l ≠ [] →
  ∃ k m, index_of_max l = Ok k ∧ py_max l = Ok m ∧ l !! k = Some m
         ∧ ∀ y, y ∈ l → y <= m.
Proof.
  destruct l as [|x l]; [done|]. intros _. unfold index_of_max. simpl py_max.
  destruct (max_from_spec x l) as [Hin Hle].
  destruct (py_index_elem _ _ Hin) as (k & Hk & Hlook).
  exists k, (max_from x l). split; [exact Hk|]. done.
Qed.

Lemma py_sum_alter f k (l : list Z) x :
  l !! k = Some x → py_sum (alter f k l) = py_sum l + (f x - x).
Proof.
  revert k. induction l as [|y l IH]; intros [|k] Hk; simplify_eq/=.
  - change (py_sum (f x :: l) = py_sum (x :: l) + (f x - x)).
    rewrite !py_sum_cons. lia.
  - change (py_sum (y :: alter f k l) = py_sum (y :: l) + (f x - x)).
    rewrite !py_sum_cons, (IH k) by done. lia.
Qed.

Lemma Forall_alter_intro {A} (P : A → Prop) f k (l : list A) :
  Forall P l → (∀ x, l !! k = Some x → P x → P (f x)) → Forall P (alter f k l).
Proof.
  intros Hl Hf. apply Forall_lookup. intros i y Hy.
  rewrite Forall_lookup in Hl.
  destruct (decide (k = i)) as [->|Hne].
  - rewrite list_lookup_alter_eq in Hy.
    destruct (l !! i) as [x|] eqn:Hx; simplify_eq/=. apply Hf; eauto.
  - rewrite list_lookup_alter_ne in Hy by done. eauto.
Qed.

(** ** One iteration of each loop *)

Lemma inc_step_spec raw :
  raw ≠ [] →
  ∃ raw', inc_step raw = Ok raw'
          ∧ py_sum raw' = py_sum raw + 1
          ∧ length raw' = length raw
          ∧ (Forall (λ u, 1 <= u) raw → Forall (λ u, 1 <= u) raw').
Proof.
  intros Hne. destruct (index_of_min_spec raw Hne) as (k & m & Hk & Hm & _).
  unfold inc_step. rewrite Hk. simpl. eexists. split; [done|].
  split; [rewrite (py_sum_alter _ _ _ m) by done; lia|].
  split; [apply length_alter|].
  intros Hall. apply Forall_alter_intro; [done|]. intros; lia.
Qed.

Lemma dec_step_spec raw :
  raw ≠ [] →
  (∃ raw', dec_step raw = Ok (Continue raw')
           ∧ py_sum raw' = py_sum raw - 1
           ∧ length raw' = length raw
           ∧ (Forall (λ u, 1 <= u) raw → Forall (λ u, 1 <= u) raw'))
  ∨ (dec_step raw = Ok (Break raw)
     ∧ (∃ m, py_max raw = Ok m ∧ m <= 1)
     ∧ Forall (λ u, u <= 1) raw).
Proof.
  intros Hne. destruct (index_of_max_spec raw Hne) as (k & m & Hk & Hmax & Hm & Hle).
  unfold dec_step. rewrite Hk. simpl. rewrite Hm. case_decide as Hgt.
  - left. eexists. split; [done|].
    split; [rewrite (py_sum_alter _ _ _ m) by done; lia|].
    split; [apply length_alter|].
    intros Hall. apply Forall_alter_intro; [done|].
    intros x Hx _. rewrite Hm in Hx. injection Hx as <-. lia.
  - right. split; [done|]. split; [exists m; split; [done|lia]|].
    apply Forall_forall. intros y Hy. specialize (Hle y Hy). lia.
Qed.

(** ** The two loops *)

Section Loops.
Context (upp : Z).

Lemma inc_loop_mono fuel fuel' raw r :
  inc_loop fuel upp raw = Ok r → (fuel ≤ fuel')%nat → inc_loop fuel' upp raw = Ok r.
Proof.
  revert fuel' raw. induction fuel as [|fuel IH]; intros fuel' raw Hr Hle.
  - simpl in Hr. destruct fuel'; simpl; case_decide; done.
  - destruct fuel' as [|fuel']; [lia|]. simpl in *. case_decide; [|done].
    destruct (inc_step raw) as [raw'| |]; simpl in *; try done.
    apply IH; [done|lia].
Qed.

Lemma dec_loop_mono fuel fuel' raw r :
  dec_loop fuel upp raw = Ok r → (fuel ≤ fuel')%nat → dec_loop fuel' upp raw = Ok r.
Proof.
  revert fuel' raw. induction fuel as [|fuel IH]; intros fuel' raw Hr Hle.
  - simpl in Hr. destruct fuel'; simpl; case_decide; done.
  - destruct fuel' as [|fuel']; [lia|]. simpl in *. case_decide; [|done].
    destruct (dec_step raw) as [[raw'|raw']| |]; simpl in *; try done.
    apply IH; [done|lia].
Qed.

Lemma inc_loop_spec fuel raw :
  raw ≠ [] → (Z.to_nat (upp - py_sum raw) ≤ fuel)%nat →
  ∃ raw', inc_loop fuel upp raw = Ok raw'
          ∧ py_sum raw' = Z.max upp (py_sum raw)
          ∧ length raw' = length raw
          ∧ (Forall (λ u, 1 <= u) raw → Forall (λ u, 1 <= u) raw').
Proof.
  revert raw. induction fuel as [|fuel IH]; intros raw Hne Hfuel; simpl.
  - case_decide; [lia|]. exists raw. repeat split; [lia|done..].
  - case_decide as Hlt; [|exists raw; repeat split; [lia|done..]].
    destruct (inc_step_spec raw Hne) as (raw1 & -> & Hsum & Hlen & Hall). simpl.
    destruct (IH raw1) as (raw' & -> & Hsum' & Hlen' & Hall').
    + intros ->. by destruct raw.
    + lia.
    + exists raw'. split; [done|]. split; [lia|]. split; [congruence|auto].
Qed.

Lemma dec_loop_spec fuel raw :
  raw ≠ [] → (Z.to_nat (py_sum raw - upp) ≤ fuel)%nat →
  ∃ raw', dec_loop fuel upp raw = Ok raw'
          ∧ length raw' = length raw
          ∧ (Forall (λ u, 1 <= u) raw → Forall (λ u, 1 <= u) raw')
          ∧ (py_sum raw' = Z.min upp (py_sum raw)
             ∨ (upp < py_sum raw' ∧ Forall (λ u, u <= 1) raw')).
Proof.
  revert raw. induction fuel as [|fuel IH]; intros raw Hne Hfuel; simpl.
  - case_decide; [lia|]. exists raw. repeat split; [done..|left; lia].
  - case_decide as Hgt; [|exists raw; repeat split; [done..|left; lia]].
    destruct (dec_step_spec raw Hne)
      as [(raw1 & -> & Hsum & Hlen & Hall)|(-> & _ & Hones)]; simpl.
    + destruct (IH raw1) as (raw' & -> & Hlen' & Hall' & Hend).
      * intros ->. by destruct raw.
      * lia.
      * exists raw'. split; [done|]. split; [congruence|]. split; [auto|].
        destruct Hend as [Hend|Hend]; [left; lia|by right].
    + exists raw. repeat split; [done..|right; split; [lia|done]].
Qed.
End Loops.

(** ** Apportioning the ups of one group *)

Section Assign.
Context (round_share : Z → Z → Z → Z).

Lemma raw_ups_of_spec group upp :
  py_sum (QTY <$> group) ≠ 0 →
  ∃ raw, raw_ups_of round_share group upp = Ok raw
         ∧ length raw = length group
         ∧ Forall (λ u, 1 <= u) raw.
Proof.
  intros Htotal. unfold raw_ups_of.
  set (total := py_sum (QTY <$> group)) in *. clearbody total.
  induction group as [|item group (raw & Hraw & Hlen & Hall)]; simpl.
  - by exists [].
  - rewrite decide_False by done. simpl. rewrite Hraw. simpl.
    eexists. split; [done|]. split; [simpl; lia|].
    constructor; [lia|done].
Qed.

(** For a non-empty group whose quantities do not sum to zero, enough fuel
    always yields the same list: one value of at least 1 per tag, summing to
    [upp] unless even all-ones exceed it. *)
Lemma assign_ups_proportional_spec group upp :
  group ≠ [] → py_sum (QTY <$> group) ≠ 0 →
  ∃ n ups_list,
    (∀ fuel, (n ≤ fuel)%nat →
       assign_ups_proportional round_share fuel group upp = Ok ups_list)
    ∧ length ups_list = length group
    ∧ Forall (λ u, 1 <= u) ups_list
    ∧ (py_sum ups_list = upp
       ∨ (upp < py_sum ups_list ∧ Forall (λ u, u = 1) ups_list)).
Proof.
  intros Hne Htotal.
  destruct (raw_ups_of_spec group upp Htotal) as (raw0 & Hraw0 & Hlen0 & Hall0).
  assert (raw0 ≠ []) as Hne0 by (intros ->; by destruct group).
  destruct (inc_loop_spec upp _ raw0 Hne0 (le_n _))
    as (raw1 & Hinc & Hsum1 & Hlen1 & Hall1).
  assert (raw1 ≠ []) as Hne1 by (intros ->; by destruct raw0).
  destruct (dec_loop_spec upp _ raw1 Hne1 (le_n _))
    as (raw2 & Hdec & Hlen2 & Hall2 & Hend).
  exists (Z.to_nat (upp - py_sum raw0) `max` Z.to_nat (py_sum raw1 - upp))%nat, raw2.
  split; [|split; [congruence|split; [auto|]]].
  - intros fuel Hfuel. unfold assign_ups_proportional. rewrite Hraw0. simpl.
    rewrite (inc_loop_mono upp _ fuel _ _ Hinc) by lia. simpl.
    apply (dec_loop_mono upp _ fuel _ _ Hdec). lia.
  - destruct Hend as [Hend|[Hgt Hones]]; [left; lia|right].
    split; [done|]. specialize (Hall2 (Hall1 Hall0)).
    apply Forall_forall. intros u Hu.
    rewrite Forall_forall in Hall2, Hones.
    specialize (Hall2 u Hu). specialize (Hones u Hu). lia.
Qed.

End Assign.

(** ** Partitioning the tags *)

Lemma insert_desc_Permutation t l : insert_desc t l ≡ₚ t :: l.
Proof.
  induction l as [|u l IH]; simpl; [done|].
  case_decide; [|done]. rewrite IH. apply Permutation_swap.
Qed.

Lemma sorted_desc_Permutation tags : sorted_desc tags ≡ₚ tags.
Proof.
  induction tags as [|t tags IH]; simpl; [done|].
  by rewrite insert_desc_Permutation, IH.
Qed.

Lemma join_alter_snoc (plates : list (list Tag)) k tag :
  (k < length plates)%nat →
  mjoin (alter (λ g, g ++ [tag]) k plates) ≡ₚ tag :: mjoin plates.
Proof.
  revert k. induction plates as [|g plates IH]; intros [|k] Hk; simpl in Hk; try lia.
  - change ((g ++ [tag]) ++ mjoin plates ≡ₚ tag :: (g ++ mjoin plates)).
    rewrite <-app_assoc. simpl. symmetry. apply Permutation_middle.
  - change (g ++ mjoin (alter (λ g, g ++ [tag]) k plates)
            ≡ₚ tag :: (g ++ mjoin plates)).
    rewrite IH by lia. symmetry. apply Permutation_middle.
Qed.

Lemma join_insert_nil (plates : list (list Tag)) i g :
  plates !! i = Some g → mjoin plates ≡ₚ g ++ mjoin (<[i := []]> plates).
Proof.
  revert i. induction plates as [|g' plates IH]; intros [|i] Hi; simplify_eq/=.
  - done.
  - change (g' ++ mjoin plates ≡ₚ g ++ (g' ++ mjoin (<[i := []]> plates))).
    rewrite (IH i) by done. rewrite !app_assoc. f_equiv. apply Permutation_app_comm.
Qed.

Lemma place_spec st tag :
  length st.1 = length st.2 → st.2 ≠ [] →
  ∃ st', place st tag = Ok st'
         ∧ length st'.1 = length st.1 ∧ length st'.2 = length st.2
         ∧ mjoin st'.1 ≡ₚ tag :: mjoin st.1.
Proof.
  intros Hlen Hne. destruct (index_of_min_spec st.2 Hne) as (k & m & Hk & Hm & _).
  unfold place. rewrite Hk. simpl. eexists. split; [done|]. simpl.
  rewrite !length_alter. split; [done|]. split; [done|].
  apply join_alter_snoc. rewrite Hlen. by eapply lookup_lt_Some.
Qed.

Lemma foldM_place_spec tags st :
  length st.1 = length st.2 → st.2 ≠ [] →
  ∃ st', foldM place st tags = Ok st'
         ∧ length st'.1 = length st.1 ∧ length st'.2 = length st.2
         ∧ mjoin st'.1 ≡ₚ tags ++ mjoin st.1.
Proof.
  revert st. induction tags as [|tag tags IH]; intros st Hlen Hne; simpl.
  - by exists st.
  - destruct (place_spec st tag Hlen Hne) as (st1 & -> & Hl1 & Hl2 & Hperm). simpl.
    destruct (IH st1) as (st' & -> & Hl1' & Hl2' & Hperm').
    + congruence.
    + intros Hnil. rewrite Hnil in Hl2. by destruct st.2.
    + exists st'. split; [done|]. split; [congruence|]. split; [congruence|].
      rewrite Hperm', Hperm. symmetry. apply Permutation_middle.
Qed.

Lemma repair_step_spec st i :
  length st.1 = length st.2 → (i < length st.1)%nat →
  ∃ st', repair_step st i = Ok st'
         ∧ length st'.1 = length st.1 ∧ length st'.2 = length st.2
         ∧ mjoin st'.1 ≡ₚ mjoin st.1.
Proof.
  intros Hlen Hi. unfold repair_step.
  destruct (lookup_lt_is_Some_2 _ _ Hi) as [g Hg]. rewrite Hg.
  destruct g as [|single [|other g]]; [by exists st| |by exists st].
  destruct (place_spec (<[i := []]> st.1, <[i := 0]> st.2) single)
    as (st' & -> & Hl1 & Hl2 & Hperm); simpl in *.
  - by rewrite !length_insert.
  - intros Hnil. apply (f_equal length) in Hnil.
    rewrite length_insert in Hnil. simpl in Hnil. lia.
  - rewrite !length_insert in *. exists st'. split; [done|]. split; [done|].
    split; [done|]. rewrite Hperm. by rewrite (join_insert_nil _ _ _ Hg).
Qed.

Lemma foldM_repair_spec indices st :
  length st.1 = length st.2 → Forall (λ i, i < length st.1)%nat indices →
  ∃ st', foldM repair_step st indices = Ok st'
         ∧ length st'.1 = length st.1 ∧ length st'.2 = length st.2
         ∧ mjoin st'.1 ≡ₚ mjoin st.1.
Proof.
  revert st. induction indices as [|i indices IH]; intros st Hlen Hall; simpl.
  - by exists st.
  - apply Forall_cons in Hall as [Hi Hall].
    destruct (repair_step_spec st i Hlen Hi) as (st1 & -> & Hl1 & Hl2 & Hperm). simpl.
    destruct (IH st1) as (st' & -> & Hl1' & Hl2' & Hperm').
    + congruence.
    + by rewrite Hl1.
    + exists st'. split; [done|]. split; [congruence|]. split; [congruence|].
      by rewrite Hperm'.
Qed.

Lemma join_replicate_nil {A} n : mjoin (replicate n (@nil A)) = [].
Proof. induction n; simpl; auto. Qed.

(** With at least one plate, both partitions succeed, and the groups hold
    the input tags. *)
Lemma seed_partition_spec tags pc :
  1 <= pc →
  ∃ parts, seed_partition tags pc = Ok parts
           ∧ length parts = Z.to_nat pc ∧ mjoin parts ≡ₚ tags.
Proof.
  intros Hpc.
  destruct (foldM_place_spec (sorted_desc tags) (empty_partition pc))
    as (st & Hst & Hl1 & Hl2 & Hperm); unfold empty_partition in *;
    cbn [fst snd] in *.
  { by rewrite !length_replicate. }
  { destruct (Z.to_nat pc) eqn:?; [lia|done]. }
  rewrite length_replicate in Hl1. rewrite length_replicate in Hl2.
  rewrite join_replicate_nil, app_nil_r, sorted_desc_Permutation in Hperm.
  unfold seed_partition, initial_balanced_partition,
    initial_balanced_partition_no_singles, empty_partition.
  rewrite Hst. simpl.
  case_decide; [|by exists st.1].
  destruct (foldM_repair_spec (seq 0 (length st.1)) st)
    as (st' & -> & Hl1' & Hl2' & Hperm'); simpl.
  - congruence.
  - apply Forall_forall. intros i Hi%elem_of_seq. lia.
  - exists st'.1. split; [done|]. split; [congruence|]. by rewrite Hperm'.
Qed.

(** ** The seed *)

Lemma zip_with_seed_tags (p : nat) (group : list Tag) (ups_list : list Z) :
  length ups_list = length group →
  (λ e : SeedEntry, e.1.1) <$> zip_with (λ tag ups, (tag, p, ups)) group ups_list
  = group.
Proof.
  revert ups_list. induction group as [|t group IH]; intros [|u us] Hlen;
    simplify_eq/=; [done|]. f_equal. by apply IH.
Qed.

Lemma zip_with_seed_ups (p : nat) (group : list Tag) (ups_list : list Z) :
  Forall (λ u, 1 <= u) ups_list →
  Forall (λ e : SeedEntry, 1 <= e.2)
    (zip_with (λ tag ups, (tag, p, ups)) group ups_list).
Proof.
  intros Hall. revert group. induction Hall as [|u us Hu Hus IH]; intros [|t group];
    simpl; constructor; auto.
Qed.

Section Seed.
Context (round_share : Z → Z → Z → Z).

Lemma seed_groups_spec upp parts :
  Forall (λ g, g = [] ∨ py_sum (QTY <$> g) ≠ 0) parts →
  ∀ (h : nat → nat) acc,
    ∃ n asg,
      (∀ fuel, (n ≤ fuel)%nat →
         foldM (seed_group round_share fuel upp) acc (imap (λ i g, (h i, g)) parts)
         = Ok (acc ++ asg))
      ∧ (λ e : SeedEntry, e.1.1) <$> asg = mjoin parts
      ∧ Forall (λ e : SeedEntry, 1 <= e.2) asg.
Proof.
  induction 1 as [|g parts Hg Hparts IH]; intros h acc.
  - exists 0%nat, []. split; [|done]. intros fuel _. simpl. by rewrite app_nil_r.
  - destruct g as [|t g].
    + destruct (IH (h ∘ S) acc) as (n & asg & Hrun & Htags & Hups).
      exists n, asg. split; [|done]. intros fuel Hfuel. simpl.
      by apply Hrun.
    + destruct Hg as [Hg|Hg]; [done|].
      destruct (assign_ups_proportional_spec round_share (t :: g) upp
                  ltac:(done) Hg) as (n1 & ups_list & Hassign & Hlen & Hall & _).
      set (new := zip_with (λ tag ups, (tag, h 0%nat, ups)) (t :: g) ups_list).
      destruct (IH (h ∘ S) (acc ++ new)) as (n2 & asg & Hrun & Htags & Hups).
      exists (n1 `max` n2)%nat, (new ++ asg). split; [|split].
      * intros fuel Hfuel. rewrite imap_cons. cbn [foldM seed_group].
        rewrite Hassign by lia. simpl. rewrite app_assoc. apply Hrun. lia.
      * rewrite fmap_app, Htags. unfold new. by rewrite zip_with_seed_tags.
      * apply Forall_app. split; [by apply zip_with_seed_ups|done].
Qed.

End Seed.

(** ** What a returned seed looks like *)

(** An invariant of the loop body holds of the state a [for] loop returns. *)
Lemma foldM_invariant {A S : Type} (body : S → A → Result S)
    (Inv : list A → S → Prop) l s s' :
  Inv [] s →
  (∀ seen x t t', Inv seen t → body t x = Ok t' → Inv (seen ++ [x]) t') →
  foldM body s l = Ok s' → Inv l s'.
Proof.
  revert Inv s. induction l as [|x l IH]; intros Inv s Hinit Hstep Hrun; simpl in Hrun.
  - by injection Hrun as <-.
  - destruct (body s x) as [s1| |] eqn:Hbody; simpl in Hrun; try discriminate.
    apply (IH (λ seen t, Inv (x :: seen) t) s1); [|intros seen y t t' Ht Hy|done].
    + by apply (Hstep [] x s s1).
    + by apply (Hstep (x :: seen) y t t').
Qed.

Lemma py_index_Ok x l k : py_index x l = Ok k → l !! k = Some x.
Proof.
  revert k. induction l as [|y l IH]; intros k; simpl; [discriminate|].
  case_decide as Hy; [by intros [= <-]; subst|].
  destruct (py_index x l) as [k'| |]; simpl; try discriminate.
  intros [= <-]. by apply IH.
Qed.

Lemma index_of_min_Ok l k : index_of_min l = Ok k → (k < length l)%nat.
Proof.
  unfold index_of_min. destruct l as [|x l]; [discriminate|].
  change (py_index (min_from x l) (x :: l) = Ok k → (k < length (x :: l))%nat).
  intros Hk%py_index_Ok. by eapply lookup_lt_Some.
Qed.

Lemma index_of_max_Ok l k : index_of_max l = Ok k → (k < length l)%nat.
Proof.
  unfold index_of_max. destruct l as [|x l]; [discriminate|].
  change (py_index (max_from x l) (x :: l) = Ok k → (k < length (x :: l))%nat).
  intros Hk%py_index_Ok. by eapply lookup_lt_Some.
Qed.

Lemma place_Ok st tag st' :
  place st tag = Ok st' → length st.1 = length st.2 →
  length st'.1 = length st'.2 ∧ mjoin st'.1 ≡ₚ tag :: mjoin st.1.
Proof.
  unfold place. destruct (index_of_min st.2) as [k| |] eqn:Hk; simpl; try discriminate.
  intros [= <-] Hlen. simpl. rewrite !length_alter. split; [done|].
  apply join_alter_snoc. rewrite Hlen. by apply index_of_min_Ok.
Qed.

Lemma repair_step_Ok st i st' :
  repair_step st i = Ok st' → length st.1 = length st.2 →
  length st'.1 = length st'.2 ∧ mjoin st'.1 ≡ₚ mjoin st.1.
Proof.
  unfold repair_step. destruct (st.1 !! i) as [g|] eqn:Hg; [|discriminate].
  destruct g as [|single [|other g]]; try (by intros [= <-]).
  intros Hplace Hlen. apply place_Ok in Hplace as [Hlen' Hperm]; simpl in *.
  - split; [done|]. by rewrite Hperm, (join_insert_nil _ _ _ Hg).
  - by rewrite !length_insert.
Qed.

Lemma seed_partition_Ok tags pc parts :
  seed_partition tags pc = Ok parts → mjoin parts ≡ₚ tags.
Proof.
  assert (∀ st, foldM place (empty_partition pc) (sorted_desc tags) = Ok st →
                length st.1 = length st.2 ∧ mjoin st.1 ≡ₚ tags) as Hfirst.
  { intros st Hst.
    apply (foldM_invariant place
             (λ seen st, length st.1 = length st.2 ∧ mjoin st.1 ≡ₚ seen)) in Hst.
    - destruct Hst as [? Hperm]. by rewrite sorted_desc_Permutation in Hperm.
    - unfold empty_partition. simpl. by rewrite !length_replicate, join_replicate_nil.
    - intros seen x t t' [Hlen Hperm] [Hlen' Hperm']%place_Ok; [|done].
      split; [done|]. rewrite Hperm', Hperm. apply Permutation_cons_append. }
  unfold seed_partition, initial_balanced_partition,
    initial_balanced_partition_no_singles.
  destruct (foldM place _ _) as [st| |]; simpl; try (case_decide; discriminate).
  destruct (Hfirst st eq_refl) as [Hlen Hperm].
  case_decide; [|by intros [= <-]].
  destruct (foldM repair_step _ _) as [st'| |] eqn:Hst'; simpl; try discriminate.
  intros [= <-].
  apply (foldM_invariant repair_step
           (λ _ t, length t.1 = length t.2 ∧ mjoin t.1 ≡ₚ tags)) in Hst'.
  - by destruct Hst'.
  - done.
  - intros _ x t t' [Hl Hp] [Hl' Hp']%repair_step_Ok; [|done].
    split; [done|]. by rewrite Hp'.
Qed.

Section ReturnedSeed.
Context (round_share : Z → Z → Z → Z).

Lemma raw_ups_of_Ok group upp raw :
  raw_ups_of round_share group upp = Ok raw →
  length raw = length group ∧ Forall (λ u, 1 <= u) raw.
Proof.
  unfold raw_ups_of. intros Hraw%mapM_Ok_Forall2. split.
  - symmetry. by eapply Forall2_length.
  - apply Forall_forall. intros u Hu.
    apply list_elem_of_lookup in Hu as [k Hk].
    destruct (Forall2_lookup_r _ _ _ _ _ Hraw Hk) as (item & _ & Hitem).
    simpl in Hitem. case_decide; [discriminate|]. injection Hitem as <-. lia.
Qed.

Lemma inc_step_Ok raw raw' :
  inc_step raw = Ok raw' →
  length raw' = length raw ∧ (Forall (λ u, 1 <= u) raw → Forall (λ u, 1 <= u) raw').
Proof.
  unfold inc_step. destruct (index_of_min raw) as [k| |]; simpl; try discriminate.
  intros [= <-]. split; [apply length_alter|].
  intros Hall. apply Forall_alter_intro; [done|]. intros; lia.
Qed.

Lemma inc_loop_Ok fuel upp raw raw' :
  inc_loop fuel upp raw = Ok raw' →
  length raw' = length raw ∧ (Forall (λ u, 1 <= u) raw → Forall (λ u, 1 <= u) raw').
Proof.
  revert raw. induction fuel as [|fuel IH]; intros raw; simpl;
    (case_decide; [|by intros [= <-]]); [discriminate|].
  destruct (inc_step raw) as [raw1| |] eqn:Hstep; simpl; try discriminate.
  intros [Hlen Hall]%IH. apply inc_step_Ok in Hstep as [Hlen1 Hall1].
  split; [congruence|auto].
Qed.

Lemma dec_loop_Ok fuel upp raw raw' :
  dec_loop fuel upp raw = Ok raw' →
  length raw' = length raw ∧ (Forall (λ u, 1 <= u) raw → Forall (λ u, 1 <= u) raw').
Proof.
  revert raw. induction fuel as [|fuel IH]; intros raw; simpl;
    (case_decide; [|by intros [= <-]]); [discriminate|].
  unfold dec_step. destruct (index_of_max raw) as [k| |]; simpl; try discriminate.
  destruct (raw !! k) as [x|] eqn:Hx; [|discriminate].
  case_decide as Hgt; simpl; [|by intros [= <-]].
  intros [Hlen Hall]%IH. rewrite length_alter in Hlen. split; [done|].
  intros Hraw. apply Hall, Forall_alter_intro; [done|].
  intros y Hy _. rewrite Hx in Hy. injection Hy as <-. lia.
Qed.

Lemma assign_ups_proportional_Ok fuel group upp ups_list :
  assign_ups_proportional round_share fuel group upp = Ok ups_list →
  length ups_list = length group ∧ Forall (λ u, 1 <= u) ups_list.
Proof.
  unfold assign_ups_proportional.
  destruct (raw_ups_of _ _ _) as [raw0| |] eqn:H0; simpl; try discriminate.
  destruct (inc_loop _ _ _) as [raw1| |] eqn:H1; simpl; try discriminate.
  intros [Hlen2 Hall2]%dec_loop_Ok.
  apply raw_ups_of_Ok in H0 as [Hlen0 Hall0].
  apply inc_loop_Ok in H1 as [Hlen1 Hall1].
  split; [congruence|auto].
Qed.

(** Whatever the input, a seed that [greedy_initialize] returns holds every
    input tag once, each with ups of at least 1. *)
Lemma greedy_initialize_Ok fuel tags upp pc seed :
  greedy_initialize round_share fuel tags upp pc = Ok seed →
  (λ e : SeedEntry, e.1.1) <$> seed ≡ₚ tags
  ∧ Forall (λ e : SeedEntry, 1 <= e.2) seed
  ∧ length seed = length tags.
Proof.
  unfold greedy_initialize.
  destruct (seed_partition tags pc) as [parts| |] eqn:Hparts; simpl; try discriminate.
  intros Hseed.
  apply (foldM_invariant (seed_group round_share fuel upp)
           (λ seen acc, (λ e : SeedEntry, e.1.1) <$> acc = mjoin (snd <$> seen)
                        ∧ Forall (λ e : SeedEntry, 1 <= e.2) acc)) in Hseed.
  - destruct Hseed as [Htags Hups].
    rewrite fmap_imap in Htags. simpl in Htags.
    rewrite (imap_const id), list_fmap_id in Htags.
    assert ((λ e : SeedEntry, e.1.1) <$> seed ≡ₚ tags) as Hperm.
    { rewrite Htags. by apply seed_partition_Ok in Hparts. }
    split; [done|]. split; [done|].
    apply Permutation_length in Hperm. by rewrite length_fmap in Hperm.
  - done.
  - intros seen [p g] acc acc' [Htags Hups] Hstep.
    rewrite fmap_app, join_app. simpl. rewrite app_nil_r.
    destruct g as [|t g]; simpl in Hstep.
    + injection Hstep as <-. by rewrite app_nil_r.
    + destruct (assign_ups_proportional _ _ _ _) as [ups_list| |] eqn:Hassign;
        simpl in Hstep; try discriminate.
      injection Hstep as <-.
      apply assign_ups_proportional_Ok in Hassign as [Hlen Hall].
      split.
      * rewrite fmap_app, Htags. f_equal.
        by apply (zip_with_seed_tags p (t :: g) ups_list).
      * apply Forall_app. split; [done|].
        by apply (zip_with_seed_ups p (t :: g) ups_list).
Qed.
End ReturnedSeed.

(** ** Why the repair pass repairs nothing *)

Lemma py_index_first x l i :
  l !! i = Some x → (∀ k y, (k < i)%nat → l !! k = Some y → y ≠ x) →
  py_index x l = Ok i.
Proof.
  revert i. induction l as [|z l IH]; intros [|i] Hi Hfirst; simplify_eq/=.
  - by rewrite decide_True.
  - rewrite decide_False by (apply (Hfirst 0%nat); [lia|done]).
    rewrite (IH i); [done..|]. intros k y Hk Hy. apply (Hfirst (S k)); [lia|done].
Qed.

Lemma index_of_min_first l i m :
  l !! i = Some m → (∀ y, y ∈ l → m <= y) →
  (∀ k y, (k < i)%nat → l !! k = Some y → y ≠ m) →
  index_of_min l = Ok i.
Proof.
  intros Hi Hmin Hfirst. destruct l as [|x l]; [done|].
  unfold index_of_min.
  change (py_index (min_from x l) (x :: l) = Ok i).
  destruct (min_from_spec x l) as [Hin Hle].
  assert (min_from x l = m) as ->.
  { specialize (Hmin _ Hin). specialize (Hle m (list_elem_of_lookup_2 _ _ _ Hi)). lia. }
  by apply py_index_first.
Qed.

(** When no load is negative and every earlier plate carries load, the plate
    emptied by the repair step is itself the first plate of least load: the
    evicted tag returns to it and the plates are unchanged. *)
Lemma repair_step_puts_back plates loads i single :
  length plates = length loads →
  plates !! i = Some [single] →
  (∀ k y, loads !! k = Some y → 0 <= y) →
  (∀ k y, (k < i)%nat → loads !! k = Some y → 0 < y) →
  repair_step (plates, loads) i = Ok (plates, <[i := 0 + QTY single]> loads).
Proof.
  intros Hlen Hi Hnonneg Hearlier.
  assert (i < length loads)%nat as Hlt by (rewrite <-Hlen; by eapply lookup_lt_Some).
  unfold repair_step. simpl. rewrite Hi. unfold place. simpl.
  rewrite (index_of_min_first _ i 0).
  - simpl. f_equal. f_equal.
    + apply list_eq. intros j. destruct (decide (i = j)) as [<-|Hne].
      * rewrite list_lookup_alter_eq, list_lookup_insert_eq, Hi; [done|].
        by eapply lookup_lt_Some.
      * by rewrite list_lookup_alter_ne, list_lookup_insert_ne.
    + apply list_eq. intros j. destruct (decide (i = j)) as [<-|Hne].
      * by rewrite list_lookup_alter_eq, !list_lookup_insert_eq.
      * by rewrite list_lookup_alter_ne, !list_lookup_insert_ne.
  - by apply list_lookup_insert_eq.
  - intros y [k Hk]%list_elem_of_lookup.
    destruct (decide (i = k)) as [<-|Hne].
    + rewrite list_lookup_insert_eq in Hk by done. by injection Hk as <-.
    + rewrite list_lookup_insert_ne in Hk by done. by eapply Hnonneg.
  - intros k y Hk Hy. rewrite list_lookup_insert_ne in Hy by lia.
    specialize (Hearlier k y Hk Hy). lia.
Qed.

(** * Properties of the specification *)

(** ** The capacity constraint *)

(** C1: every assignment that satisfies the model gives each tag, on the plate
    whose indicator is true for it, at least its quantity
    ([ups * sheets >= QTY]); hence every [EXCESS] of the materialised results
    is non-negative. *)
Theorem capacity_covers_quantity {Float : Type} (float_zero : Float)
    (round_waste : Z → Z → Float) tags upp pc seed M v :
  build_model tags upp pc seed = Ok M → feasible v M →
  (∀ i j tag, tags !! i = Some tag → (j < Z.to_nat pc)%nat →
     v (tag_on_plate i j) = 1 → v (ups_vars i) * v (plate_sheets j) >= QTY tag)
  ∧ Forall (λ r, EXCESS r >= 0)
      (results (materialize float_zero round_waste v tags pc upp)).
Proof.
  intros Hbuild Hfeas. split.
  - intros i j tag. by eapply capacity.
  - rewrite results_materialize. apply Forall_forall. intros r Hr.
    apply list_elem_of_join in Hr as (l & Hr & Hl).
    apply list_elem_of_fmap in Hl as (j & -> & Hj%elem_of_seq).
    apply elem_of_plate_rows in Hr as (i & item & Hi & Hplate & ->). simpl.
    assert (v (tag_on_plate i j) = 1) as Hon.
    { eapply tag_on_plate_iff; eauto; [by eapply lookup_lt_Some | lia]. }
    pose proof (capacity _ _ _ _ _ _ Hbuild Hfeas i j item Hi ltac:(lia) Hon). lia.
Qed.

Lemma capacity_covers_quantity_witness :
  ∃ M, build_model three_tags 4 2 [] = Ok M
       ∧ feasible split_assignment M
       ∧ Forall (λ r, EXCESS r >= 0)
           (results (materialize 0 exact_round_waste split_assignment three_tags 2 4)).
Proof.
  eexists. split; [reflexivity|].
  assert (feasible split_assignment
            (match build_model three_tags 4 2 [] with Ok m => m | _ => [] end)) as Hf.
  { apply check_feasible. by vm_compute. }
  split; [exact Hf|].
  exact (proj2 (capacity_covers_quantity 0 exact_round_waste three_tags 4 2 [] _
                  split_assignment eq_refl Hf)).
Defined.

(** ** Full occupancy *)

(** C2: in every assignment that satisfies the model, a used plate carries
    ups that sum to [ups_per_plate] exactly, and an unused plate carries no
    tag (and a sum of 0). *)
Theorem used_plate_is_full tags upp pc seed M v j :
  build_model tags upp pc seed = Ok M → feasible v M → (j < Z.to_nat pc)%nat →
  (v (plate_used j) = 1 ∨ v (plate_used j) = 0)
  ∧ (v (plate_used j) = 1 → ups_on_plate v (length tags) j = upp)
  ∧ (v (plate_used j) = 0 →
       tags_on_plate v (length tags) j = []
       ∧ ups_on_plate v (length tags) j = 0
       ∧ ∀ i, (i < length tags)%nat →
           v (tag_on_plate i j) = 0 ∧ v (tag_to_plate i) ≠ Z.of_nat j).
Proof.
  intros Hbuild Hfeas Hj. split; [|split].
  - destruct (plate_used_bool _ _ _ _ _ _ Hbuild Hfeas j Hj); auto.
  - intros Hused. erewrite <-total_ups_eq by eauto. by eapply total_ups_used.
  - intros Hunused. split; [by eapply tags_on_plate_unused|]. split.
    + erewrite <-total_ups_eq by eauto. by eapply total_ups_unused.
    + intros i Hi.
      assert (v (tag_on_plate i j) = 0) as Hoff by (by eapply plate_unused_and).
      split; [done|]. intros Hon.
      eapply tag_on_plate_iff in Hon; eauto. lia.
Qed.

Lemma used_plate_is_full_witness :
  ∃ M, build_model three_tags 4 2 [] = Ok M
       ∧ feasible one_plate_assignment M
       ∧ (one_plate_assignment (plate_used 0) = 1 →
          ups_on_plate one_plate_assignment (length three_tags) 0 = 4)
       ∧ (one_plate_assignment (plate_used 1) = 0 →
          tags_on_plate one_plate_assignment (length three_tags) 1 = []).
Proof.
  eexists. split; [reflexivity|].
  assert (feasible one_plate_assignment
            (match build_model three_tags 4 2 [] with Ok m => m | _ => [] end)) as Hf.
  { apply check_feasible. by vm_compute. }
  split; [exact Hf|]. split.
  - exact (proj1 (proj2 (used_plate_is_full three_tags 4 2 [] _ one_plate_assignment
                           0%nat eq_refl Hf ltac:(simpl; lia)))).
  - intros Hu.
    exact (proj1 (proj2 (proj2 (used_plate_is_full three_tags 4 2 [] _
                                  one_plate_assignment 1%nat eq_refl Hf
                                  ltac:(simpl; lia))) Hu)).
Defined.

(** ** Minimum occupancy, large instances *)



(** ** The objective *)

(** C4, as stated, fails: with the three example tags all on plate A, the
    unused plate B still prints one sheet, so the objective and [totalSheets]
    are 51 while the used plates print 50. *)
Lemma unused_plate_adds_to_objective :
  ∃ M, build_model three_tags 4 2 [] = Ok M
       ∧ feasible one_plate_assignment M
       ∧ one_plate_assignment (plate_used 1) = 0
       ∧ sheets_on one_plate_assignment (used_plates one_plate_assignment 2) = 50
       ∧ objective_value one_plate_assignment M = 51
       ∧ totalSheets (summary (materialize 0 exact_round_waste one_plate_assignment
                                 three_tags 2 4)) = 51.
Proof.
  eexists. split; [reflexivity|]. split; [apply check_feasible; by vm_compute|].
  by vm_compute.
Qed.

(** C4, as the code has it: the minimised objective and the [totalSheets] of
    the summary are the sum of [plate_sheets] over every plate index; the
    unused plates are part of that sum, each with between 1 and 10000 sheets,
    so together they add at least their number. *)
Theorem objective_counts_every_plate {Float : Type} (float_zero : Float)
    (round_waste : Z → Z → Float) tags upp pc seed M v :
  build_model tags upp pc seed = Ok M → feasible v M →
  objective_value v M = sheets_total v pc
  ∧ totalSheets (summary (materialize float_zero round_waste v tags pc upp))
    = sheets_total v pc
  ∧ sheets_total v pc
    = sheets_on v (used_plates v pc) + sheets_on v (unused_plates v pc)
  ∧ (∀ j, j ∈ unused_plates v pc →
          v (plate_used j) = 0 ∧ 1 <= v (plate_sheets j) <= 10000)
  ∧ Z.of_nat (length (unused_plates v pc)) <= sheets_on v (unused_plates v pc).
Proof.
  intros Hbuild Hfeas.
  assert (∀ j, j ∈ unused_plates v pc →
               v (plate_used j) = 0 ∧ 1 <= v (plate_sheets j) <= 10000) as Hunused.
  { intros j [Hu Hj%elem_of_seq]%list_elem_of_filter.
    destruct (plate_used_bool _ _ _ _ _ _ Hbuild Hfeas j ltac:(lia)); [|done].
    split; [done|].
    apply (feasible_stmt _ _ Hfeas (NewIntVar (plate_sheets j) 1 10000)).
    eapply plate_sheets_in_model; eauto; lia. }
  split; [by eapply build_model_objective|]. split; [done|]. split; [|split; [done|]].
  - unfold sheets_total, sheets_on, used_plates, unused_plates.
    apply (py_sum_split (λ j, v (plate_used j) = 1)).
  - apply py_sum_lower. intros j Hj. by apply Hunused.
Qed.

Lemma objective_counts_every_plate_witness :
  ∃ M, build_model three_tags 4 2 [] = Ok M
       ∧ feasible one_plate_assignment M
       ∧ objective_value one_plate_assignment M = sheets_total one_plate_assignment 2
       ∧ Z.of_nat (length (unused_plates one_plate_assignment 2))
         <= sheets_on one_plate_assignment (unused_plates one_plate_assignment 2).
Proof.
  eexists. split; [reflexivity|].
  assert (feasible one_plate_assignment
            (match build_model three_tags 4 2 [] with Ok m => m | _ => [] end)) as Hf.
  { apply check_feasible. by vm_compute. }
  split; [exact Hf|].
  pose proof (objective_counts_every_plate 0 exact_round_waste three_tags 4 2 [] _
                one_plate_assignment eq_refl Hf) as (Hobj & _ & _ & _ & Hlow).
  split; [exact Hobj | exact Hlow].
Defined.

(** ** The repair pass of the seeder *)

(** C5: the repair pass leaves a single-tag plate.  With one tag of 1000
    pieces and a hundred tags of one piece on two plates, the large tag is
    alone on plate A after the first pass; the second pass empties the plate,
    sets its load to 0, finds that very plate to be the one of least load,
    and puts the tag back. *)
Theorem repair_pass_leaves_single_tag_plate :
  (100 < length skewed_tags)%nat
  ∧ initial_balanced_partition skewed_tags 2
    = Ok [[plain_tag 1000]; replicate 100 (plain_tag 1)]
  ∧ repair_step ([[plain_tag 1000]; replicate 100 (plain_tag 1)], [1000; 100]) 0
    = Ok ([[plain_tag 1000]; replicate 100 (plain_tag 1)], [1000; 100])
  ∧ initial_balanced_partition_no_singles skewed_tags 2
    = Ok [[plain_tag 1000]; replicate 100 (plain_tag 1)]
  ∧ seed_partition skewed_tags 2
    = Ok [[plain_tag 1000]; replicate 100 (plain_tag 1)].
Proof.
  split; [simpl; lia|]. repeat split; by vm_compute.
Qed.

(** ** Minimum occupancy, small instances *)

(** C6: the small-instance model does not exclude what the rule forbids.  In
    the example of three tags on two plates of four ups, the assignment that
    leaves the first tag alone on plate A with all four ups satisfies every
    constraint, because [forbidden_combo] may simply be false. *)
Theorem saturated_single_tag_plate_is_feasible :
  (length three_tags ≤ 100)%nat
  ∧ ∃ M, build_model three_tags 4 2 [] = Ok M
         ∧ feasible split_assignment M
         ∧ tags_on_plate split_assignment (length three_tags) 0 = [0%nat]
         ∧ ups_on_plate split_assignment (length three_tags) 0 = 4
         ∧ split_assignment (only_one_tag 0) = 1
         ∧ split_assignment (under_utilized 0) = 1
         ∧ split_assignment (forbidden_combo 0) = 0.
Proof.
  split; [simpl; lia|]. eexists. split; [reflexivity|].
  split; [apply check_feasible; by vm_compute|]. by vm_compute.
Qed.

(** ** The returned value *)

(** C7, as stated, fails.  With one tag of 2^63 pieces, four ups and one
    plate, the construction of the model raises [TypeError] where the
    quantity is handed to the solver.  The solver, which would have reported
    an assignment, is not called, so the callback is never invoked; and yet
    the error object is not returned. *)
Lemma construction_error_is_not_the_error_object :
  build_model [plain_tag (2 ^ 63)] 4 1 [] = Raise TypeError
  ∧ solve_plate_optimization 0 exact_round_waste (λ _, [one_plate_assignment])
      [plain_tag (2 ^ 63)] 4 1 []
    = Raise TypeError.
Proof. split; by vm_compute. Qed.

(** C7, as the code has it: once the model is built,
    [solve_plate_optimization] returns, and it returns the error object
    exactly when the solver invoked the callback with no improving
    assignment, which is when it never invoked it and when the tracker holds
    no best solution; otherwise it returns the tracker's best solution, which
    is the full solution recorded for the first reported assignment of least
    total sheets. *)
Theorem error_iff_no_best_solution {Float : Type} (float_zero : Float)
    (round_waste : Z → Z → Float) solver tags upp pc seed M :
  build_model tags upp pc seed = Ok M →
  ∃ outputs response,
    solve_plate_optimization float_zero round_waste solver tags upp pc seed
    = Ok (SolveWithSolutionCallback M :: outputs, response)
    ∧ (response = ErrorObject "No solution found"
       ↔ ¬ reported_improving pc (solver M))
    ∧ (reported_improving pc (solver M) ↔ solver M ≠ [])
    ∧ (response = ErrorObject "No solution found"
       ↔ best_solution (run_callbacks float_zero round_waste
                          (new_callback tags pc upp) (solver M)) = None)
    ∧ (reported_improving pc (solver M) →
       ∃ before w after,
         solver M = before ++ w :: after
         ∧ (∀ w', w' ∈ before → sheets_total w pc < sheets_total w' pc)
         ∧ (∀ w', w' ∈ after → sheets_total w pc <= sheets_total w' pc)
         ∧ best_solution (run_callbacks float_zero round_waste
                            (new_callback tags pc upp) (solver M))
           = Some (materialize float_zero round_waste w tags pc upp)
         ∧ response = Solved (materialize float_zero round_waste w tags pc upp)).
Proof.
  intros HM. unfold solve_plate_optimization. rewrite HM. simpl.
  pose proof (reported_improving_iff pc (solver M)) as Himp.
  destruct (decide (solver M = [])) as [Hnil|Hne].
  - rewrite Hnil in *. simpl. do 2 eexists. split; [done|].
    split; [split; [intros _; rewrite Himp; tauto|done]|].
    split; [done|]. split; [done|]. intros Hrep%Himp. done.
  - destruct (run_callbacks_first float_zero round_waste tags pc upp _ Hne)
      as (before & w & after & Heq & Hsol & _ & Hlt & Hle).
    rewrite Hsol. do 2 eexists. split; [done|].
    split; [split; [discriminate|intros Hno; exfalso; apply Hno, Himp, Hne]|].
    split; [done|]. split; [split; discriminate|].
    intros _. by exists before, w, after.
Qed.

Lemma error_iff_no_best_solution_witness :
  ∃ M, build_model three_tags 4 2 [] = Ok M
       ∧ ∃ outputs response,
           solve_plate_optimization 0 exact_round_waste
             (λ _, [one_plate_assignment; split_assignment]) three_tags 4 2 []
           = Ok (SolveWithSolutionCallback M :: outputs, response)
           ∧ (response = ErrorObject "No solution found"
              ↔ ¬ reported_improving 2 [one_plate_assignment; split_assignment])
           ∧ response
             = Solved (materialize 0 exact_round_waste split_assignment three_tags 2 4).
Proof.
  eexists. split; [reflexivity|].
  destruct (error_iff_no_best_solution 0 exact_round_waste
              (λ _, [one_plate_assignment; split_assignment]) three_tags 4 2 [] _
              eq_refl)
    as (outputs & response & Hsolve & Herr & _).
  exists outputs, response. split; [exact Hsolve|]. split; [exact Herr|].
  vm_compute in Hsolve. by injection Hsolve as _ <-.
Defined.

(** ** Zero-quantity tags *)




(** ** Degenerate instances *)

(** C9, as stated, fails.  With one tag of 10 pieces, one plate and zero ups
    per plate, seeded as the greedy seeder seeds it, no assignment satisfies
    the model; the solver is nevertheless called with it, and when it reports
    nothing the return value is the ordinary no-solution object.  The same
    happens for a plate count of zero. *)
Lemma zero_ups_reaches_the_solver :
  greedy_initialize exact_round_share 1 [plain_tag 10] 0 1
  = Ok [(plain_tag 10, 0%nat, 1)]
  ∧ (∃ M, build_model [plain_tag 10] 0 1 [(plain_tag 10, 0%nat, 1)] = Ok M
        ∧ (¬ ∃ w, feasible w M)
        ∧ solve_plate_optimization 0 exact_round_waste (λ _, [])
            [plain_tag 10] 0 1 [(plain_tag 10, 0%nat, 1)]
          = Ok ([SolveWithSolutionCallback M; NoSolutionWasFound],
                ErrorObject "No solution found"))
  ∧ (∃ M, build_model [plain_tag 10] 4 0 [] = Ok M
          ∧ (¬ ∃ w, feasible w M)
          ∧ solve_plate_optimization 0 exact_round_waste (λ _, [])
              [plain_tag 10] 4 0 []
            = Ok ([SolveWithSolutionCallback M; NoSolutionWasFound],
                  ErrorObject "No solution found")).
Proof.
  split; [reflexivity|].
  split; (eexists; split; [reflexivity|]; split; [|reflexivity]).
  - intros [w Hw]. apply Forall_forall with (x := NewIntVar (ups_vars 0) 1 0) in Hw.
    + simpl in Hw. lia.
    + apply list_elem_of_further, list_elem_of_here.
  - intros [w Hw]. apply Forall_forall with (x := NewIntVar (tag_to_plate 0) 0 (-1)) in Hw.
    + simpl in Hw. lia.
    + apply list_elem_of_here.
Qed.

(** C9, as the code has it: a plate count or an ups-per-plate of zero is not
    checked.  Whenever the model is built, the solver is called with it like
    for any other instance; the return value is the error object when the
    solver reports nothing, as for any search that found nothing, and
    otherwise the full solution recorded for the first reported assignment of
    least total sheets.  With at least one tag the model has no satisfying
    assignment, so a sound solver leads to the error object. *)
Theorem degenerate_instance_is_not_rejected {Float : Type} (float_zero : Float)
    (round_waste : Z → Z → Float) solver tags upp pc seed M :
  pc = 0 ∨ upp = 0 → build_model tags upp pc seed = Ok M →
  ∃ outputs response,
    solve_plate_optimization float_zero round_waste solver tags upp pc seed
    = Ok (SolveWithSolutionCallback M :: outputs, response)
    ∧ (solver M = [] →
       outputs = [NoSolutionWasFound] ∧ response = ErrorObject "No solution found")
    ∧ (solver M ≠ [] →
       ∃ before w after,
         solver M = before ++ w :: after
         ∧ (∀ w', w' ∈ before → sheets_total w pc < sheets_total w' pc)
         ∧ (∀ w', w' ∈ after → sheets_total w pc <= sheets_total w' pc)
         ∧ response = Solved (materialize float_zero round_waste w tags pc upp))
    ∧ (tags ≠ [] →
       (∀ w, ¬ feasible w M)
       ∧ (sound_solver solver → response = ErrorObject "No solution found")).
Proof.
  intros Hzero HM.
  assert (tags ≠ [] → ∀ w, ¬ feasible w M) as Hinfeasible.
  { intros Htags w Hw.
    assert (0 < length tags)%nat as Hpos by (destruct tags; simpl; [done|lia]).
    destruct Hzero as [-> | ->].
    - pose proof (feasible_stmt _ _ Hw _
                    (tag_to_plate_in_model _ _ _ _ _ HM 0%nat Hpos)) as H.
      simpl in H. lia.
    - pose proof (feasible_stmt _ _ Hw _
                    (ups_vars_in_model _ _ _ _ _ HM 0%nat Hpos)) as H.
      simpl in H. lia. }
  unfold solve_plate_optimization. rewrite HM. simpl.
  destruct (decide (solver M = [])) as [Hnil|Hne].
  - rewrite Hnil. simpl. do 2 eexists. split; [done|]. split; [done|].
    split; [done|]. intros Htags. split; [by apply Hinfeasible|done].
  - destruct (run_callbacks_first float_zero round_waste tags pc upp _ Hne)
      as (before & w & after & Heq & Hsol & _ & Hlt & Hle).
    rewrite Hsol. do 2 eexists. split; [done|]. split; [done|].
    split; [intros _; by exists before, w, after|].
    intros Htags. split; [by apply Hinfeasible|].
    intros Hsound. destruct (Hinfeasible Htags w). apply Hsound.
    rewrite Heq. apply elem_of_app. right. left.
Qed.

Lemma degenerate_instance_is_not_rejected_witness :
  ((0 : Z) = 0 ∨ (4 : Z) = 0)
  ∧ ∃ M, build_model [plain_tag 10] 4 0 [] = Ok M
         ∧ ∃ outputs response,
             solve_plate_optimization 0 exact_round_waste (λ _, []) [plain_tag 10] 4 0 []
             = Ok (SolveWithSolutionCallback M :: outputs, response)
             ∧ response = ErrorObject "No solution found"
             ∧ ∀ w, ¬ feasible w M.
Proof.
  assert ((0 : Z) = 0 ∨ (4 : Z) = 0) as Hzero by (left; reflexivity).
  split; [exact Hzero|]. eexists. split; [reflexivity|].
  destruct (degenerate_instance_is_not_rejected 0 exact_round_waste (λ _, [])
              [plain_tag 10] 4 0 [] _ Hzero eq_refl)
    as (outputs & response & Hsolve & Hnone & _ & Hinfeasible).
  exists outputs, response. split; [exact Hsolve|].
  split; [exact (proj2 (Hnone eq_refl))|]. by apply Hinfeasible.
Defined.

(** ** Termination of the apportioning *)

(** C10: for a non-empty group of positive total quantity and
    [ups_per_plate >= 1], [assign_ups_proportional] terminates: from some
    fuel on it returns one and the same list.  An iteration of the first loop
    raises the sum by exactly 1, and the loop stops at [ups_per_plate]; an
    iteration of the second loop lowers the sum by exactly 1, or leaves the
    loop because the largest value is at most 1. *)
Theorem assign_ups_proportional_terminates round_share group upp :
  group ≠ [] → 0 < py_sum (QTY <$> group) → 1 <= upp →
  (∃ n ups_list,
     (∀ fuel, (n ≤ fuel)%nat →
        assign_ups_proportional round_share fuel group upp = Ok ups_list)
     ∧ length ups_list = length group
     ∧ Forall (λ u, 1 <= u) ups_list
     ∧ (py_sum ups_list = upp
        ∨ (upp < py_sum ups_list ∧ Forall (λ u, u = 1) ups_list)))
  ∧ (∀ raw_ups, raw_ups ≠ [] →
       ∃ raw_ups', inc_step raw_ups = Ok raw_ups'
                   ∧ py_sum raw_ups' = py_sum raw_ups + 1)
  ∧ (∀ raw_ups, raw_ups ≠ [] → py_sum raw_ups <= upp →
       ∃ n raw_ups', (∀ fuel, (n ≤ fuel)%nat →
                        inc_loop fuel upp raw_ups = Ok raw_ups')
                     ∧ py_sum raw_ups' = upp)
  ∧ (∀ raw_ups, raw_ups ≠ [] →
       (∃ raw_ups', dec_step raw_ups = Ok (Continue raw_ups')
                    ∧ py_sum raw_ups' = py_sum raw_ups - 1)
       ∨ (dec_step raw_ups = Ok (Break raw_ups)
          ∧ ∃ m, py_max raw_ups = Ok m ∧ m <= 1)).
Proof.
  intros Hne Htotal Hupp. split; [|split; [|split]].
  - apply assign_ups_proportional_spec; [done|lia].
  - intros raw Hraw. destruct (inc_step_spec raw Hraw) as (raw' & ? & ? & _).
    by exists raw'.
  - intros raw Hraw Hle.
    destruct (inc_loop_spec upp _ raw Hraw (le_n _)) as (raw' & Hinc & Hsum & _).
    exists (Z.to_nat (upp - py_sum raw)), raw'. split; [|lia].
    intros fuel Hfuel. by apply (inc_loop_mono upp _ fuel _ _ Hinc).
  - intros raw Hraw.
    destruct (dec_step_spec raw Hraw) as [(raw' & ? & ? & _)|(? & ? & _)].
    + left. by exists raw'.
    + by right.
Qed.

Lemma assign_ups_proportional_terminates_witness :
  uneven_tags ≠ [] ∧ 0 < py_sum (QTY <$> uneven_tags) ∧ 1 <= 10
  ∧ assign_ups_proportional exact_round_share 0 uneven_tags 10 = OutOfFuel
  ∧ assign_ups_proportional exact_round_share 1 uneven_tags 10 = Ok [8; 1; 1]
  ∧ (∃ n ups_list,
       (∀ fuel, (n ≤ fuel)%nat →
          assign_ups_proportional exact_round_share fuel uneven_tags 10 = Ok ups_list)
       ∧ length ups_list = length uneven_tags
       ∧ Forall (λ u, 1 <= u) ups_list
       ∧ (py_sum ups_list = 10
          ∨ (10 < py_sum ups_list ∧ Forall (λ u, u = 1) ups_list)))
  ∧ (∃ raw_ups', inc_step [3; 1; 2] = Ok raw_ups'
                 ∧ py_sum raw_ups' = py_sum [3; 1; 2] + 1)
  ∧ (∃ n raw_ups', (∀ fuel, (n ≤ fuel)%nat →
                      inc_loop fuel 10 [3; 1; 2] = Ok raw_ups')
                   ∧ py_sum raw_ups' = 10)
  ∧ ((∃ raw_ups', dec_step [9; 1; 1] = Ok (Continue raw_ups')
                  ∧ py_sum raw_ups' = py_sum [9; 1; 1] - 1)
     ∨ (dec_step [9; 1; 1] = Ok (Break [9; 1; 1])
        ∧ ∃ m, py_max [9; 1; 1] = Ok m ∧ m <= 1)).
Proof.
  assert (uneven_tags ≠ []) as Hne by discriminate.
  assert (0 < py_sum (QTY <$> uneven_tags)) as Htotal by (vm_compute; reflexivity).
  assert (1 <= 10) as Hupp by lia.
  split; [exact Hne|]. split; [exact Htotal|]. split; [exact Hupp|].
  split; [vm_compute; reflexivity|]. split; [vm_compute; reflexivity|].
  destruct (assign_ups_proportional_terminates exact_round_share uneven_tags 10
              Hne Htotal Hupp) as (Hrun & Hinc & Hloop & Hdec).
  split; [exact Hrun|]. split; [by apply Hinc|].
  split; [apply Hloop; [done|vm_compute; discriminate]|]. by apply Hdec.
Defined.

(** * Further facts about the seeder *)

(** ** When the loops and the apportioning raise *)




Section AssignMore.
Context (round_share : Z → Z → Z → Z).

Lemma raw_ups_of_zero_total group upp :
  group ≠ [] → py_sum (QTY <$> group) = 0 →
  raw_ups_of round_share group upp = Raise ZeroDivisionError.
Proof.
  intros Hne Hzero. unfold raw_ups_of. rewrite Hzero.
  destruct group as [|item group]; [done|]. simpl. done.
Qed.

Lemma assign_ups_proportional_mono fuel fuel' group upp ups_list :
  assign_ups_proportional round_share fuel group upp = Ok ups_list →
  (fuel ≤ fuel')%nat →
  assign_ups_proportional round_share fuel' group upp = Ok ups_list.
Proof.
  unfold assign_ups_proportional. intros Hrun Hle.
  destruct (raw_ups_of _ _ _) as [raw0| |]; simpl in *; try discriminate.
  destruct (inc_loop fuel _ _) as [raw1| |] eqn:Hinc; simpl in *; try discriminate.
  rewrite (inc_loop_mono upp fuel fuel' _ _ Hinc Hle). simpl.
  by apply (dec_loop_mono upp fuel fuel').
Qed.


Lemma py_sum_at_least_length (l : list Z) :
  Forall (λ u, 1 <= u) l → Z.of_nat (length l) <= py_sum l.
Proof.
  induction 1 as [|x l Hx Hl IH]; [done|]. rewrite py_sum_cons. simpl length. lia.
Qed.

Lemma py_sum_ones (l : list Z) : Forall (λ u, u = 1) l → py_sum l = Z.of_nat (length l).
Proof.
  induction 1 as [|x l Hx Hl IH]; [done|]. rewrite py_sum_cons. simpl length. lia.
Qed.

(** What a returned list of ups looks like. *)
Lemma assign_ups_proportional_returned fuel group upp ups_list :
  assign_ups_proportional round_share fuel group upp = Ok ups_list → group ≠ [] →
  length ups_list = length group
  ∧ Forall (λ u, 1 <= u) ups_list
  ∧ (Z.of_nat (length group) <= upp → py_sum ups_list = upp)
  ∧ (upp < Z.of_nat (length group) → Forall (λ u, u = 1) ups_list).
Proof.
  intros Hrun Hne.
  assert (py_sum (QTY <$> group) ≠ 0) as Hnz.
  { intros Hzero. unfold assign_ups_proportional in Hrun.
    by rewrite raw_ups_of_zero_total in Hrun. }
  destruct (assign_ups_proportional_spec round_share group upp Hne Hnz)
    as (n & r & Hr & Hlen & Hall & Hsum).
  assert (r = ups_list) as ->.
  { pose proof (assign_ups_proportional_mono fuel (fuel `max` n) _ _ _ Hrun
                  ltac:(lia)) as H1.
    rewrite (Hr (fuel `max` n)%nat) in H1 by lia. by injection H1. }
  split; [done|]. split; [done|].
  pose proof (py_sum_at_least_length _ Hall) as Hlow. rewrite Hlen in Hlow.
  split.
  - intros Hfits. destruct Hsum as [?|[Hgt Hones]]; [done|].
    apply py_sum_ones in Hones. lia.
  - intros Hover. destruct Hsum as [Heq|[_ Hones]]; [lia|done].
Qed.
End AssignMore.

(** ** The shape of a partition *)

Lemma first_pass_Ok tags pc st :
  foldM place (empty_partition pc) (sorted_desc tags) = Ok st →
  length st.1 = Z.to_nat pc ∧ length st.2 = Z.to_nat pc ∧ mjoin st.1 ≡ₚ tags.
Proof.
  intros Hst.
  apply (foldM_invariant place
           (λ seen st, length st.1 = Z.to_nat pc ∧ length st.2 = Z.to_nat pc
                       ∧ mjoin st.1 ≡ₚ seen)) in Hst.
  - destruct Hst as (? & ? & Hperm). by rewrite sorted_desc_Permutation in Hperm.
  - unfold empty_partition. simpl. by rewrite !length_replicate, join_replicate_nil.
  - intros seen x t t' (Hl1 & Hl2 & Hperm) Hplace.
    pose proof Hplace as [Hlen' Hperm']%place_Ok; [|congruence].
    unfold place in Hplace.
    destruct (index_of_min t.2) as [k| |]; simpl in Hplace; try discriminate.
    injection Hplace as <-. simpl in *. rewrite !length_alter.
    split; [done|]. split; [done|].
    rewrite Hperm', Hperm. apply Permutation_cons_append.
Qed.

Lemma second_pass_Ok st st' :
  foldM repair_step st (seq 0 (length st.1)) = Ok st' →
  length st.1 = length st.2 →
  length st'.1 = length st.1 ∧ mjoin st'.1 ≡ₚ mjoin st.1.
Proof.
  intros Hst' Hlen.
  apply (foldM_invariant repair_step
           (λ _ t, length t.1 = length t.2 ∧ length t.1 = length st.1
                   ∧ mjoin t.1 ≡ₚ mjoin st.1)) in Hst'.
  - by destruct Hst' as (_ & ? & ?).
  - done.
  - intros _ i t t' (Hl & Hn & Hp) Hstep.
    pose proof Hstep as [Hl' Hp']%repair_step_Ok; [|done].
    split; [done|]. split; [|by rewrite Hp'].
    unfold repair_step in Hstep. destruct (t.1 !! i) as [g|]; [|discriminate].
    destruct g as [|single [|other g]]; try (by injection Hstep as <-).
    unfold place in Hstep.
    destruct (index_of_min _) as [k| |]; simpl in Hstep; try discriminate.
    injection Hstep as <-. simpl. by rewrite length_alter, length_insert.
Qed.

Lemma initial_balanced_partition_Ok tags pc parts :
  initial_balanced_partition tags pc = Ok parts →
  length parts = Z.to_nat pc ∧ mjoin parts ≡ₚ tags.
Proof.
  unfold initial_balanced_partition.
  destruct (foldM place _ _) as [st| |] eqn:Hst; simpl; try discriminate.
  intros [= <-]. by apply first_pass_Ok in Hst as (? & _ & ?).
Qed.

Lemma initial_balanced_partition_no_singles_Ok tags pc parts :
  initial_balanced_partition_no_singles tags pc = Ok parts →
  length parts = Z.to_nat pc ∧ mjoin parts ≡ₚ tags.
Proof.
  unfold initial_balanced_partition_no_singles.
  destruct (foldM place _ _) as [st| |] eqn:Hst; simpl; try discriminate.
  destruct (foldM repair_step _ _) as [st'| |] eqn:Hst'; simpl; try discriminate.
  intros [= <-]. apply first_pass_Ok in Hst as (Hl1 & Hl2 & Hperm).
  apply second_pass_Ok in Hst' as [Hl' Hperm']; [|congruence].
  split; [congruence|]. by rewrite Hperm'.
Qed.

Lemma seed_partition_length tags pc parts :
  seed_partition tags pc = Ok parts → length parts = Z.to_nat pc.
Proof.
  unfold seed_partition. case_decide.
  - by intros [? _]%initial_balanced_partition_no_singles_Ok.
  - by intros [? _]%initial_balanced_partition_Ok.
Qed.

(** ** No plates, or no tags *)

Lemma sorted_desc_nil tags : sorted_desc tags = [] → tags = [].
Proof.
  intros Hnil. pose proof (sorted_desc_Permutation tags) as Hperm.
  rewrite Hnil in Hperm. by apply Permutation_nil_l in Hperm.
Qed.

Lemma first_pass_no_plates tags pc :
  pc <= 0 → tags ≠ [] →
  foldM place (empty_partition pc) (sorted_desc tags) = Raise ValueError.
Proof.
  intros Hpc Htags. unfold empty_partition.
  replace (Z.to_nat pc) with 0%nat by lia. simpl.
  destruct (sorted_desc tags) as [|t l] eqn:Hs; [by apply sorted_desc_nil in Hs|].
  done.
Qed.

Lemma second_pass_empty_plates (n : nat) loads indices :
  Forall (λ i, i < n)%nat indices →
  foldM repair_step (replicate n [], loads) indices = Ok (replicate n [], loads).
Proof.
  induction 1 as [|i indices Hi _ IH]; [done|].
  cbn [foldM].
  assert (repair_step (replicate n [], loads) i = Ok (replicate n [], loads)) as ->.
  { unfold repair_step. cbn [fst snd]. by rewrite lookup_replicate_2. }
  exact IH.
Qed.

Lemma seed_partition_no_tags pc :
  seed_partition [] pc = Ok (replicate (Z.to_nat pc) [])
  ∧ initial_balanced_partition [] pc = Ok (replicate (Z.to_nat pc) [])
  ∧ initial_balanced_partition_no_singles [] pc = Ok (replicate (Z.to_nat pc) []).
Proof.
  assert (initial_balanced_partition_no_singles [] pc
          = Ok (replicate (Z.to_nat pc) [])) as Hrepair.
  { unfold initial_balanced_partition_no_singles, empty_partition. simpl.
    rewrite second_pass_empty_plates; [done|].
    apply Forall_forall. intros i Hi%elem_of_seq. rewrite length_replicate in Hi. lia. }
  assert (initial_balanced_partition [] pc = Ok (replicate (Z.to_nat pc) [])) as Hplain
    by done.
  split; [|done]. unfold seed_partition. by case_decide.
Qed.

Lemma seed_partition_no_plates tags pc :
  pc <= 0 → tags ≠ [] →
  seed_partition tags pc = Raise ValueError
  ∧ initial_balanced_partition tags pc = Raise ValueError
  ∧ initial_balanced_partition_no_singles tags pc = Raise ValueError.
Proof.
  intros Hpc Htags.
  assert (initial_balanced_partition tags pc = Raise ValueError) as H1.
  { unfold initial_balanced_partition. by rewrite first_pass_no_plates. }
  assert (initial_balanced_partition_no_singles tags pc = Raise ValueError) as H2.
  { unfold initial_balanced_partition_no_singles. by rewrite first_pass_no_plates. }
  split; [|done]. unfold seed_partition. by case_decide.
Qed.


(** Both functions return when there is a plate, or no tag. *)
Lemma partitions_return tags pc :
  1 <= pc ∨ tags = [] →
  (∃ parts, initial_balanced_partition tags pc = Ok parts)
  ∧ (∃ parts, initial_balanced_partition_no_singles tags pc = Ok parts).
Proof.
  intros [Hpc| ->].
  - destruct (foldM_place_spec (sorted_desc tags) (empty_partition pc))
      as (st & Hst & Hl1 & Hl2 & _); unfold empty_partition in *; cbn [fst snd] in *.
    { by rewrite !length_replicate. }
    { destruct (Z.to_nat pc) eqn:?; [lia|done]. }
    destruct (foldM_repair_spec (seq 0 (length st.1)) st) as (st' & Hst' & _).
    { rewrite Hl1, Hl2. by rewrite !length_replicate. }
    { apply Forall_forall. intros i Hi%elem_of_seq. lia. }
    unfold initial_balanced_partition, initial_balanced_partition_no_singles,
      empty_partition.
    rewrite Hst. simpl. rewrite Hst'. simpl. split; by eexists.
  - destruct (seed_partition_no_tags pc) as (_ & -> & ->). split; by eexists.
Qed.

(** ** The seed, plate by plate *)

(** As [foldM_invariant], with the position of the element in the list. *)
Lemma foldM_invariant_prefix {A S : Type} (body : S → A → Result S)
    (Inv : list A → S → Prop) l s s' :
  Inv [] s →
  (∀ seen x rest t t',
     l = seen ++ x :: rest → Inv seen t → body t x = Ok t' → Inv (seen ++ [x]) t') →
  foldM body s l = Ok s' → Inv l s'.
Proof.
  intros Hinit Hstep.
  assert (∀ rest seen t, l = seen ++ rest → Inv seen t →
                         foldM body t rest = Ok s' → Inv l s') as Hgen.
  { induction rest as [|x rest IH]; intros seen t Hl Hinv Hrun; simpl in Hrun.
    - injection Hrun as <-. by rewrite Hl, app_nil_r.
    - destruct (body t x) as [t1| |] eqn:Hbody; simpl in Hrun; try discriminate.
      apply (IH (seen ++ [x]) t1); [by rewrite <-app_assoc| |done].
      by eapply Hstep. }
  by apply (Hgen l [] s).
Qed.

Lemma filter_zip_with_plate (p q : nat) (group : list Tag) (ups_list : list Z) :
  filter (λ e : SeedEntry, e.1.2 = p)
    (zip_with (λ tag ups, (tag, q, ups)) group ups_list : list SeedEntry)
  = if decide (q = p) then zip_with (λ tag ups, (tag, q, ups)) group ups_list else [].
Proof.
  revert ups_list. induction group as [|t group IH]; intros [|u us]; simpl;
    try (by case_decide).
  rewrite filter_cons, IH. simpl. by case_decide.
Qed.

Lemma zip_with_seed_snd (p : nat) (group : list Tag) (ups_list : list Z) :
  length ups_list = length group →
  snd <$> zip_with (λ tag ups, (tag, p, ups)) group ups_list = ups_list.
Proof.
  revert ups_list. induction group as [|t group IH]; intros [|u us] Hlen;
    simplify_eq/=; [done|]. f_equal. by apply IH.
Qed.

Lemma zip_with_seed_length (p : nat) (group : list Tag) (ups_list : list Z) :
  length ups_list = length group →
  length (zip_with (λ tag ups, (tag, p, ups)) group ups_list) = length group.
Proof.
  revert ups_list. induction group as [|t group IH]; intros [|u us] Hlen;
    simplify_eq/=; [done|]. f_equal. by apply IH.
Qed.

Lemma imap_index_NoDup {A} (l : list A) : NoDup ((imap (λ i g, (i, g)) l).*1).
Proof.
  rewrite fmap_imap, (imap_ext _ (λ i _, id i)) by done.
  rewrite (imap_seq_0 l id), list_fmap_id. apply NoDup_seq.
Qed.

Section SeedMore.
Context (round_share : Z → Z → Z → Z).

Lemma seed_group_Ok fuel upp acc q g acc' :
  seed_group round_share fuel upp acc (q, g) = Ok acc' →
  (g = [] ∧ acc' = acc)
  ∨ (g ≠ []
     ∧ ∃ ups_list,
         assign_ups_proportional round_share fuel g upp = Ok ups_list
         ∧ acc' = acc ++ zip_with (λ tag ups, (tag, q, ups)) g ups_list).
Proof.
  destruct g as [|t g]; [intros [= <-]; by left|].
  unfold seed_group.
  destruct (assign_ups_proportional _ _ _ _) as [ups_list| |]; try discriminate.
  intros [= <-]. right. split; [done|]. by exists ups_list.
Qed.

(** The entries of a plate in the seed are the plate's group zipped with the
    ups apportioned to it. *)
Lemma greedy_initialize_plate fuel tags upp pc seed p :
  greedy_initialize round_share fuel tags upp pc = Ok seed →
  let entries := filter (λ e : SeedEntry, e.1.2 = p) seed in
  entries = []
  ∨ ((p < Z.to_nat pc)%nat
     ∧ ∃ group ups_list,
         group ≠ []
         ∧ assign_ups_proportional round_share fuel group upp = Ok ups_list
         ∧ entries = zip_with (λ tag ups, (tag, p, ups)) group ups_list).
Proof.
  unfold greedy_initialize.
  destruct (seed_partition tags pc) as [parts| |] eqn:Hparts; simpl; try discriminate.
  apply seed_partition_length in Hparts. intros Hseed.
  apply (foldM_invariant_prefix (seed_group round_share fuel upp)
    (λ seen acc,
       (¬ p ∈ seen.*1 → filter (λ e : SeedEntry, e.1.2 = p) acc = [])
       ∧ (filter (λ e : SeedEntry, e.1.2 = p) acc = []
          ∨ ((p < Z.to_nat pc)%nat
             ∧ ∃ group ups_list,
                 group ≠ []
                 ∧ assign_ups_proportional round_share fuel group upp = Ok ups_list
                 ∧ filter (λ e : SeedEntry, e.1.2 = p) acc
                   = zip_with (λ tag ups, (tag, p, ups)) group ups_list)))) in Hseed.
  - by destruct Hseed.
  - split; [done|by left].
  - intros seen [q g] rest acc acc' Hl [Hfresh Hinv] Hstep.
    assert (NoDup ((seen ++ (q, g) :: rest).*1)) as Hnd.
    { rewrite <-Hl. apply imap_index_NoDup. }
    assert (q < Z.to_nat pc)%nat as Hq.
    { assert ((q, g) ∈ imap (λ i g, (i, g)) parts) as Hin.
      { rewrite Hl. apply elem_of_app. right. left. }
      apply elem_of_lookup_imap in Hin as (i & g' & [= -> ->] & Hi).
      rewrite <-Hparts. by eapply lookup_lt_Some. }
    rewrite fmap_app in Hnd. simpl in Hnd.
    apply NoDup_app in Hnd as (_ & Hdisj & _).
    assert (q ∉ seen.*1) as Hqseen.
    { intros Hin. apply (Hdisj q Hin). left. }
    rewrite fmap_app.
    apply seed_group_Ok in Hstep as [[-> ->]|(Hg & ups_list & Hassign & ->)].
    + split; [|done].
      intros Hp. apply Hfresh. intros Hin. apply Hp, elem_of_app. by left.
    + rewrite filter_app, (filter_zip_with_plate p q g ups_list).
      case_decide as Hpq.
      * subst q. rewrite (Hfresh Hqseen). simpl. split.
        -- intros Hp. exfalso. apply Hp, elem_of_app. right. left.
        -- right. split; [done|]. by exists g, ups_list.
      * rewrite app_nil_r. split; [|done].
        intros Hp. apply Hfresh. intros Hin. apply Hp, elem_of_app. by left.
Qed.

Lemma greedy_initialize_plate_index fuel tags upp pc seed :
  greedy_initialize round_share fuel tags upp pc = Ok seed →
  Forall (λ e : SeedEntry, (e.1.2 < Z.to_nat pc)%nat) seed.
Proof.
  intros Hseed. apply Forall_forall. intros e He.
  destruct (greedy_initialize_plate fuel tags upp pc seed e.1.2 Hseed)
    as [Hnil|(Hp & _)]; [|done].
  assert (e ∈ filter (λ e' : SeedEntry, e'.1.2 = e.1.2) seed) as Hin
    by (by apply list_elem_of_filter).
  rewrite Hnil in Hin. by apply not_elem_of_nil in Hin.
Qed.

End SeedMore.

(** ** Loads during the first pass *)

Lemma py_index_Ok_first x l k :
  py_index x l = Ok k → ∀ k' y, (k' < k)%nat → l !! k' = Some y → y ≠ x.
Proof.
  revert k. induction l as [|z l IH]; intros k; simpl; [discriminate|].
  case_decide as Hz; [intros [= <-]; lia|].
  destruct (py_index x l) as [k0| |] eqn:Hk0; simpl; try discriminate.
  intros [= <-] [|k'] y Hk' Hy; simplify_eq/=; [done|].
  apply (IH k0 eq_refl k' y); [lia|done].
Qed.

Lemma index_of_min_Ok_spec l k :
  index_of_min l = Ok k →
  ∃ m, l !! k = Some m ∧ (∀ y, y ∈ l → m <= y)
       ∧ ∀ k' y, (k' < k)%nat → l !! k' = Some y → y ≠ m.
Proof.
  unfold index_of_min. destruct l as [|x l]; [discriminate|].
  intros Hk. change (py_index (min_from x l) (x :: l) = Ok k) in Hk.
  exists (min_from x l). split; [by apply py_index_Ok|].
  split; [apply min_from_spec|]. by apply py_index_Ok_first.
Qed.

Lemma place_Ok_at st tag st' :
  place st tag = Ok st' →
  ∃ k m, st.2 !! k = Some m ∧ (∀ y, y ∈ st.2 → m <= y)
         ∧ (∀ k' y, (k' < k)%nat → st.2 !! k' = Some y → y ≠ m)
         ∧ st' = (alter (λ g, g ++ [tag]) k st.1,
                  alter (λ load, load + QTY tag) k st.2).
Proof.
  unfold place. destruct (index_of_min st.2) as [k| |] eqn:Hk; simpl; try discriminate.
  intros [= <-]. apply index_of_min_Ok_spec in Hk as (m & ? & ? & ?).
  by exists k, m.
Qed.

Lemma group_load_snoc g tag : group_load (g ++ [tag]) = group_load g + QTY tag.
Proof. unfold group_load. rewrite fmap_app, py_sum_app. simpl. unfold py_sum. simpl. lia. Qed.

Lemma group_load_nonneg g : Forall (λ t, 0 <= QTY t) g → 0 <= group_load g.
Proof.
  unfold group_load. induction 1 as [|t g Ht _ IH]; [done|].
  rewrite fmap_cons, py_sum_cons. lia.
Qed.

Lemma group_load_pos g : Forall (λ t, 0 < QTY t) g → g ≠ [] → 0 < group_load g.
Proof.
  intros Hall Hne. destruct Hall as [|t g Ht Hg]; [done|].
  unfold group_load. rewrite fmap_cons, py_sum_cons.
  assert (0 <= group_load g) by (apply group_load_nonneg; eapply Forall_impl; [done|];
                                  simpl; intros; lia).
  unfold group_load in *. lia.
Qed.

(** The loads are the totals of the groups. *)
Lemma place_loads_match st tag st' :
  place st tag = Ok st' →
  Forall2 (λ g load, load = group_load g) st.1 st.2 →
  Forall2 (λ g load, load = group_load g) st'.1 st'.2.
Proof.
  intros (k & m & _ & _ & _ & ->)%place_Ok_at Hmatch. simpl.
  apply Forall2_alter; [done|]. intros g load _ _ ->. by rewrite group_load_snoc.
Qed.

Lemma first_pass_loads_match tags pc st :
  foldM place (empty_partition pc) (sorted_desc tags) = Ok st →
  Forall2 (λ g load, load = group_load g) st.1 st.2.
Proof.
  intros Hst.
  apply (foldM_invariant place
           (λ _ st, Forall2 (λ g load, load = group_load g) st.1 st.2)) in Hst; [done| |].
  - unfold empty_partition. simpl. by apply Forall2_replicate.
  - intros _ x t t' Hmatch Hplace. by eapply place_loads_match.
Qed.

(** ** Positive quantities: the non-empty plates are the first ones *)

Lemma place_prefix st tag st' :
  place st tag = Ok st' → 0 < QTY tag →
  Forall2 (λ g load, load = group_load g) st.1 st.2 →
  Forall (Forall (λ t, 0 < QTY t)) st.1 →
  (∀ k' k g, (k' < k)%nat → st.1 !! k = Some g → g ≠ [] → st.1 !! k' ≠ Some []) →
  Forall (Forall (λ t, 0 < QTY t)) st'.1
  ∧ (∀ k' k g, (k' < k)%nat → st'.1 !! k = Some g → g ≠ [] → st'.1 !! k' ≠ Some []).
Proof.
  intros (k & m & Hm & Hmin & Hfirst & ->)%place_Ok_at Htag Hmatch Hpos Hprefix.
  simpl. split.
  - apply Forall_alter_intro; [done|]. intros g _ Hg.
    apply Forall_app. split; [done|]. by constructor.
  - intros k' k2 g2 Hlt Hg2 Hne2 Hk'.
    destruct (decide (k = k')) as [<-|Hkk'].
    { rewrite list_lookup_alter_eq in Hk'.
      destruct (st.1 !! k) as [g|]; simplify_eq/=. by destruct g. }
    rewrite list_lookup_alter_ne in Hk' by done.
    destruct (decide (k = k2)) as [<-|Hkk2].
    + destruct (Forall2_lookup_l _ _ _ _ _ Hmatch Hk') as (load & Hload & ->).
      change (group_load []) with 0 in Hload.
      assert (0 <= m).
      { destruct (Forall2_lookup_r _ _ _ _ _ Hmatch Hm) as (g & Hg & ->).
        apply group_load_nonneg. rewrite Forall_lookup in Hpos.
        eapply Forall_impl; [by eapply Hpos|]. simpl. intros; lia. }
      specialize (Hmin 0 (list_elem_of_lookup_2 _ _ _ Hload)).
      apply (Hfirst k' 0 Hlt Hload). lia.
    + rewrite list_lookup_alter_ne in Hg2 by done.
      by apply (Hprefix k' k2 g2).
Qed.

Lemma repair_step_unchanged st i :
  Forall2 (λ g load, load = group_load g) st.1 st.2 →
  Forall (Forall (λ t, 0 < QTY t)) st.1 →
  (∀ k' k g, (k' < k)%nat → st.1 !! k = Some g → g ≠ [] → st.1 !! k' ≠ Some []) →
  (i < length st.1)%nat →
  repair_step st i = Ok st.
Proof.
  intros Hmatch Hpos Hprefix Hi. destruct st as [plates loads]. simpl in *.
  destruct (lookup_lt_is_Some_2 _ _ Hi) as [g Hg].
  destruct g as [|single [|other g]];
    try (unfold repair_step; simpl; by rewrite Hg).
  destruct (Forall2_lookup_l _ _ _ _ _ Hmatch Hg) as (load & Hload & ->).
  rewrite (repair_step_puts_back plates loads i single).
  - do 2 f_equal. apply list_insert_id. rewrite Hload. f_equal.
    unfold group_load, py_sum. simpl. lia.
  - by eapply Forall2_length.
  - done.
  - intros k y Hy. destruct (Forall2_lookup_r _ _ _ _ _ Hmatch Hy) as (g & Hgk & ->).
    apply group_load_nonneg. rewrite Forall_lookup in Hpos.
    eapply Forall_impl; [by eapply Hpos|]. simpl. intros; lia.
  - intros k y Hk Hy. destruct (Forall2_lookup_r _ _ _ _ _ Hmatch Hy) as (g & Hgk & ->).
    apply group_load_pos.
    + rewrite Forall_lookup in Hpos. by eapply Hpos.
    + intros ->. by apply (Hprefix k i [single] Hk Hg).
Qed.

Lemma second_pass_unchanged st indices :
  Forall2 (λ g load, load = group_load g) st.1 st.2 →
  Forall (Forall (λ t, 0 < QTY t)) st.1 →
  (∀ k' k g, (k' < k)%nat → st.1 !! k = Some g → g ≠ [] → st.1 !! k' ≠ Some []) →
  Forall (λ i, i < length st.1)%nat indices →
  foldM repair_step st indices = Ok st.
Proof.
  intros Hmatch Hpos Hprefix. induction 1 as [|i indices Hi _ IH]; [done|].
  cbn [foldM]. by rewrite repair_step_unchanged.
Qed.

(** ** Balance of the loads *)

Lemma elem_of_alter_load (f : Z → Z) k (l : list Z) m x :
  l !! k = Some m → x ∈ alter f k l → x = f m ∨ x ∈ l.
Proof.
  intros Hm [j Hj]%list_elem_of_lookup.
  destruct (decide (k = j)) as [<-|Hne].
  - rewrite list_lookup_alter_eq, Hm in Hj. left. by injection Hj.
  - rewrite list_lookup_alter_ne in Hj by done. right. by eapply list_elem_of_lookup_2.
Qed.

Lemma place_balance Q st tag st' :
  place st tag = Ok st' → 0 <= QTY tag <= Q →
  (∀ x y, x ∈ st.2 → y ∈ st.2 → x - y <= Q) →
  ∀ x y, x ∈ st'.2 → y ∈ st'.2 → x - y <= Q.
Proof.
  intros (k & m & Hm & Hmin & _ & ->)%place_Ok_at Htag Hbal x y Hx Hy. simpl in *.
  pose proof (list_elem_of_lookup_2 _ _ _ Hm) as Hin.
  destruct (elem_of_alter_load _ _ _ m _ Hm Hx) as [->|Hx'];
    destruct (elem_of_alter_load _ _ _ m _ Hm Hy) as [->|Hy'].
  - lia.
  - specialize (Hmin y Hy'). lia.
  - specialize (Hbal x m Hx' Hin). lia.
  - by apply Hbal.
Qed.

(** * Further facts about the model *)

(** ** Sums *)

Lemma py_sum_ext {A} (f g : A → Z) (l : list A) :
  (∀ x, x ∈ l → f x = g x) → py_sum (f <$> l) = py_sum (g <$> l).
Proof.
  induction l as [|x l IH]; intros Hfg; [done|].
  rewrite !fmap_cons, !py_sum_cons, Hfg by left. rewrite IH; [done|].
  intros; apply Hfg; by right.
Qed.

Lemma py_sum_plus {A} (f g : A → Z) (l : list A) :
  py_sum ((λ x, f x + g x) <$> l) = py_sum (f <$> l) + py_sum (g <$> l).
Proof.
  induction l as [|x l IH]; [done|]. rewrite !fmap_cons, !py_sum_cons, IH. lia.
Qed.

Lemma py_sum_scale {A} (c : Z) (g : A → Z) (l : list A) :
  py_sum ((λ x, c * g x) <$> l) = c * py_sum (g <$> l).
Proof.
  induction l as [|x l IH]; [unfold py_sum; simpl; lia|].
  rewrite !fmap_cons, !py_sum_cons, IH. lia.
Qed.

Lemma py_sum_const {A} (c : Z) (l : list A) :
  py_sum ((λ _, c) <$> l) = c * Z.of_nat (length l).
Proof.
  induction l as [|x l IH]; [unfold py_sum; simpl; lia|].
  rewrite fmap_cons, py_sum_cons, IH. simpl length. lia.
Qed.

Lemma py_sum_nonneg (l : list Z) : Forall (λ x, 0 <= x) l → 0 <= py_sum l.
Proof. induction 1 as [|x l Hx _ IH]; [done|]. rewrite py_sum_cons. lia. Qed.

Lemma py_sum_Permutation (l k : list Z) : l ≡ₚ k → py_sum l = py_sum k.
Proof.
  induction 1 as [|x l k _ IH|x y l|l k m _ IH1 _ IH2];
    rewrite ?py_sum_cons; try done; lia.
Qed.

Lemma py_sum_indicator (c : Z) (j0 np : nat) :
  (j0 < np)%nat →
  py_sum ((λ j, if decide (j0 = j) then c else 0) <$> seq 0 np) = c.
Proof.
  induction np as [|np IH]; intros Hj; [lia|].
  rewrite seq_S, fmap_app, py_sum_app. simpl.
  change (py_sum [?x]) with (x + 0).
  destruct (decide (j0 = np)) as [->|Hne].
  - rewrite py_sum_zero; [lia|]. intros j Hj'%elem_of_seq. case_decide; [lia|done].
  - rewrite IH by lia. lia.
Qed.

(** A sum over a list is the sum, over the values of a key, of the sums over
    the elements with that key. *)
Lemma py_sum_by_key (f : nat → Z) (key : nat → nat) (l : list nat) (np : nat) :
  (∀ i, i ∈ l → (key i < np)%nat) →
  py_sum (f <$> l)
  = py_sum ((λ j, py_sum (f <$> filter (λ i, key i = j) l)) <$> seq 0 np).
Proof.
  induction l as [|x l IH]; intros Hkey.
  - symmetry. by apply py_sum_zero.
  - rewrite fmap_cons, py_sum_cons, IH by (intros; apply Hkey; by right).
    rewrite <-(py_sum_indicator (f x) (key x) np) at 1 by (apply Hkey; left).
    rewrite <-py_sum_plus. apply py_sum_ext. intros j _.
    rewrite filter_cons. case_decide; [|lia]. by rewrite fmap_cons, py_sum_cons.
Qed.

(** ** Every tag is on one plate *)

Section FeasibleMore.
Context (tags : list Tag) (upp pc : Z) (seed : list SeedEntry) (M : CpModel)
        (v : Valuation).
Hypothesis Hbuild : build_model tags upp pc seed = Ok M.
Hypothesis Hfeas : feasible v M.

Lemma tag_to_plate_range i :
  (i < length tags)%nat →
  0 <= v (tag_to_plate i) ∧ (Z.to_nat (v (tag_to_plate i)) < Z.to_nat pc)%nat.
Proof.
  intros Hi.
  pose proof (feasible_stmt _ _ Hfeas _ (tag_to_plate_in_model _ _ _ _ _ Hbuild i Hi)) as H.
  simpl in H. lia.
Qed.

Lemma ups_vars_range i : (i < length tags)%nat → 1 <= v (ups_vars i) <= upp.
Proof.
  intros Hi.
  exact (feasible_stmt _ _ Hfeas _ (ups_vars_in_model _ _ _ _ _ Hbuild i Hi)).
Qed.

Lemma plate_sheets_range j : (j < Z.to_nat pc)%nat → 1 <= v (plate_sheets j) <= 10000.
Proof.
  intros Hj.
  exact (feasible_stmt _ _ Hfeas _ (plate_sheets_in_model _ _ _ _ _ Hbuild j Hj)).
Qed.

Lemma total_ups_range j :
  (j < Z.to_nat pc)%nat → 0 <= v (total_ups_on_plate j) <= upp.
Proof.
  intros Hj.
  apply (occupancy_ok _ _ _ _ _ _ Hbuild Hfeas j
           (NewIntVar (total_ups_on_plate j) 0 upp) Hj).
  unfold occupancy_plate. apply elem_of_app. right. apply elem_of_app. left.
  apply list_elem_of_here.
Qed.

Lemma tags_on_plate_by_key j :
  (j < Z.to_nat pc)%nat →
  tags_on_plate v (length tags) j
  = filter (λ i, Z.to_nat (v (tag_to_plate i)) = j) (seq 0 (length tags)).
Proof.
  intros Hj. unfold tags_on_plate. apply filter_ext_elem.
  intros i Hi%elem_of_seq. destruct (tag_to_plate_range i ltac:(lia)) as [Hlo _].
  rewrite (tag_on_plate_iff _ _ _ _ _ _ Hbuild Hfeas i j) by lia. lia.
Qed.

(** A sum over the tags is the sum, over the plates, of the sums over the
    tags on each plate. *)
Lemma sum_over_plates (f : nat → Z) :
  py_sum (f <$> seq 0 (length tags))
  = py_sum ((λ j, py_sum (f <$> tags_on_plate v (length tags) j))
              <$> seq 0 (Z.to_nat pc)).
Proof.
  rewrite (py_sum_by_key f (λ i, Z.to_nat (v (tag_to_plate i))) _ (Z.to_nat pc)).
  - apply py_sum_ext. intros j Hj%elem_of_seq.
    by rewrite tags_on_plate_by_key by lia.
  - intros i Hi%elem_of_seq. by apply tag_to_plate_range; lia.
Qed.

Lemma ups_on_plate_used j :
  (j < Z.to_nat pc)%nat →
  ups_on_plate v (length tags) j = if decide (v (plate_used j) = 1) then upp else 0.
Proof.
  intros Hj. rewrite <-(total_ups_eq _ _ _ _ _ _ Hbuild Hfeas j Hj).
  case_decide as Hu; [by eapply total_ups_used|].
  eapply total_ups_unused; eauto.
  destruct (plate_used_bool _ _ _ _ _ _ Hbuild Hfeas j Hj); [done|lia].
Qed.

Lemma ups_per_plate_nonneg j : (j < Z.to_nat pc)%nat → 0 <= upp.
Proof. intros Hj. pose proof (total_ups_range j Hj). lia. Qed.

Lemma plate_usage i :
  (i < length tags)%nat →
  ∃ j, (j < Z.to_nat pc)%nat
       ∧ v (tag_to_plate i) = Z.of_nat j
       ∧ v (tag_on_plate i j) = 1
       ∧ v (plate_used j) = 1
       ∧ ∀ j', (j' < Z.to_nat pc)%nat → v (tag_on_plate i j') = 1 → j' = j.
Proof.
  intros Hi. destruct (tag_to_plate_range i Hi) as [Hlo Hhi].
  exists (Z.to_nat (v (tag_to_plate i))). split; [done|]. split; [lia|].
  assert (v (tag_on_plate i (Z.to_nat (v (tag_to_plate i)))) = 1) as Hon.
  { eapply tag_on_plate_iff; eauto. lia. }
  split; [done|]. split.
  - destruct (plate_used_bool _ _ _ _ _ _ Hbuild Hfeas _ Hhi) as [Hu|Hu]; [|done].
    pose proof (plate_unused_and _ _ _ _ _ _ Hbuild Hfeas _ i Hhi Hu Hi). lia.
  - intros j' Hj' Hon'. eapply tag_on_plate_iff in Hon'; eauto. lia.
Qed.

Lemma ups_total :
  py_sum ((λ i, v (ups_vars i)) <$> seq 0 (length tags))
  = upp * Z.of_nat (length (used_plates v pc)).
Proof.
  rewrite sum_over_plates.
  rewrite (py_sum_ext _ (λ j, if decide (v (plate_used j) = 1) then upp else 0)).
  - unfold used_plates.
    rewrite (py_sum_filter (λ j, v (plate_used j) = 1) _ (λ _, upp)) by done.
    apply py_sum_const.
  - intros j Hj%elem_of_seq. apply ups_on_plate_used. lia.
Qed.

Lemma tags_fit :
  Z.of_nat (length tags) <= upp * Z.of_nat (length (used_plates v pc))
  ∧ Z.of_nat (length tags) <= upp * Z.of_nat (Z.to_nat pc).
Proof.
  assert (Z.of_nat (length tags) <= upp * Z.of_nat (length (used_plates v pc))) as H1.
  { rewrite <-ups_total.
    pose proof (py_sum_lower (λ i, v (ups_vars i)) (seq 0 (length tags))) as Hlow.
    rewrite length_seq in Hlow. apply Hlow.
    intros i Hi%elem_of_seq. apply ups_vars_range. lia. }
  split; [done|].
  assert (length (used_plates v pc) ≤ Z.to_nat pc)%nat as Hused.
  { unfold used_plates. etrans; [apply length_filter|]. by rewrite length_seq. }
  destruct (Z.to_nat pc) as [|np] eqn:Hnp.
  - assert (length (used_plates v pc) = 0)%nat as H0 by lia. rewrite H0 in H1. lia.
  - pose proof (ups_per_plate_nonneg 0 ltac:(lia)). nia.
Qed.

End FeasibleMore.

(** ** Used plates *)

Section FeasibleUsage.
Context (tags : list Tag) (upp pc : Z) (seed : list SeedEntry) (M : CpModel)
        (v : Valuation).
Hypothesis Hbuild : build_model tags upp pc seed = Ok M.
Hypothesis Hfeas : feasible v M.

Lemma plate_used_iff j :
  (j < Z.to_nat pc)%nat →
  v (plate_used j) = 1
  ↔ ∃ i, (i < length tags)%nat ∧ v (tag_to_plate i) = Z.of_nat j.
Proof.
  intros Hj. split.
  - intros Hu. destruct (plate_used_or _ _ _ _ _ _ Hbuild Hfeas j Hj Hu) as (i & Hi & Hon).
    exists i. split; [done|]. by eapply tag_on_plate_iff.
  - intros (i & Hi & Hp).
    destruct (plate_usage _ _ _ _ _ _ Hbuild Hfeas i Hi) as (j' & _ & Hp' & _ & Hu & _).
    assert (j' = j) as -> by lia. done.
Qed.

Lemma sheets_on_used_le :
  upp * sheets_on v (used_plates v pc) <= upp * sheets_total v pc.
Proof.
  unfold sheets_on, used_plates, sheets_total.
  rewrite (py_sum_split (λ j, v (plate_used j) = 1) _ (seq 0 (Z.to_nat pc))).
  assert (0 <= py_sum ((λ j, v (plate_sheets j))
                         <$> filter (λ j, ¬ v (plate_used j) = 1) (seq 0 (Z.to_nat pc))))
    as Hunused.
  { apply py_sum_nonneg, Forall_fmap, Forall_forall.
    intros j [_ Hj%elem_of_seq]%list_elem_of_filter. simpl.
    pose proof (plate_sheets_range _ _ _ _ _ _ Hbuild Hfeas j ltac:(lia)). lia. }
  destruct (Z.to_nat pc) as [|np] eqn:Hnp.
  - simpl. lia.
  - pose proof (ups_per_plate_nonneg _ _ _ _ _ _ Hbuild Hfeas 0%nat ltac:(lia)). nia.
Qed.

End FeasibleUsage.

(** ** Hints *)

Lemma hints_ok v n (seed : list SeedEntry) hs :
  mapM (λ e, hint_entry n e.1 e.2) (imap (λ i e, (i, e)) seed) = Ok hs →
  Forall (stmt_ok v) (mjoin hs).
Proof.
  intros Hhs%mapM_Ok_Forall2. apply Forall_join_intro. intros l Hl.
  apply list_elem_of_lookup in Hl as [k Hk].
  destruct (Forall2_lookup_r _ _ _ _ _ Hhs Hk) as ([i e] & _ & Hentry).
  apply hint_entry_Ok in Hentry as (_ & _ & _ & ->). by repeat constructor.
Qed.

(** The seed does not change which assignments satisfy the model. *)
Lemma feasible_any_seed tags upp pc seed seed' M M' v :
  build_model tags upp pc seed = Ok M → build_model tags upp pc seed' = Ok M' →
  feasible v M → feasible v M'.
Proof.
  intros (hs & Hhs & ->)%build_model_Ok (hs' & Hhs' & ->)%build_model_Ok.
  unfold feasible. rewrite !Forall_app.
  intros (? & ? & ? & _ & ?). repeat split; try tauto.
  by eapply hints_ok.
Qed.

(** ** The materialised rows, tag by tag *)

Lemma join_imap_singleton {A B} (g : nat → A → B) (l : list A) :
  mjoin (imap (λ i x, [g i x]) l) = imap g l.
Proof.
  revert g. induction l as [|x l IH]; intros g; [done|].
  simpl. f_equal. exact (IH (g ∘ S)).
Qed.

Lemma join_imap_nil {A B} (l : list A) :
  mjoin (imap (λ _ _, @nil B) l) = [].
Proof. induction l as [|x l IH]; [done|]. simpl. exact IH. Qed.

Lemma join_imap_split {A B} (fa fb fc : nat → A → list B) (l : list A) :
  (∀ i x, fc i x = fa i x ++ fb i x) →
  mjoin (imap fc l) ≡ₚ mjoin (imap fa l) ++ mjoin (imap fb l).
Proof.
  revert fa fb fc. induction l as [|x l IH]; intros fa fb fc Hf; [done|].
  simpl. rewrite Hf, (IH (fa ∘ S) (fb ∘ S) (fc ∘ S)) by (intros; apply Hf).
  rewrite <-!app_assoc. f_equiv. rewrite !app_assoc. f_equiv.
  apply Permutation_app_comm.
Qed.

Lemma fmap_imap_item {A B C} (h : B → C) (g : nat → A → B) (f : A → C) (l : list A) :
  (∀ i x, h (g i x) = f x) → h <$> imap g l = f <$> l.
Proof.
  revert g. induction l as [|x l IH]; intros g Hg; [done|].
  simpl. rewrite Hg. f_equal. apply IH. intros; apply Hg.
Qed.

Lemma fmap_imap_index {A B C} (h : B → C) (g : nat → A → B) (f : nat → C)
    (l : list A) :
  (∀ i x, l !! i = Some x → h (g i x) = f i) →
  h <$> imap g l = f <$> seq 0 (length l).
Proof.
  induction l as [|x l IH] using rev_ind; intros Hg; [done|].
  rewrite imap_app, length_app, fmap_app. simpl length.
  rewrite Nat.add_1_r, seq_S, fmap_app. f_equal.
  - apply IH. intros i y Hy. apply Hg. by apply lookup_app_l_Some.
  - simpl. rewrite Nat.add_0_r. f_equal. apply Hg.
    rewrite lookup_app_r, Nat.sub_diag by done. done.
Qed.

(** The rows of all plates are, up to their order, one row for every tag
    whose plate variable is the index of a plate. *)
Lemma results_by_tag v tags (np : nat) :
  mjoin (plate_rows v tags <$> seq 0 np)
  ≡ₚ mjoin (imap (λ i item,
               if decide (0 <= v (tag_to_plate i) < Z.of_nat np)
               then [result_row v (Z.to_nat (v (tag_to_plate i))) i item] else [])
            tags).
Proof.
  induction np as [|np IH].
  - simpl. rewrite (imap_ext _ (λ _ _, [])); [by rewrite join_imap_nil|].
    intros i x _. case_decide; [lia|done].
  - rewrite seq_S, fmap_app, join_app. simpl. rewrite app_nil_r, IH.
    unfold plate_rows. symmetry. apply join_imap_split. intros i x.
    destruct (decide (v (tag_to_plate i) = Z.of_nat np)) as [Heq|Hne].
    + rewrite Heq, Nat2Z.id.
      rewrite decide_True, decide_False by lia. done.
    + destruct (decide (0 <= v (tag_to_plate i) < Z.of_nat np)).
      * rewrite decide_True by lia. done.
      * rewrite decide_False by lia. done.
Qed.

Lemma py_sum_excess (rows : list ResultRow) :
  Forall (λ r, EXCESS r = QTY_PRODUCED r - row_QTY r) rows →
  py_sum (EXCESS <$> rows)
  = py_sum (QTY_PRODUCED <$> rows) - py_sum (row_QTY <$> rows).
Proof.
  induction 1 as [|r rows Hr _ IH]; [unfold py_sum; simpl; lia|].
  rewrite !fmap_cons, !py_sum_cons, IH, Hr. lia.
Qed.

Section FeasibleRows.
Context {Float : Type} (float_zero : Float) (round_waste : Z → Z → Float).
Context (tags : list Tag) (upp pc : Z) (seed : list SeedEntry) (M : CpModel)
        (v : Valuation).
Hypothesis Hbuild : build_model tags upp pc seed = Ok M.
Hypothesis Hfeas : feasible v M.

Lemma results_feasible :
  results (materialize float_zero round_waste v tags pc upp)
  ≡ₚ imap (λ i item, result_row v (Z.to_nat (v (tag_to_plate i))) i item) tags.
Proof.
  rewrite results_materialize, results_by_tag.
  rewrite <-(join_imap_singleton
               (λ i item, result_row v (Z.to_nat (v (tag_to_plate i))) i item)).
  match goal with |- ?a ≡ₚ ?b => assert (a = b) as ->; [|done] end.
  f_equal. apply imap_ext. intros i x Hx. simpl.
  destruct (tag_to_plate_range _ _ _ _ _ _ Hbuild Hfeas i) as [? ?].
  { by eapply lookup_lt_Some. }
  rewrite decide_True by lia. done.
Qed.

Lemma results_excess r :
  r ∈ results (materialize float_zero round_waste v tags pc upp) →
  EXCESS r = QTY_PRODUCED r - row_QTY r ∧ 0 <= EXCESS r.
Proof.
  rewrite results_feasible. intros (i & item & -> & Hi)%elem_of_lookup_imap.
  split; [done|]. simpl.
  destruct (plate_usage _ _ _ _ _ _ Hbuild Hfeas i) as (j & Hj & Hp & Hon & _).
  { by eapply lookup_lt_Some. }
  rewrite Hp, Nat2Z.id.
  pose proof (capacity _ _ _ _ _ _ Hbuild Hfeas i j item Hi Hj Hon). lia.
Qed.

Lemma results_quantities :
  py_sum (row_QTY <$> results (materialize float_zero round_waste v tags pc upp))
  = py_sum (QTY <$> tags).
Proof.
  rewrite (py_sum_Permutation _ _ (fmap_Permutation row_QTY _ _ results_feasible)).
  by rewrite (fmap_imap_item row_QTY _ QTY).
Qed.

Lemma results_produced :
  py_sum (QTY_PRODUCED <$> results (materialize float_zero round_waste v tags pc upp))
  = upp * sheets_on v (used_plates v pc).
Proof.
  rewrite (py_sum_Permutation _ _ (fmap_Permutation QTY_PRODUCED _ _ results_feasible)).
  rewrite (fmap_imap_index QTY_PRODUCED _
             (λ i, v (ups_vars i) * v (plate_sheets (Z.to_nat (v (tag_to_plate i))))))
    by done.
  rewrite (sum_over_plates _ _ _ _ _ _ Hbuild Hfeas).
  rewrite (py_sum_ext _ (λ j, if decide (v (plate_used j) = 1)
                              then upp * v (plate_sheets j) else 0)).
  - unfold used_plates, sheets_on.
    rewrite (py_sum_filter (λ j, v (plate_used j) = 1) _
               (λ j, upp * v (plate_sheets j))) by done.
    apply py_sum_scale.
  - intros j Hj%elem_of_seq. assert (j < Z.to_nat pc)%nat as Hj' by lia.
    rewrite (py_sum_ext _ (λ i, v (plate_sheets j) * v (ups_vars i))).
    + rewrite py_sum_scale.
      change (py_sum _) with (ups_on_plate v (length tags) j).
      rewrite (ups_on_plate_used _ _ _ _ _ _ Hbuild Hfeas j Hj').
      case_decide; lia.
    + intros i [Hon Hi%elem_of_seq]%list_elem_of_filter.
      eapply tag_on_plate_iff in Hon; eauto; [|lia].
      rewrite Hon, Nat2Z.id. lia.
Qed.

End FeasibleRows.

(** ** The product of sheets and ups *)

Section Products.
Context {Float : Type} (float_zero : Float) (round_waste : Z → Z → Float).
Context (tags : list Tag) (upp pc : Z) (seed : list SeedEntry) (M : CpModel)
        (v : Valuation).
Hypothesis Hbuild : build_model tags upp pc seed = Ok M.
Hypothesis Hfeas : feasible v M.

Lemma product_range i j :
  (i < length tags)%nat → (j < Z.to_nat pc)%nat →
  1 <= v (ups_vars i) * v (plate_sheets j) <= 1000000.
Proof.
  intros Hi Hj. destruct (lookup_lt_is_Some_2 tags i Hi) as [tag Htag].
  pose proof (link_tag_ok _ _ _ _ _ _ Hbuild Hfeas i j tag _ Htag Hj
    ltac:(unfold link_tag; do 2 apply list_elem_of_further; apply list_elem_of_here)) as H1.
  pose proof (link_tag_ok _ _ _ _ _ _ Hbuild Hfeas i j tag _ Htag Hj
    ltac:(unfold link_tag; do 3 apply list_elem_of_further; apply list_elem_of_here)) as H2.
  simpl in H1, H2. specialize (H2 (Forall_nil_2 _)). lia.
Qed.

Lemma quantity_range i tag : tags !! i = Some tag → QTY tag <= 1000000.
Proof.
  intros Htag. pose proof (lookup_lt_Some _ _ _ Htag) as Hi.
  destruct (plate_usage _ _ _ _ _ _ Hbuild Hfeas i Hi) as (j & Hj & _ & Hon & _).
  pose proof (capacity _ _ _ _ _ _ Hbuild Hfeas i j tag Htag Hj Hon).
  pose proof (product_range i j Hi Hj). lia.
Qed.

Lemma results_range r :
  r ∈ results (materialize float_zero round_waste v tags pc upp) →
  1 <= QTY_PRODUCED r <= 1000000 ∧ row_QTY r <= QTY_PRODUCED r.
Proof.
  rewrite (results_feasible float_zero round_waste _ _ _ _ _ _ Hbuild Hfeas).
  intros (i & item & -> & Hi)%elem_of_lookup_imap. simpl.
  pose proof (lookup_lt_Some _ _ _ Hi) as Hlt.
  destruct (plate_usage _ _ _ _ _ _ Hbuild Hfeas i Hlt) as (j & Hj & Hp & Hon & _).
  rewrite Hp, Nat2Z.id.
  pose proof (capacity _ _ _ _ _ _ Hbuild Hfeas i j item Hi Hj Hon).
  pose proof (product_range i j Hlt Hj). lia.
Qed.

End Products.

(** ** The waste percentage *)

Section Waste.
Context {Float : Type} (float_zero : Float) (round_waste : Z → Z → Float).

Lemma results_produced_pos tags upp pc seed M v :
  build_model tags upp pc seed = Ok M → feasible v M →
  Z.of_nat (length tags)
  <= py_sum (QTY_PRODUCED <$> results (materialize float_zero round_waste v tags pc upp)).
Proof.
  intros Hbuild Hfeas.
  pose proof (results_feasible float_zero round_waste _ _ _ _ _ _ Hbuild Hfeas) as Hperm.
  rewrite <-(length_imap (λ i item, result_row v (Z.to_nat (v (tag_to_plate i))) i item)).
  rewrite <-Hperm. apply py_sum_lower. intros r Hr. rewrite Hperm in Hr.
  apply elem_of_lookup_imap in Hr as (i & item & -> & Hi). simpl.
  apply lookup_lt_Some in Hi.
  pose proof (ups_vars_range _ _ _ _ _ _ Hbuild Hfeas i Hi).
  destruct (tag_to_plate_range _ _ _ _ _ _ Hbuild Hfeas i Hi) as [_ Hp].
  pose proof (plate_sheets_range _ _ _ _ _ _ Hbuild Hfeas _ Hp). nia.
Qed.

Lemma materialize_no_tags v pc upp :
  results (materialize float_zero round_waste v [] pc upp) = []
  ∧ wastePercentage (summary (materialize float_zero round_waste v [] pc upp))
    = float_zero.
Proof.
  assert (mjoin (plate_rows v [] <$> seq 0 (Z.to_nat pc)) = []) as Hnil.
  { induction (Z.to_nat pc) as [|np IH]; [done|].
    by rewrite seq_S, fmap_app, join_app, IH. }
  unfold materialize. cbn [results summary wastePercentage].
  rewrite Hnil. done.
Qed.

End Waste.

(** ** The validator *)

Lemma elem_of_single_tag_plates rows p :
  p ∈ single_tag_plates rows ↔ rows_on_plate p rows = 1%nat.
Proof.
  destruct (plate_tag_counts_spec rows) as (Hnd & Hcount & Hnone).
  unfold single_tag_plates. rewrite list_elem_of_fmap. split.
  - intros ([q c] & -> & [Hc Hin]%list_elem_of_filter). simpl in *. subst.
    apply Hcount in Hin. lia.
  - intros Hone.
    destruct (decide (p ∈ (plate_tag_counts rows).*1)) as [Hin|Hout].
    + apply list_elem_of_fmap in Hin as ([q c] & -> & Hin). simpl in *.
      exists (q, c). split; [done|]. apply list_elem_of_filter. split; [|done].
      simpl. apply Hcount in Hin. lia.
    + apply Hnone in Hout. lia.
Qed.

Lemma single_tag_plates_NoDup rows : NoDup (single_tag_plates rows).
Proof.
  destruct (plate_tag_counts_spec rows) as (Hnd & _).
  unfold single_tag_plates. eapply sublist_NoDup; [exact Hnd|].
  apply fmap_sublist, sublist_filter.
Qed.

(** * Facts about the returned value, continued *)

Section SolveMore.
Context {Float : Type} (float_zero : Float) (round_waste : Z → Z → Float).

Lemma solve_plate_optimization_built solver tags upp pc seed M :
  build_model tags upp pc seed = Ok M →
  ∃ out, solve_plate_optimization float_zero round_waste solver tags upp pc seed
         = Ok out.
Proof.
  intros HM. unfold solve_plate_optimization. rewrite HM. simpl.
  destruct (best_solution _); by eexists.
Qed.

(** The function raises what the construction of the model raises. *)
Lemma solve_plate_optimization_Raise solver tags upp pc seed e :
  solve_plate_optimization float_zero round_waste solver tags upp pc seed = Raise e
  ↔ build_model tags upp pc seed = Raise e.
Proof.
  unfold solve_plate_optimization.
  destruct (build_model tags upp pc seed) as [M|e'|]; simpl.
  - destruct (best_solution _); split; discriminate.
  - split; by intros [= ->].
  - split; discriminate.
Qed.

Lemma no_room_infeasible tags upp pc seed M v :
  build_model tags upp pc seed = Ok M →
  upp * Z.of_nat (Z.to_nat pc) < Z.of_nat (length tags) →
  ¬ feasible v M.
Proof.
  intros HM Hroom Hfeas.
  destruct (tags_fit _ _ _ _ _ _ HM Hfeas) as [_ ?]. lia.
Qed.

Lemma solve_no_reports solver tags upp pc seed M :
  build_model tags upp pc seed = Ok M → solver M = [] →
  solve_plate_optimization float_zero round_waste solver tags upp pc seed
  = Ok ([SolveWithSolutionCallback M; NoSolutionWasFound],
        ErrorObject "No solution found").
Proof.
  intros HM Hnil. unfold solve_plate_optimization. rewrite HM. simpl.
  by rewrite Hnil.
Qed.

(** With a model that no assignment satisfies, a sound solver reports
    nothing. *)
Lemma solve_infeasible solver tags upp pc seed M :
  build_model tags upp pc seed = Ok M → (∀ v, ¬ feasible v M) →
  sound_solver solver →
  solve_plate_optimization float_zero round_waste solver tags upp pc seed
  = Ok ([SolveWithSolutionCallback M; NoSolutionWasFound],
        ErrorObject "No solution found").
Proof.
  intros HM Hnone Hsound. apply solve_no_reports; [done|].
  destruct (solver M) as [|w found] eqn:Hfound; [done|].
  destruct (Hnone w). apply Hsound. rewrite Hfound. left.
Qed.


End SolveMore.

(** * Facts about the task *)

(** ** The seed fits when the instance does *)

Lemma elem_le_py_sum (l : list Z) u :
  Forall (λ x, 1 <= x) l → u ∈ l → u <= py_sum l.
Proof.
  induction 1 as [|x l Hx Hl IH]; [by intros ?%not_elem_of_nil|].
  rewrite py_sum_cons. pose proof (py_sum_at_least_length l Hl).
  intros [->|Hu%IH]%elem_of_cons; lia.
Qed.

Lemma greedy_initialize_ups_bound round_share fuel tags upp pc seed :
  greedy_initialize round_share fuel tags upp pc = Ok seed →
  Forall (λ e : SeedEntry, 1 <= e.2 <= Z.max 1 upp) seed.
Proof.
  intros Hseed. apply Forall_forall. intros e He.
  assert (e ∈ filter (λ e' : SeedEntry, e'.1.2 = e.1.2) seed) as Hin
    by (by apply list_elem_of_filter).
  destruct (greedy_initialize_plate _ _ _ _ _ _ (e.1.2) Hseed)
    as [Hnil|(_ & group & ups_list & Hne & Hups & Hentries)].
  { rewrite Hnil in Hin. by apply not_elem_of_nil in Hin. }
  destruct (assign_ups_proportional_returned _ _ _ _ _ Hups Hne)
    as (Hlen & Hall & Hfit & Hones).
  assert (e.2 ∈ ups_list) as Hu.
  { rewrite <-(zip_with_seed_snd (e.1.2) group ups_list Hlen), <-Hentries.
    by apply list_elem_of_fmap_2. }
  rewrite Forall_forall in Hall. split; [by apply Hall|].
  destruct (decide (Z.of_nat (length group) <= upp)) as [Hle|Hgt].
  - pose proof (elem_le_py_sum ups_list (e.2)) as Hsum.
    rewrite Forall_forall in Hsum. specialize (Hsum Hall Hu).
    rewrite (Hfit Hle) in Hsum. lia.
  - assert (upp < Z.of_nat (length group)) as Hlt by lia.
    specialize (Hones Hlt). rewrite Forall_forall in Hones.
    rewrite (Hones _ Hu). lia.
Qed.

Lemma greedy_seed_fits round_share fuel tags upp pc seed :
  greedy_initialize round_share fuel tags upp pc = Ok seed →
  fits_int64 (pc - 1) → fits_int64 upp → seed_fits seed.
Proof.
  intros Hseed Hpc Hupp.
  pose proof (greedy_initialize_plate_index _ _ _ _ _ _ Hseed) as Hplates.
  pose proof (greedy_initialize_ups_bound _ _ _ _ _ _ Hseed) as Hups.
  unfold seed_fits, fits_int64 in *. rewrite Forall_forall in Hplates, Hups.
  apply Forall_forall. intros e He.
  specialize (Hplates e He). specialize (Hups e He). simpl in *. lia.
Qed.

Section TaskFacts.
Context (round_share : Z → Z → Z → Z).
Context {Float : Type} (float_zero : Float) (round_waste : Z → Z → Float).

(** What the task does once the seeder has returned. *)
Lemma run_plate_optimization_seeded fuel solver data seed :
  greedy_initialize round_share fuel (data_tags data) (data_upsPerPlate data)
    (data_plateCount data) = Ok seed →
  run_plate_optimization round_share float_zero round_waste fuel solver data
  = match solve_plate_optimization float_zero round_waste solver (data_tags data)
            (data_upsPerPlate data) (data_plateCount data) seed with
    | Ok result => ([PROGRESS "Initializing..."; PROGRESS "Optimizing..."], Ok result)
    | Raise e =>
        ([PROGRESS "Initializing..."; PROGRESS "Optimizing..."; FAILURE e], Raise e)
    | OutOfFuel => ([PROGRESS "Initializing..."; PROGRESS "Optimizing..."], OutOfFuel)
    end.
Proof.
  intros Hseed. unfold run_plate_optimization. rewrite Hseed.
  by destruct (solve_plate_optimization _ _ _ _ _ _ _).
Qed.

(** With the seed of the seeder the hint loop stays within the tag list. *)
Lemma seeded_solve_Raise fuel solver tags upp pc seed e :
  greedy_initialize round_share fuel tags upp pc = Ok seed →
  solve_plate_optimization float_zero round_waste solver tags upp pc seed = Raise e →
  e = TypeError ∧ ¬ instance_fits tags upp pc.
Proof.
  intros Hseed Hraise%solve_plate_optimization_Raise.
  destruct (greedy_initialize_Ok _ _ _ _ _ _ Hseed) as (_ & _ & Hlen).
  apply build_model_Raise in Hraise as [[_ ?]|[-> Hno]]; [lia|].
  split; [done|]. intros Hfits. apply Hno. split; [done|].
  destruct Hfits as (? & ? & _). by eapply greedy_seed_fits.
Qed.

Lemma seeded_solve_fits fuel solver tags upp pc seed :
  greedy_initialize round_share fuel tags upp pc = Ok seed →
  instance_fits tags upp pc →
  ∃ result,
    solve_plate_optimization float_zero round_waste solver tags upp pc seed = Ok result.
Proof.
  intros Hseed Hfits.
  destruct (greedy_initialize_Ok _ _ _ _ _ _ Hseed) as (_ & _ & Hlen).
  destruct (build_model_succeeds tags upp pc seed) as [M HM]; [lia|done| |].
  { destruct Hfits as (? & ? & _). by eapply greedy_seed_fits. }
  by eapply solve_plate_optimization_built.
Qed.

End TaskFacts.

(** ** Requests with positive quantities *)

Lemma positive_groups parts tags :
  mjoin parts ≡ₚ tags → Forall (λ t, 0 < QTY t) tags →
  Forall (λ g, g = [] ∨ py_sum (QTY <$> g) ≠ 0) parts.
Proof.
  intros Hperm Hpos. apply Forall_forall. intros g Hg.
  destruct (decide (g = [])) as [|Hne]; [by left|right].
  assert (0 < group_load g); [|unfold group_load in *; lia].
  apply group_load_pos; [|done]. apply Forall_forall. intros t Ht.
  rewrite Forall_forall in Hpos. apply Hpos. rewrite <-Hperm.
  apply list_elem_of_join. by exists g.
Qed.

Lemma greedy_initialize_positive round_share tags upp pc :
  1 <= pc → Forall (λ t, 0 < QTY t) tags →
  ∃ n seed, ∀ fuel, (n ≤ fuel)%nat →
    greedy_initialize round_share fuel tags upp pc = Ok seed.
Proof.
  intros Hpc Hpos.
  destruct (seed_partition_spec tags pc Hpc) as (parts & Hparts & _ & Hperm).
  destruct (seed_groups_spec round_share upp parts (positive_groups _ _ Hperm Hpos) id [])
    as (n & seed & Hrun & _).
  exists n, seed. intros fuel Hfuel. unfold greedy_initialize. rewrite Hparts. simpl.
  by apply Hrun.
Qed.

(** * Further properties of the code *)

(** ** The apportioning of ups *)

(** X1: whenever [assign_ups_proportional] returns for a non-empty group, it
    gives one ups count per tag, each at least 1; the counts sum to
    [ups_per_plate] when the group has at most that many tags, and are all 1
    when it has more. *)
Theorem assigned_ups_fill_the_plate round_share fuel group upp ups_list :
  assign_ups_proportional round_share fuel group upp = Ok ups_list → group ≠ [] →
  length ups_list = length group
  ∧ Forall (λ u, 1 <= u) ups_list
  ∧ (Z.of_nat (length group) <= upp → py_sum ups_list = upp)
  ∧ (upp < Z.of_nat (length group) → Forall (λ u, u = 1) ups_list).
Proof. apply assign_ups_proportional_returned. Qed.

Lemma assigned_ups_fill_the_plate_witness :
  assign_ups_proportional exact_round_share 10 three_tags 4 = Ok [2; 1; 1]
  ∧ three_tags ≠ []
  ∧ length [2; 1; 1] = length three_tags
  ∧ Forall (λ u, 1 <= u) [2; 1; 1]
  ∧ (Z.of_nat (length three_tags) <= 4 → py_sum [2; 1; 1] = 4)
  ∧ (4 < Z.of_nat (length three_tags) → Forall (λ u, u = 1) [2; 1; 1]).
Proof.
  split; [by vm_compute|]. split; [done|].
  apply (assigned_ups_fill_the_plate exact_round_share 10 three_tags 4);
    [by vm_compute|done].
Defined.


(** ** The partition of the tags *)

(** X3: both partitioning functions raise [ValueError] when there is no plate
    but at least one tag, and otherwise return [plate_count] groups that hold
    every tag exactly once. *)
Theorem partitions_outcome tags pc :
  (pc <= 0 ∧ tags ≠ []
   ∧ initial_balanced_partition tags pc = Raise ValueError
   ∧ initial_balanced_partition_no_singles tags pc = Raise ValueError)
  ∨ ((1 <= pc ∨ tags = [])
     ∧ ∃ parts parts',
         initial_balanced_partition tags pc = Ok parts
         ∧ initial_balanced_partition_no_singles tags pc = Ok parts'
         ∧ length parts = Z.to_nat pc ∧ mjoin parts ≡ₚ tags
         ∧ length parts' = Z.to_nat pc ∧ mjoin parts' ≡ₚ tags).
Proof.
  destruct (decide (1 <= pc ∨ tags = [])) as [Hok|Hbad].
  - right. split; [done|].
    destruct (partitions_return tags pc Hok) as [[parts Hparts] [parts' Hparts']].
    exists parts, parts'.
    destruct (initial_balanced_partition_Ok _ _ _ Hparts).
    destruct (initial_balanced_partition_no_singles_Ok _ _ _ Hparts').
    done.
  - left. assert (pc <= 0) by lia. assert (tags ≠ []) by tauto.
    destruct (seed_partition_no_plates tags pc) as (_ & ? & ?); done.
Qed.

(** X4: when every quantity is positive the second pass of
    [initial_balanced_partition_no_singles] moves no tag: the function
    returns, or raises, exactly what [initial_balanced_partition] does. *)
Theorem repair_pass_idle_for_positive_quantities tags pc :
  Forall (λ t, 0 < QTY t) tags →
  initial_balanced_partition_no_singles tags pc = initial_balanced_partition tags pc.
Proof.
  intros Hpos.
  unfold initial_balanced_partition_no_singles, initial_balanced_partition.
  destruct (foldM place _ _) as [st| |] eqn:Hst; simpl; [|done..].
  pose proof (first_pass_loads_match _ _ _ Hst) as Hmatch.
  apply (foldM_invariant_prefix place
    (λ _ st, Forall2 (λ g load, load = group_load g) st.1 st.2
             ∧ Forall (Forall (λ t, 0 < QTY t)) st.1
             ∧ (∀ k' k g, (k' < k)%nat → st.1 !! k = Some g → g ≠ [] →
                          st.1 !! k' ≠ Some []))) in Hst.
  - destruct Hst as (_ & Hp & Hprefix).
    rewrite second_pass_unchanged; [done..|].
    apply Forall_forall. intros i Hi%elem_of_seq. lia.
  - unfold empty_partition. simpl. split; [by apply Forall2_replicate|]. split.
    + apply Forall_forall. intros g Hg%elem_of_replicate. destruct Hg as [-> _].
      constructor.
    + intros k' k g _ Hg Hne. apply lookup_replicate in Hg as [-> _]. done.
  - intros seen x rest t t' Hl (Hm & Hp & Hprefix) Hplace.
    assert (0 < QTY x) as Hx.
    { rewrite Forall_forall in Hpos. apply Hpos.
      rewrite <-(sorted_desc_Permutation tags), Hl. apply elem_of_app. right. left. }
    split; [by eapply place_loads_match|]. by eapply place_prefix.
Qed.

Lemma repair_pass_idle_for_positive_quantities_witness :
  Forall (λ t, 0 < QTY t) three_tags
  ∧ initial_balanced_partition_no_singles three_tags 2
    = initial_balanced_partition three_tags 2.
Proof.
  assert (Forall (λ t, 0 < QTY t) three_tags) as Hpos
    by (unfold three_tags; repeat (constructor; [simpl; lia|]); constructor).
  split; [exact Hpos|].
  exact (repair_pass_idle_for_positive_quantities three_tags 2 Hpos).
Defined.

(** X5: the groups returned by [initial_balanced_partition] are balanced: when
    the quantities lie between 0 and [Q], the total quantities of any two
    groups differ by at most [Q]. *)
Theorem partition_loads_balanced Q tags pc parts :
  initial_balanced_partition tags pc = Ok parts →
  0 <= Q → Forall (λ t, 0 <= QTY t <= Q) tags →
  ∀ g g', g ∈ parts → g' ∈ parts → group_load g - group_load g' <= Q.
Proof.
  unfold initial_balanced_partition.
  destruct (foldM place _ _) as [st| |] eqn:Hst; simpl; try discriminate.
  intros [= <-] HQ Htags g g' Hg Hg'.
  pose proof (first_pass_loads_match _ _ _ Hst) as Hmatch.
  assert (∀ x y, x ∈ st.2 → y ∈ st.2 → x - y <= Q) as Hbal.
  { refine (foldM_invariant_prefix place
              (λ _ st, ∀ x y, x ∈ st.2 → y ∈ st.2 → x - y <= Q) _ _ _ _ _ Hst).
    - unfold empty_partition. simpl.
      intros x y [-> _]%elem_of_replicate [-> _]%elem_of_replicate. lia.
    - intros seen t rest s s' Hl Hbal Hplace.
      eapply place_balance; [done| |done].
      rewrite Forall_forall in Htags. apply Htags.
      rewrite <-(sorted_desc_Permutation tags), Hl. apply elem_of_app. right. left. }
  apply list_elem_of_lookup in Hg as [i Hi], Hg' as [i' Hi'].
  destruct (Forall2_lookup_l _ _ _ _ _ Hmatch Hi) as (x & Hx & ->).
  destruct (Forall2_lookup_l _ _ _ _ _ Hmatch Hi') as (y & Hy & ->).
  apply Hbal; by eapply list_elem_of_lookup_2.
Qed.

Lemma partition_loads_balanced_witness :
  initial_balanced_partition three_tags 2
  = Ok [[plain_tag 100]; [plain_tag 50; plain_tag 30]]
  ∧ 0 <= 100
  ∧ Forall (λ t, 0 <= QTY t <= 100) three_tags
  ∧ ∀ g g', g ∈ [[plain_tag 100]; [plain_tag 50; plain_tag 30]] →
            g' ∈ [[plain_tag 100]; [plain_tag 50; plain_tag 30]] →
            group_load g - group_load g' <= 100.
Proof.
  assert (Forall (λ t, 0 <= QTY t <= 100) three_tags) as Hq
    by (unfold three_tags; repeat (constructor; [simpl; lia|]); constructor).
  split; [by vm_compute|]. split; [lia|]. split; [exact Hq|].
  apply (partition_loads_balanced 100 three_tags 2); [by vm_compute|lia|exact Hq].
Defined.

(** ** The seed *)

(** X6: in a seed returned by [greedy_initialize] every entry names a plate
    below [plate_count], and the ups hinted for the tags of one plate sum to
    [ups_per_plate] when the plate has at most that many tags, and are all 1
    when it has more. *)
Theorem seed_respects_plates round_share fuel tags upp pc seed :
  greedy_initialize round_share fuel tags upp pc = Ok seed →
  Forall (λ e : SeedEntry, (e.1.2 < Z.to_nat pc)%nat) seed
  ∧ ∀ p, seed_on_plate p seed = []
         ∨ (Z.of_nat (length (seed_on_plate p seed)) <= upp
            ∧ py_sum (snd <$> seed_on_plate p seed) = upp)
         ∨ (upp < Z.of_nat (length (seed_on_plate p seed))
            ∧ Forall (λ e : SeedEntry, e.2 = 1) (seed_on_plate p seed)).
Proof.
  intros Hseed. split; [by eapply greedy_initialize_plate_index|]. intros p.
  destruct (greedy_initialize_plate _ _ _ _ _ _ p Hseed)
    as [Hnil|(_ & group & ups_list & Hne & Hups & Hentries)]; [by left|].
  right. unfold seed_on_plate. rewrite Hentries.
  destruct (assign_ups_proportional_returned _ _ _ _ _ Hups Hne)
    as (Hlen & _ & Hfit & Hones).
  rewrite zip_with_seed_length, zip_with_seed_snd by done.
  destruct (decide (Z.of_nat (length group) <= upp)) as [Hle|Hgt].
  - left. split; [done|by apply Hfit].
  - right. split; [lia|].
    apply (Forall_fmap snd (λ u, u = 1)). rewrite zip_with_seed_snd by done.
    apply Hones. lia.
Qed.

Lemma seed_respects_plates_witness :
  ∃ seed,
    greedy_initialize exact_round_share 10 three_tags 4 2 = Ok seed
    ∧ Forall (λ e : SeedEntry, (e.1.2 < Z.to_nat 2)%nat) seed
    ∧ ∀ p, seed_on_plate p seed = []
           ∨ (Z.of_nat (length (seed_on_plate p seed)) <= 4
              ∧ py_sum (snd <$> seed_on_plate p seed) = 4)
           ∨ (4 < Z.of_nat (length (seed_on_plate p seed))
              ∧ Forall (λ e : SeedEntry, e.2 = 1) (seed_on_plate p seed)).
Proof.
  eexists. split; [by vm_compute|].
  apply (seed_respects_plates exact_round_share 10 three_tags 4 2).
  by vm_compute.
Defined.



(** ** The model *)

(** X8: when every integer that the construction of the model hands to the
    solver fits 64 bits, [solve_plate_optimization] raises exactly when the
    seed has more entries than there are tags, and then it raises
    [IndexError] from the hint loop; in every other case it returns. *)
Theorem solve_raises_only_IndexError {Float : Type} (float_zero : Float)
    (round_waste : Z → Z → Float) solver tags upp pc seed :
  instance_fits tags upp pc → seed_fits seed →
  (∀ e, solve_plate_optimization float_zero round_waste solver tags upp pc seed
        = Raise e
        ↔ e = IndexError ∧ (length tags < length seed)%nat)
  ∧ ((length seed ≤ length tags)%nat
     ↔ ∃ out, solve_plate_optimization float_zero round_waste solver tags upp pc seed
              = Ok out).
Proof.
  intros Hfits Hseed.
  assert ((length tags < length seed)%nat →
          solve_plate_optimization float_zero round_waste solver tags upp pc seed
          = Raise IndexError) as Hlong.
  { intros Hlen. apply solve_plate_optimization_Raise.
    by apply build_model_IndexError. }
  assert ((length seed ≤ length tags)%nat →
          ∃ out, solve_plate_optimization float_zero round_waste solver tags upp pc seed
                 = Ok out) as Hshort.
  { intros Hlen. destruct (build_model_succeeds tags upp pc seed Hlen Hfits Hseed)
      as [M HM]. by eapply solve_plate_optimization_built. }
  split; [intros e; split|split].
  - intros Hraise.
    destruct (decide (length seed ≤ length tags)%nat) as [Hle|Hgt].
    + destruct (Hshort Hle) as [out Hout]. rewrite Hout in Hraise. discriminate.
    + rewrite Hlong in Hraise by lia. injection Hraise as <-. split; [done|lia].
  - intros [-> Hlen]. by apply Hlong.
  - apply Hshort.
  - intros [out Hout].
    destruct (decide (length seed ≤ length tags)%nat) as [|Hgt]; [done|].
    rewrite Hlong in Hout by lia. discriminate.
Qed.

Lemma solve_raises_only_IndexError_witness :
  instance_fits [plain_tag 10] 4 1
  ∧ seed_fits [(plain_tag 10, 0%nat, 4); (plain_tag 10, 0%nat, 4)]
  ∧ solve_plate_optimization 0 exact_round_waste (λ _, []) [plain_tag 10] 4 1
      [(plain_tag 10, 0%nat, 4); (plain_tag 10, 0%nat, 4)]
    = Raise IndexError
  ∧ ∃ out, solve_plate_optimization 0 exact_round_waste (λ _, []) [plain_tag 10] 4 1
             [(plain_tag 10, 0%nat, 4)]
           = Ok out.
Proof.
  assert (fits_int64 0 ∧ fits_int64 4 ∧ fits_int64 10) as (H0 & H4 & H10)
    by (unfold fits_int64; lia).
  assert (instance_fits [plain_tag 10] 4 1) as Hfits
    by (split; [exact H0|]; split; [exact H4|]; by repeat constructor).
  assert (seed_fits [(plain_tag 10, 0%nat, 4); (plain_tag 10, 0%nat, 4)]) as Hseed
    by (by repeat constructor).
  assert (seed_fits [(plain_tag 10, 0%nat, 4)]) as Hseed' by (by repeat constructor).
  split; [exact Hfits|]. split; [exact Hseed|]. split.
  - apply (proj1 (solve_raises_only_IndexError 0 exact_round_waste (λ _, [])
                    [plain_tag 10] 4 1 _ Hfits Hseed)).
    split; [done|simpl; lia].
  - apply (proj2 (solve_raises_only_IndexError 0 exact_round_waste (λ _, [])
                    [plain_tag 10] 4 1 _ Hfits Hseed')).
    simpl; lia.
Defined.

(** X9: the seed enters the model only as hints: two models built for the
    same tags, ups per plate and plate count from different seeds are
    satisfied by the same assignments and give them the same objective. *)
Theorem seed_only_hints tags upp pc seed seed' M M' v :
  build_model tags upp pc seed = Ok M → build_model tags upp pc seed' = Ok M' →
  (feasible v M ↔ feasible v M') ∧ objective_value v M = objective_value v M'.
Proof.
  intros HM HM'. split; [split; by eapply feasible_any_seed|].
  by rewrite (build_model_objective _ _ _ _ _ _ HM),
    (build_model_objective _ _ _ _ _ _ HM').
Qed.

Lemma seed_only_hints_witness :
  ∃ M M', build_model three_tags 4 2 [] = Ok M
          ∧ build_model three_tags 4 2 [(plain_tag 100, 1%nat, 3)] = Ok M'
          ∧ (feasible split_assignment M ↔ feasible split_assignment M')
          ∧ objective_value split_assignment M = objective_value split_assignment M'.
Proof.
  eexists. eexists. split; [reflexivity|]. split; [reflexivity|].
  exact (seed_only_hints three_tags 4 2 [] [(plain_tag 100, 1%nat, 3)] _ _
           split_assignment eq_refl eq_refl).
Defined.

(** X10: in every assignment that satisfies the model each tag is on exactly
    one plate, whose index is below [plate_count] and which is marked used;
    and a plate is marked used exactly when some tag is assigned to it. *)
Theorem every_tag_on_one_used_plate tags upp pc seed M v :
  build_model tags upp pc seed = Ok M → feasible v M →
  (∀ i, (i < length tags)%nat →
     ∃ j, (j < Z.to_nat pc)%nat
          ∧ v (tag_to_plate i) = Z.of_nat j
          ∧ v (tag_on_plate i j) = 1
          ∧ v (plate_used j) = 1
          ∧ ∀ j', (j' < Z.to_nat pc)%nat → v (tag_on_plate i j') = 1 → j' = j)
  ∧ (∀ j, (j < Z.to_nat pc)%nat →
       v (plate_used j) = 1
       ↔ ∃ i, (i < length tags)%nat ∧ v (tag_to_plate i) = Z.of_nat j).
Proof.
  intros Hbuild Hfeas. split.
  - intros i Hi. by eapply plate_usage.
  - intros j Hj. by eapply plate_used_iff.
Qed.

Lemma every_tag_on_one_used_plate_witness :
  ∃ M, build_model three_tags 4 2 [] = Ok M
       ∧ feasible split_assignment M
       ∧ (∀ i, (i < length three_tags)%nat →
            ∃ j, (j < Z.to_nat 2)%nat
                 ∧ split_assignment (tag_to_plate i) = Z.of_nat j
                 ∧ split_assignment (tag_on_plate i j) = 1
                 ∧ split_assignment (plate_used j) = 1
                 ∧ ∀ j', (j' < Z.to_nat 2)%nat →
                         split_assignment (tag_on_plate i j') = 1 → j' = j)
       ∧ (∀ j, (j < Z.to_nat 2)%nat →
            split_assignment (plate_used j) = 1
            ↔ ∃ i, (i < length three_tags)%nat
                   ∧ split_assignment (tag_to_plate i) = Z.of_nat j).
Proof.
  eexists. split; [reflexivity|].
  assert (feasible split_assignment
            (match build_model three_tags 4 2 [] with Ok m => m | _ => [] end)) as Hf.
  { apply check_feasible. by vm_compute. }
  split; [exact Hf|].
  exact (every_tag_on_one_used_plate three_tags 4 2 [] _ split_assignment eq_refl Hf).
Defined.

(** X11: in every assignment that satisfies the model the ups of all tags sum
    to [ups_per_plate] times the number of used plates, so the tags number at
    most that, and at most [ups_per_plate] times [plate_count]. *)
Theorem ups_total_counts_used_plates tags upp pc seed M v :
  build_model tags upp pc seed = Ok M → feasible v M →
  py_sum ((λ i, v (ups_vars i)) <$> seq 0 (length tags))
  = upp * Z.of_nat (length (used_plates v pc))
  ∧ Z.of_nat (length tags) <= upp * Z.of_nat (length (used_plates v pc))
  ∧ Z.of_nat (length tags) <= upp * Z.of_nat (Z.to_nat pc).
Proof.
  intros Hbuild Hfeas. split; [by eapply ups_total|]. by eapply tags_fit.
Qed.

Lemma ups_total_counts_used_plates_witness :
  ∃ M, build_model three_tags 4 2 [] = Ok M
       ∧ feasible one_plate_assignment M
       ∧ py_sum ((λ i, one_plate_assignment (ups_vars i)) <$> seq 0 (length three_tags))
         = 4 * Z.of_nat (length (used_plates one_plate_assignment 2))
       ∧ Z.of_nat (length three_tags)
         <= 4 * Z.of_nat (length (used_plates one_plate_assignment 2))
       ∧ Z.of_nat (length three_tags) <= 4 * Z.of_nat (Z.to_nat 2).
Proof.
  eexists. split; [reflexivity|].
  assert (feasible one_plate_assignment
            (match build_model three_tags 4 2 [] with Ok m => m | _ => [] end)) as Hf.
  { apply check_feasible. by vm_compute. }
  split; [exact Hf|].
  exact (ups_total_counts_used_plates three_tags 4 2 [] _ one_plate_assignment
           eq_refl Hf).
Defined.

(** X12: a model built for more tags than [ups_per_plate] times [plate_count]
    has no satisfying assignment, and with a solver that reports only
    satisfying assignments [solve_plate_optimization] then returns the error
    object. *)
Theorem too_many_tags_no_solution {Float : Type} (float_zero : Float)
    (round_waste : Z → Z → Float) solver tags upp pc seed M :
  build_model tags upp pc seed = Ok M →
  upp * Z.of_nat (Z.to_nat pc) < Z.of_nat (length tags) →
  (∀ v, ¬ feasible v M)
  ∧ (sound_solver solver →
     solve_plate_optimization float_zero round_waste solver tags upp pc seed
     = Ok ([SolveWithSolutionCallback M; NoSolutionWasFound],
           ErrorObject "No solution found")).
Proof.
  intros HM Hroom.
  assert (∀ v, ¬ feasible v M) as Hnone by (intros v; by eapply no_room_infeasible).
  split; [done|]. intros Hsound. by apply solve_infeasible.
Qed.

Lemma too_many_tags_no_solution_witness :
  ∃ M, build_model three_tags 1 2 [] = Ok M
       ∧ 1 * Z.of_nat (Z.to_nat 2) < Z.of_nat (length three_tags)
       ∧ (∀ v, ¬ feasible v M)
       ∧ (sound_solver (λ _, []) →
          solve_plate_optimization 0 exact_round_waste (λ _, []) three_tags 1 2 []
          = Ok ([SolveWithSolutionCallback M; NoSolutionWasFound],
                ErrorObject "No solution found")).
Proof.
  eexists. split; [reflexivity|]. split; [simpl; lia|].
  apply (too_many_tags_no_solution 0 exact_round_waste (λ _, []) three_tags 1 2 [] _
           eq_refl).
  simpl; lia.
Defined.

(** X13: in every assignment that satisfies the model, the ups of a tag times
    the sheets of a plate lies between 1 and 1000000 for every tag and every
    plate, whether the tag is on the plate or not; so no tag has a quantity
    above 1000000, and every recorded row produces between the tag's quantity
    and 1000000 pieces. *)
Theorem every_product_within_a_million {Float : Type} (float_zero : Float)
    (round_waste : Z → Z → Float) tags upp pc seed M v :
  build_model tags upp pc seed = Ok M → feasible v M →
  (∀ i j, (i < length tags)%nat → (j < Z.to_nat pc)%nat →
          1 <= v (ups_vars i) * v (plate_sheets j) <= 1000000)
  ∧ Forall (λ tag, QTY tag <= 1000000) tags
  ∧ Forall (λ r, 1 <= QTY_PRODUCED r <= 1000000 ∧ row_QTY r <= QTY_PRODUCED r)
      (results (materialize float_zero round_waste v tags pc upp)).
Proof.
  intros Hbuild Hfeas. split; [|split].
  - intros i j. by eapply product_range.
  - apply Forall_forall. intros tag [i Hi]%list_elem_of_lookup.
    by eapply quantity_range.
  - apply Forall_forall. intros r Hr. by eapply results_range.
Qed.

Lemma every_product_within_a_million_witness :
  ∃ M, build_model three_tags 4 2 [] = Ok M
       ∧ feasible one_plate_assignment M
       ∧ (∀ i j, (i < length three_tags)%nat → (j < Z.to_nat 2)%nat →
                 1 <= one_plate_assignment (ups_vars i)
                      * one_plate_assignment (plate_sheets j) <= 1000000)
       ∧ Forall (λ tag, QTY tag <= 1000000) three_tags
       ∧ Forall (λ r, 1 <= QTY_PRODUCED r <= 1000000 ∧ row_QTY r <= QTY_PRODUCED r)
           (results (materialize 0 exact_round_waste one_plate_assignment
                       three_tags 2 4)).
Proof.
  eexists. split; [reflexivity|].
  assert (feasible one_plate_assignment
            (match build_model three_tags 4 2 [] with Ok m => m | _ => [] end)) as Hf.
  { apply check_feasible. by vm_compute. }
  split; [exact Hf|].
  exact (every_product_within_a_million 0 exact_round_waste three_tags 4 2 [] _
           one_plate_assignment eq_refl Hf).
Defined.

(** X14: a model built for a tag with a quantity above 1000000 has no
    satisfying assignment, and with a solver that reports only satisfying
    assignments [solve_plate_optimization] then returns the error object. *)
Theorem oversized_quantity_no_solution {Float : Type} (float_zero : Float)
    (round_waste : Z → Z → Float) solver tags upp pc seed M tag :
  build_model tags upp pc seed = Ok M →
  tag ∈ tags → 1000000 < QTY tag →
  (∀ v, ¬ feasible v M)
  ∧ (sound_solver solver →
     solve_plate_optimization float_zero round_waste solver tags upp pc seed
     = Ok ([SolveWithSolutionCallback M; NoSolutionWasFound],
           ErrorObject "No solution found")).
Proof.
  intros HM [i Hi]%list_elem_of_lookup Hbig.
  assert (∀ v, ¬ feasible v M) as Hnone.
  { intros v Hfeas. pose proof (quantity_range _ _ _ _ _ _ HM Hfeas i tag Hi). lia. }
  split; [done|]. intros Hsound. by apply solve_infeasible.
Qed.

Lemma oversized_quantity_no_solution_witness :
  ∃ M, build_model [plain_tag 1000001] 4 1 [] = Ok M
       ∧ plain_tag 1000001 ∈ [plain_tag 1000001]
       ∧ 1000000 < QTY (plain_tag 1000001)
       ∧ (∀ v, ¬ feasible v M)
       ∧ (sound_solver (λ _, []) →
          solve_plate_optimization 0 exact_round_waste (λ _, [])
            [plain_tag 1000001] 4 1 []
          = Ok ([SolveWithSolutionCallback M; NoSolutionWasFound],
                ErrorObject "No solution found")).
Proof.
  assert (plain_tag 1000001 ∈ [plain_tag 1000001]) as Hin by left.
  eexists. split; [reflexivity|]. split; [exact Hin|]. split; [simpl; lia|].
  apply (oversized_quantity_no_solution 0 exact_round_waste (λ _, [])
           [plain_tag 1000001] 4 1 [] _ (plain_tag 1000001) eq_refl Hin).
  simpl; lia.
Defined.



(** ** The recorded solution *)

(** X15: the solution recorded for an assignment that satisfies the model has
    exactly one row for every tag, up to the order of the rows: the row of
    tag [i] has the tag's colour, size and quantity, the label of the plate
    the tag is assigned to, the tag's ups, that plate's sheets, their product
    as the quantity produced and the product less the tag's quantity as the
    excess. *)
Theorem one_row_per_tag {Float : Type} (float_zero : Float)
    (round_waste : Z → Z → Float) tags upp pc seed M v :
  build_model tags upp pc seed = Ok M → feasible v M →
  (λ r, (row_COLOR r, row_SIZE r, row_QTY r, PLATE r, OPTIMAL_UPS r,
         SHEETS_NEEDED r, QTY_PRODUCED r, EXCESS r))
    <$> results (materialize float_zero round_waste v tags pc upp)
  ≡ₚ imap (λ i item,
             let plate := v (tag_to_plate i) in
             let ups := v (ups_vars i) in
             let sheets := v (plate_sheets (Z.to_nat plate)) in
             (COLOR item, SIZE item, QTY item, 65 + plate, ups, sheets,
              ups * sheets, ups * sheets - QTY item))
          tags
  ∧ length (results (materialize float_zero round_waste v tags pc upp)) = length tags.
Proof.
  intros Hbuild Hfeas.
  pose proof (results_feasible float_zero round_waste _ _ _ _ _ _ Hbuild Hfeas) as Hperm.
  split; [|by rewrite Hperm, length_imap].
  rewrite Hperm, fmap_imap.
  match goal with |- ?a ≡ₚ ?b => assert (a = b) as ->; [|done] end.
  apply imap_ext. intros i item Hi. simpl.
  destruct (tag_to_plate_range _ _ _ _ _ _ Hbuild Hfeas i) as [Hlo _].
  { by eapply lookup_lt_Some. }
  by rewrite Z2Nat.id by done.
Qed.

Lemma one_row_per_tag_witness :
  ∃ M, build_model three_tags 4 2 [] = Ok M
       ∧ feasible split_assignment M
       ∧ (λ r, (row_COLOR r, row_SIZE r, row_QTY r, PLATE r, OPTIMAL_UPS r,
                SHEETS_NEEDED r, QTY_PRODUCED r, EXCESS r))
           <$> results (materialize 0 exact_round_waste split_assignment three_tags 2 4)
         ≡ₚ imap (λ i item,
                    let plate := split_assignment (tag_to_plate i) in
                    let ups := split_assignment (ups_vars i) in
                    let sheets := split_assignment (plate_sheets (Z.to_nat plate)) in
                    (COLOR item, SIZE item, QTY item, 65 + plate, ups, sheets,
                     ups * sheets, ups * sheets - QTY item))
                 three_tags
       ∧ length (results (materialize 0 exact_round_waste split_assignment
                            three_tags 2 4))
         = length three_tags.
Proof.
  eexists. split; [reflexivity|].
  assert (feasible split_assignment
            (match build_model three_tags 4 2 [] with Ok m => m | _ => [] end)) as Hf.
  { apply check_feasible. by vm_compute. }
  split; [exact Hf|].
  exact (one_row_per_tag 0 exact_round_waste three_tags 4 2 [] _ split_assignment
           eq_refl Hf).
Defined.

(** X16: in the summary recorded for an assignment that satisfies the model,
    [totalProduced] is [ups_per_plate] times the sheets of the used plates; it
    lies between [totalItems] and [upsCapacity] times [totalSheets]; and
    [totalExcess] is the sum of the rows' [EXCESS], which is not negative. *)
Theorem summary_totals {Float : Type} (float_zero : Float)
    (round_waste : Z → Z → Float) tags upp pc seed M v :
  build_model tags upp pc seed = Ok M → feasible v M →
  totalProduced (summary (materialize float_zero round_waste v tags pc upp))
  = upp * sheets_on v (used_plates v pc)
  ∧ totalItems (summary (materialize float_zero round_waste v tags pc upp))
    <= totalProduced (summary (materialize float_zero round_waste v tags pc upp))
  ∧ totalProduced (summary (materialize float_zero round_waste v tags pc upp))
    <= upsCapacity (summary (materialize float_zero round_waste v tags pc upp))
       * totalSheets (summary (materialize float_zero round_waste v tags pc upp))
  ∧ totalExcess (summary (materialize float_zero round_waste v tags pc upp))
    = py_sum (EXCESS <$> results (materialize float_zero round_waste v tags pc upp))
  ∧ 0 <= totalExcess (summary (materialize float_zero round_waste v tags pc upp)).
Proof.
  intros Hbuild Hfeas.
  pose proof (results_produced float_zero round_waste _ _ _ _ _ _ Hbuild Hfeas) as Hprod.
  pose proof (results_quantities float_zero round_waste _ _ _ _ _ _ Hbuild Hfeas) as Hqty.
  pose proof (sheets_on_used_le _ _ _ _ _ _ Hbuild Hfeas) as Hle.
  assert (py_sum (EXCESS <$> results (materialize float_zero round_waste v tags pc upp))
          = py_sum (QTY_PRODUCED <$> results (materialize float_zero round_waste v tags pc upp))
            - py_sum (QTY <$> tags)) as Hexcess.
  { rewrite <-Hqty. apply py_sum_excess, Forall_forall. intros r Hr.
    by destruct (results_excess float_zero round_waste _ _ _ _ _ _ Hbuild Hfeas r Hr). }
  assert (0 <= py_sum (EXCESS <$> results (materialize float_zero round_waste v tags pc upp)))
    as Hnonneg.
  { apply py_sum_nonneg, Forall_fmap, Forall_forall. intros r Hr. simpl.
    by destruct (results_excess float_zero round_waste _ _ _ _ _ _ Hbuild Hfeas r Hr). }
  cbn [materialize summary totalProduced totalItems upsCapacity totalSheets totalExcess].
  rewrite results_materialize in *. lia.
Qed.

Lemma summary_totals_witness :
  ∃ M, build_model three_tags 4 2 [] = Ok M
       ∧ feasible one_plate_assignment M
       ∧ totalProduced (summary (materialize 0 exact_round_waste one_plate_assignment
                                   three_tags 2 4))
         = 4 * sheets_on one_plate_assignment (used_plates one_plate_assignment 2)
       ∧ totalItems (summary (materialize 0 exact_round_waste one_plate_assignment
                                three_tags 2 4))
         <= totalProduced (summary (materialize 0 exact_round_waste one_plate_assignment
                                      three_tags 2 4))
       ∧ totalProduced (summary (materialize 0 exact_round_waste one_plate_assignment
                                   three_tags 2 4))
         <= upsCapacity (summary (materialize 0 exact_round_waste one_plate_assignment
                                    three_tags 2 4))
            * totalSheets (summary (materialize 0 exact_round_waste one_plate_assignment
                                      three_tags 2 4))
       ∧ totalExcess (summary (materialize 0 exact_round_waste one_plate_assignment
                                 three_tags 2 4))
         = py_sum (EXCESS <$> results (materialize 0 exact_round_waste
                                         one_plate_assignment three_tags 2 4))
       ∧ 0 <= totalExcess (summary (materialize 0 exact_round_waste one_plate_assignment
                                      three_tags 2 4)).
Proof.
  eexists. split; [reflexivity|].
  assert (feasible one_plate_assignment
            (match build_model three_tags 4 2 [] with Ok m => m | _ => [] end)) as Hf.
  { apply check_feasible. by vm_compute. }
  split; [exact Hf|].
  exact (summary_totals 0 exact_round_waste three_tags 4 2 [] _ one_plate_assignment
           eq_refl Hf).
Defined.

(** X17: for an assignment that satisfies the model of at least one tag,
    [totalProduced] is positive, so the waste percentage is the rounded ratio
    and the guard against a zero [totalProduced] is not taken; without tags
    there are no rows and the waste percentage is [0.0]. *)
Theorem waste_percentage_guard {Float : Type} (float_zero : Float)
    (round_waste : Z → Z → Float) tags upp pc seed M v :
  build_model tags upp pc seed = Ok M → feasible v M →
  (tags ≠ [] →
   0 < totalProduced (summary (materialize float_zero round_waste v tags pc upp))
   ∧ wastePercentage (summary (materialize float_zero round_waste v tags pc upp))
     = round_waste
         (totalExcess (summary (materialize float_zero round_waste v tags pc upp)))
         (totalProduced (summary (materialize float_zero round_waste v tags pc upp))))
  ∧ (tags = [] →
     results (materialize float_zero round_waste v tags pc upp) = []
     ∧ wastePercentage (summary (materialize float_zero round_waste v tags pc upp))
       = float_zero).
Proof.
  intros Hbuild Hfeas. split.
  - intros Hne.
    pose proof (results_produced_pos float_zero round_waste _ _ _ _ _ _ Hbuild Hfeas)
      as Hpos.
    assert (0 < length tags)%nat by (destruct tags; [done|simpl; lia]).
    unfold materialize in *. cbn [results summary totalProduced wastePercentage
                                   totalExcess] in *.
    split; [lia|]. rewrite decide_False by lia. done.
  - intros ->. apply materialize_no_tags.
Qed.

Lemma waste_percentage_guard_witness :
  ∃ M, build_model three_tags 4 2 [] = Ok M
       ∧ feasible split_assignment M
       ∧ (three_tags ≠ [] →
          0 < totalProduced (summary (materialize 0 exact_round_waste split_assignment
                                        three_tags 2 4))
          ∧ wastePercentage (summary (materialize 0 exact_round_waste split_assignment
                                        three_tags 2 4))
            = exact_round_waste
                (totalExcess (summary (materialize 0 exact_round_waste split_assignment
                                         three_tags 2 4)))
                (totalProduced (summary (materialize 0 exact_round_waste
                                           split_assignment three_tags 2 4))))
       ∧ (three_tags = [] →
          results (materialize 0 exact_round_waste split_assignment three_tags 2 4) = []
          ∧ wastePercentage (summary (materialize 0 exact_round_waste split_assignment
                                        three_tags 2 4))
            = 0).
Proof.
  eexists. split; [reflexivity|].
  assert (feasible split_assignment
            (match build_model three_tags 4 2 [] with Ok m => m | _ => [] end)) as Hf.
  { apply check_feasible. by vm_compute. }
  split; [exact Hf|].
  exact (waste_percentage_guard 0 exact_round_waste three_tags 4 2 [] _
           split_assignment eq_refl Hf).
Defined.

(** ** The returned value *)

(** X18: when the solver reports at least one assignment,
    [solve_plate_optimization] returns the solution recorded for the first
    reported assignment of least objective value: every assignment reported
    before it has a strictly larger objective, every later one an objective at
    least as large. *)
Theorem first_best_assignment_is_returned {Float : Type} (float_zero : Float)
    (round_waste : Z → Z → Float) solver tags upp pc seed M :
  build_model tags upp pc seed = Ok M → solver M ≠ [] →
  ∃ before w after outputs,
    solver M = before ++ w :: after
    ∧ solve_plate_optimization float_zero round_waste solver tags upp pc seed
      = Ok (SolveWithSolutionCallback M :: outputs,
            Solved (materialize float_zero round_waste w tags pc upp))
    ∧ (∀ w', w' ∈ before → objective_value w M < objective_value w' M)
    ∧ (∀ w', w' ∈ after → objective_value w M <= objective_value w' M).
Proof.
  intros HM Hne.
  destruct (run_callbacks_first float_zero round_waste tags pc upp _ Hne)
    as (before & w & after & Heq & Hsol & _ & Hlt & Hle).
  exists before, w, after. unfold solve_plate_optimization.
  rewrite HM. simpl. rewrite Hsol. eexists. split; [done|]. split; [done|].
  split; intros w' Hw'; rewrite !(build_model_objective _ _ _ _ _ _ HM); auto.
Qed.

Lemma first_best_assignment_is_returned_witness :
  ∃ M, build_model three_tags 4 2 [] = Ok M
       ∧ (λ _ : CpModel, [one_plate_assignment; split_assignment]) M ≠ []
       ∧ ∃ before w after outputs,
           (λ _ : CpModel, [one_plate_assignment; split_assignment]) M
           = before ++ w :: after
           ∧ solve_plate_optimization 0 exact_round_waste
               (λ _, [one_plate_assignment; split_assignment]) three_tags 4 2 []
             = Ok (SolveWithSolutionCallback M :: outputs,
                   Solved (materialize 0 exact_round_waste w three_tags 2 4))
           ∧ (∀ w', w' ∈ before → objective_value w M < objective_value w' M)
           ∧ (∀ w', w' ∈ after → objective_value w M <= objective_value w' M).
Proof.
  eexists. split; [reflexivity|]. split; [done|].
  exact (first_best_assignment_is_returned 0 exact_round_waste
           (λ _, [one_plate_assignment; split_assignment]) three_tags 4 2 [] _
           eq_refl ltac:(done)).
Defined.

(** X19: the validator's list of single-tag plates holds exactly the plate
    labels that occur on one row of the results, each of them once. *)
Theorem single_tag_plates_exact rows :
  NoDup (single_tag_plates rows)
  ∧ ∀ plate, plate ∈ single_tag_plates rows ↔ rows_on_plate plate rows = 1%nat.
Proof.
  split; [apply single_tag_plates_NoDup|]. intros plate.
  apply elem_of_single_tag_plates.
Qed.

(** ** The task *)

(** X20: whenever the seeder returns, the task reports its two progress
    states and hands the seed to [solve_plate_optimization].  When that
    returns, the task returns the same value; when it raises, the task
    reports the failure and raises the same exception, which is never
    [IndexError], as the seed has one entry per tag.  It returns whenever the
    plate count less one, the ups per plate and every quantity fit 64
    bits. *)
Theorem task_returns_solver_answer round_share {Float : Type} (float_zero : Float)
    (round_waste : Z → Z → Float) fuel solver data seed :
  greedy_initialize round_share fuel (data_tags data) (data_upsPerPlate data)
    (data_plateCount data) = Ok seed →
  length seed = length (data_tags data)
  ∧ (∀ result,
       solve_plate_optimization float_zero round_waste solver (data_tags data)
         (data_upsPerPlate data) (data_plateCount data) seed = Ok result →
       run_plate_optimization round_share float_zero round_waste fuel solver data
       = ([PROGRESS "Initializing..."; PROGRESS "Optimizing..."], Ok result))
  ∧ (∀ e,
       solve_plate_optimization float_zero round_waste solver (data_tags data)
         (data_upsPerPlate data) (data_plateCount data) seed = Raise e →
       e ≠ IndexError
       ∧ run_plate_optimization round_share float_zero round_waste fuel solver data
         = ([PROGRESS "Initializing..."; PROGRESS "Optimizing..."; FAILURE e],
            Raise e))
  ∧ (instance_fits (data_tags data) (data_upsPerPlate data) (data_plateCount data) →
     ∃ result,
       solve_plate_optimization float_zero round_waste solver (data_tags data)
         (data_upsPerPlate data) (data_plateCount data) seed = Ok result
       ∧ run_plate_optimization round_share float_zero round_waste fuel solver data
         = ([PROGRESS "Initializing..."; PROGRESS "Optimizing..."], Ok result)).
Proof.
  intros Hseed.
  pose proof (run_plate_optimization_seeded round_share float_zero round_waste fuel
                solver data seed Hseed) as Hrun.
  destruct (greedy_initialize_Ok _ _ _ _ _ _ Hseed) as (_ & _ & Hlen).
  split; [done|]. split; [|split].
  - intros result Hres. by rewrite Hres in Hrun.
  - intros e Hraise. split; [|by rewrite Hraise in Hrun].
    destruct (seeded_solve_Raise round_share float_zero round_waste fuel solver
                _ _ _ _ _ Hseed Hraise) as [-> _]. done.
  - intros Hfits.
    destruct (seeded_solve_fits round_share float_zero round_waste fuel solver
                _ _ _ _ Hseed Hfits) as [result Hres].
    exists result. split; [done|]. by rewrite Hres in Hrun.
Qed.

Lemma task_returns_solver_answer_witness :
  ∃ seed,
    greedy_initialize exact_round_share 10 three_tags 4 2 = Ok seed
    ∧ length seed = length three_tags
    ∧ ∃ result,
        solve_plate_optimization 0 exact_round_waste (λ _, [split_assignment])
          three_tags 4 2 seed = Ok result
        ∧ run_plate_optimization exact_round_share 0 exact_round_waste 10
            (λ _, [split_assignment]) (mkRequest three_tags 4 2)
          = ([PROGRESS "Initializing..."; PROGRESS "Optimizing..."], Ok result).
Proof.
  eexists. split; [by vm_compute|].
  destruct (task_returns_solver_answer exact_round_share 0 exact_round_waste 10
              (λ _, [split_assignment]) (mkRequest three_tags 4 2) _
              ltac:(by vm_compute))
    as (Hlen & _ & _ & Hfits).
  split; [exact Hlen|]. apply Hfits.
  split; [unfold fits_int64; simpl; lia|]. split; [unfold fits_int64; simpl; lia|].
  simpl. unfold three_tags.
  repeat (constructor; [unfold fits_int64; simpl; lia|]). constructor.
Defined.



(** X22: for a request with at least one plate and only positive quantities,
    whose plate count less one, ups per plate and quantities fit 64 bits, the
    task does not fail: the seeder returns a seed, and the task reports its
    two progress states and returns what [solve_plate_optimization] returns
    for that seed. *)
Theorem task_succeeds_on_positive_request round_share {Float : Type}
    (float_zero : Float) (round_waste : Z → Z → Float) solver data :
  1 <= data_plateCount data → Forall (λ t, 0 < QTY t) (data_tags data) →
  instance_fits (data_tags data) (data_upsPerPlate data) (data_plateCount data) →
  ∃ n seed result,
    (∀ fuel, (n ≤ fuel)%nat →
       greedy_initialize round_share fuel (data_tags data) (data_upsPerPlate data)
         (data_plateCount data) = Ok seed)
    ∧ solve_plate_optimization float_zero round_waste solver (data_tags data)
        (data_upsPerPlate data) (data_plateCount data) seed = Ok result
    ∧ ∀ fuel, (n ≤ fuel)%nat →
        run_plate_optimization round_share float_zero round_waste fuel solver data
        = ([PROGRESS "Initializing..."; PROGRESS "Optimizing..."], Ok result).
Proof.
  intros Hpc Hpos Hfits.
  destruct (greedy_initialize_positive round_share (data_tags data)
              (data_upsPerPlate data) (data_plateCount data) Hpc Hpos)
    as (n & seed & Hseed).
  destruct (seeded_solve_fits round_share float_zero round_waste n solver
              _ _ _ _ (Hseed n (le_n n)) Hfits) as [result Hres].
  exists n, seed, result. split; [done|]. split; [done|].
  intros fuel Hfuel.
  rewrite (run_plate_optimization_seeded round_share float_zero round_waste fuel
             solver data seed (Hseed fuel Hfuel)).
  by rewrite Hres.
Qed.

Lemma task_succeeds_on_positive_request_witness :
  1 <= data_plateCount (mkRequest three_tags 4 2)
  ∧ Forall (λ t, 0 < QTY t) (data_tags (mkRequest three_tags 4 2))
  ∧ instance_fits three_tags 4 2
  ∧ ∃ n seed result,
      (∀ fuel, (n ≤ fuel)%nat →
         greedy_initialize exact_round_share fuel three_tags 4 2 = Ok seed)
      ∧ solve_plate_optimization 0 exact_round_waste (λ _, [split_assignment])
          three_tags 4 2 seed = Ok result
      ∧ ∀ fuel, (n ≤ fuel)%nat →
          run_plate_optimization exact_round_share 0 exact_round_waste fuel
            (λ _, [split_assignment]) (mkRequest three_tags 4 2)
          = ([PROGRESS "Initializing..."; PROGRESS "Optimizing..."], Ok result).
Proof.
  assert (Forall (λ t, 0 < QTY t) (data_tags (mkRequest three_tags 4 2))) as Hpos
    by (simpl; unfold three_tags; repeat (constructor; [simpl; lia|]); constructor).
  assert (instance_fits three_tags 4 2) as Hfits.
  { split; [unfold fits_int64; lia|]. split; [unfold fits_int64; lia|].
    unfold three_tags.
    repeat (constructor; [unfold fits_int64; simpl; lia|]). constructor. }
  split; [simpl; lia|]. split; [exact Hpos|]. split; [exact Hfits|].
  apply (task_succeeds_on_positive_request exact_round_share 0 exact_round_waste
           (λ _, [split_assignment]) (mkRequest three_tags 4 2));
    [simpl; lia|exact Hpos|exact Hfits].
Defined.
